(** * Verification of the e2e admin-key issuance script and the mock
      inference endpoint

    Sources embedded here:
    - [scripts/create-e2e-admin-key.py]: generates a secret, its fingerprint,
      three UUIDs, and prints a SQL transaction plus a summary;
    - [.dev/mock-inference/app.py]: the [/v1/completions] handler.

    Python values are modelled as follows: [bytes] is [list byte]; [str] is a
    list of Unicode code points, [list N]; an exception is the [Raise] case
    of [result]; module-level effects (entropy, clock, stdout) are threaded
    through a state-and-exception monad over [world]. *)

From Stdlib Require Import ZArith NArith Strings.Byte Ascii String Lia.
From stdpp Require Import gmap strings list fin_maps.

(** ** Python values *)

(** A text literal of the source, as a [str]. *)
Definition lit (s : string) : list N :=
  N_of_ascii <$> list_ascii_of_string s.

(** The exceptions the modelled fragment can raise. *)
Inductive exn :=
  | UnicodeEncodeError
  | UnicodeDecodeError
  | OverflowError.

Inductive result (A : Type) :=
  | Ok (a : A)
  | Raise (e : exn).
Arguments Ok {A} a.
Arguments Raise {A} e.

#[global] Instance result_ret : MRet result := @Ok.
#[global] Instance result_bind : MBind result := λ A B f r,
  match r with Ok a => f a | Raise e => Raise e end.
#[global] Instance result_fmap : FMap result := λ A B f r,
  match r with Ok a => Ok (f a) | Raise e => Raise e end.

#[global] Instance exn_eq_dec : EqDecision exn.
Proof. solve_decision. Defined.
#[global] Instance byte_eqdec : EqDecision byte := Byte.byte_eq_dec.

(** [bytes([n])] for [0 <= n < 256]. *)
Definition byte_of_N (n : N) : byte :=
  default x00 (Byte.of_N (n mod 256)).

(** ** [str.encode('utf-8')] and [bytes.decode('utf-8')] (strict) *)

Definition is_surrogate (c : N) : bool :=
  ((0xD800 <=? c) && (c <=? 0xDFFF))%N.

Definition utf8_encode_cp (c : N) : result (list byte) :=
  (if c <? 0x80 then
     Ok [byte_of_N c]
   else if c <? 0x800 then
     Ok [byte_of_N (0xC0 + c / 64); byte_of_N (0x80 + c mod 64)]
   else if is_surrogate c then
     Raise UnicodeEncodeError
   else if c <? 0x10000 then
     Ok [byte_of_N (0xE0 + c / 4096); byte_of_N (0x80 + (c / 64) mod 64);
         byte_of_N (0x80 + c mod 64)]
   else if c <? 0x110000 then
     Ok [byte_of_N (0xF0 + c / 262144); byte_of_N (0x80 + (c / 4096) mod 64);
         byte_of_N (0x80 + (c / 64) mod 64); byte_of_N (0x80 + c mod 64)]
   else Raise UnicodeEncodeError)%N.

Fixpoint encode_utf8 (s : list N) : result (list byte) :=
  match s with
  | [] => Ok []
  | c :: s' =>
      bs ← utf8_encode_cp c;
      rest ← encode_utf8 s';
      Ok (bs ++ rest)
  end.

(** Payload of a continuation byte [10xxxxxx]. *)
Definition continuation (b : byte) : option N :=
  let n := Byte.to_N b in
  if ((0x80 <=? n) && (n <? 0xC0))%N then Some (n - 0x80)%N else None.

Fixpoint decode_utf8 (bs : list byte) : result (list N) :=
  match bs with
  | [] => Ok []
  | b0 :: r0 =>
    let n0 := Byte.to_N b0 in
    if (n0 <? 0x80)%N then cons n0 <$> decode_utf8 r0 else
    match r0 with
    | [] => Raise UnicodeDecodeError
    | b1 :: r1 =>
      match continuation b1 with
      | None => Raise UnicodeDecodeError
      | Some c1 =>
        if ((0xC2 <=? n0) && (n0 <? 0xE0))%N then
          cons ((n0 - 0xC0) * 64 + c1)%N <$> decode_utf8 r1
        else
        match r1 with
        | [] => Raise UnicodeDecodeError
        | b2 :: r2 =>
          match continuation b2 with
          | None => Raise UnicodeDecodeError
          | Some c2 =>
            if ((0xE0 <=? n0) && (n0 <? 0xF0))%N then
              let cp := ((n0 - 0xE0) * 4096 + c1 * 64 + c2)%N in
              if ((0x800 <=? cp)%N && negb (is_surrogate cp))
              then cons cp <$> decode_utf8 r2
              else Raise UnicodeDecodeError
            else
            match r2 with
            | [] => Raise UnicodeDecodeError
            | b3 :: r3 =>
              match continuation b3 with
              | None => Raise UnicodeDecodeError
              | Some c3 =>
                if ((0xF0 <=? n0) && (n0 <? 0xF5))%N then
                  let cp :=
                    ((n0 - 0xF0) * 262144 + c1 * 4096 + c2 * 64 + c3)%N in
                  if ((0x10000 <=? cp) && (cp <? 0x110000))%N
                  then cons cp <$> decode_utf8 r3
                  else Raise UnicodeDecodeError
                else Raise UnicodeDecodeError
              end
            end
          end
        end
      end
    end
  end.

(** ** [str.rstrip(chars)]: drop every trailing character that is in [chars] *)

Fixpoint rstrip (chars s : list N) : list N :=
  match s with
  | [] => []
  | c :: s' =>
      match rstrip chars s' with
      | [] => if bool_decide (c ∈ chars) then [] else [c]
      | t => c :: t
      end
  end.

(** ** [base64.urlsafe_b64encode]

    [base64.b64encode] (RFC 4648 section 4, with [=] padding) followed by
    [bytes.translate] of [+] to [-] and [/] to [_]. *)

Definition b64_alphabet : list byte :=
  list_byte_of_string
    "ABCDEFGHIJKLMNOPQRSTUVWXYZabcdefghijklmnopqrstuvwxyz0123456789+/".

Definition b64_pad : byte := "="%byte.

Definition b64_char (i : N) : byte :=
  default b64_pad (b64_alphabet !! N.to_nat i).

Fixpoint b64encode (bs : list byte) : list byte :=
  match bs with
  | [] => []
  | [a] =>
      let x := Byte.to_N a in
      [b64_char (x / 4); b64_char ((x mod 4) * 16); b64_pad; b64_pad]%N
  | [a; b] =>
      let x := Byte.to_N a in
      let y := Byte.to_N b in
      [b64_char (x / 4); b64_char ((x mod 4) * 16 + y / 16);
       b64_char ((y mod 16) * 4); b64_pad]%N
  | a :: b :: c :: rest =>
      let x := Byte.to_N a in
      let y := Byte.to_N b in
      let z := Byte.to_N c in
      [b64_char (x / 4); b64_char ((x mod 4) * 16 + y / 16);
       b64_char ((y mod 16) * 4 + z / 64); b64_char (z mod 64)]%N
      ++ b64encode rest
  end.

Definition urlsafe_translate (b : byte) : byte :=
  if bool_decide (b = "+"%byte) then "-"%byte
  else if bool_decide (b = "/"%byte) then "_"%byte
  else b.

Definition urlsafe_b64encode (bs : list byte) : list byte :=
  urlsafe_translate <$> b64encode bs.

(** ** The URL-safe alphabet without padding, as the specification words it

    RFC 4648 section 5 with the padding of section 3.2 omitted, written
    independently of the library model above: each group of up to three
    bytes is read as one big-endian number, padded with zero bits to a
    multiple of six, and cut into 6-bit digits. The decoder is the inverse
    one would use on a presented secret; the script itself never decodes. *)

Definition b64url_alphabet : list N :=
  lit "ABCDEFGHIJKLMNOPQRSTUVWXYZabcdefghijklmnopqrstuvwxyz0123456789-_".

Definition b64url_char (i : N) : N :=
  default 61%N (b64url_alphabet !! N.to_nat i).

Definition sextet (n : N) (pos : N) : N := ((n / 2 ^ (6 * pos)) mod 64)%N.

Fixpoint b64url_nopad (bs : list byte) : list N :=
  match bs with
  | [] => []
  | [a] =>
      let n := (Byte.to_N a * 16)%N in
      b64url_char <$> [sextet n 1; sextet n 0]
  | [a; b] =>
      let n := ((Byte.to_N a * 256 + Byte.to_N b) * 4)%N in
      b64url_char <$> [sextet n 2; sextet n 1; sextet n 0]
  | a :: b :: c :: rest =>
      let n := (Byte.to_N a * 65536 + Byte.to_N b * 256 + Byte.to_N c)%N in
      (b64url_char <$> [sextet n 3; sextet n 2; sextet n 1; sextet n 0])
      ++ b64url_nopad rest
  end.

(** The [=] signs that pad the encoding of [n] bytes. *)
Definition padding (n : nat) : list N :=
  replicate ((3 - n `mod` 3) `mod` 3) 61%N.

Definition b64url_index (c : N) : option N :=
  (λ p, N.of_nat p.1) <$> list_find (λ a, a = c) b64url_alphabet.

Fixpoint b64url_decode (s : list N) : option (list byte) :=
  match s with
  | [] => Some []
  | [_] => None
  | [c0; c1] =>
      i0 ← b64url_index c0; i1 ← b64url_index c1;
      Some [byte_of_N (i0 * 4 + i1 / 16)]
  | [c0; c1; c2] =>
      i0 ← b64url_index c0; i1 ← b64url_index c1; i2 ← b64url_index c2;
      Some [byte_of_N (i0 * 4 + i1 / 16);
            byte_of_N ((i1 mod 16) * 16 + i2 / 4)]
  | c0 :: c1 :: c2 :: c3 :: rest =>
      i0 ← b64url_index c0; i1 ← b64url_index c1;
      i2 ← b64url_index c2; i3 ← b64url_index c3;
      bs ← b64url_decode rest;
      Some (byte_of_N (i0 * 4 + i1 / 16)
            :: byte_of_N ((i1 mod 16) * 16 + i2 / 4)
            :: byte_of_N ((i2 mod 4) * 64 + i3) :: bs)
  end%N.

(** ** [hashlib.sha256(data).digest()], after FIPS 180-4

    Words are 32-bit values held in [N]; every addition is reduced modulo
    [2^32]. *)

Module SHA256.

Definition mask32 : N := 0xFFFFFFFF.
Definition add32 (x y : N) : N := ((x + y) mod 2 ^ 32)%N.
Definition not32 (x : N) : N := N.lxor x mask32.
Definition rotr (n x : N) : N :=
  N.lor (N.shiftr x n) (N.land (N.shiftl x (32 - n)) mask32).

Definition Ch (x y z : N) : N :=
  N.lxor (N.land x y) (N.land (not32 x) z).
Definition Maj (x y z : N) : N :=
  N.lxor (N.lxor (N.land x y) (N.land x z)) (N.land y z).
Definition bsig0 (x : N) : N :=
  N.lxor (N.lxor (rotr 2 x) (rotr 13 x)) (rotr 22 x).
Definition bsig1 (x : N) : N :=
  N.lxor (N.lxor (rotr 6 x) (rotr 11 x)) (rotr 25 x).
Definition ssig0 (x : N) : N :=
  N.lxor (N.lxor (rotr 7 x) (rotr 18 x)) (N.shiftr x 3).
Definition ssig1 (x : N) : N :=
  N.lxor (N.lxor (rotr 17 x) (rotr 19 x)) (N.shiftr x 10).

(** Round constants, section 4.2.2. *)
Definition K : list N :=
  [ 0x428A2F98; 0x71374491; 0xB5C0FBCF; 0xE9B5DBA5;
    0x3956C25B; 0x59F111F1; 0x923F82A4; 0xAB1C5ED5;
    0xD807AA98; 0x12835B01; 0x243185BE; 0x550C7DC3;
    0x72BE5D74; 0x80DEB1FE; 0x9BDC06A7; 0xC19BF174;
    0xE49B69C1; 0xEFBE4786; 0x0FC19DC6; 0x240CA1CC;
    0x2DE92C6F; 0x4A7484AA; 0x5CB0A9DC; 0x76F988DA;
    0x983E5152; 0xA831C66D; 0xB00327C8; 0xBF597FC7;
    0xC6E00BF3; 0xD5A79147; 0x06CA6351; 0x14292967;
    0x27B70A85; 0x2E1B2138; 0x4D2C6DFC; 0x53380D13;
    0x650A7354; 0x766A0ABB; 0x81C2C92E; 0x92722C85;
    0xA2BFE8A1; 0xA81A664B; 0xC24B8B70; 0xC76C51A3;
    0xD192E819; 0xD6990624; 0xF40E3585; 0x106AA070;
    0x19A4C116; 0x1E376C08; 0x2748774C; 0x34B0BCB5;
    0x391C0CB3; 0x4ED8AA4A; 0x5B9CCA4F; 0x682E6FF3;
    0x748F82EE; 0x78A5636F; 0x84C87814; 0x8CC70208;
    0x90BEFFFA; 0xA4506CEB; 0xBEF9A3F7; 0xC67178F2 ]%N.

(** The eight working variables / hash words. *)
Record state := State {
  sa : N; sb : N; sc : N; sd : N; se : N; sf : N; sg : N; sh : N
}.

(** Initial hash value, section 5.3.3. *)
Definition H0 : state :=
  State 0x6A09E667 0xBB67AE85 0x3C6EF372 0xA54FF53A
        0x510E527F 0x9B05688C 0x1F83D9AB 0x5BE0CD19.

(** Section 5.1.1: append the bit 1, then zero bits up to 448 mod 512, then
    the message length in bits as a 64-bit big-endian integer. *)
Definition be_bytes (n : nat) (x : N) : list N :=
  (λ i, (x / 2 ^ (8 * N.of_nat (n - 1 - i))) mod 256)%N <$> seq 0 n.

Definition pad (msg : list N) : list N :=
  let len := length msg in
  let zeros := (119 - len `mod` 64) `mod` 64 in
  msg ++ [0x80%N] ++ replicate zeros 0%N
      ++ be_bytes 8 (8 * N.of_nat len).

Fixpoint be_words (bs : list N) : list N :=
  match bs with
  | b0 :: b1 :: b2 :: b3 :: rest =>
      (b0 * 2 ^ 24 + b1 * 2 ^ 16 + b2 * 2 ^ 8 + b3)%N :: be_words rest
  | _ => []
  end.

(** Message schedule, section 6.2.2 step 1. [w] holds the words computed
    so far, latest first, so that [W(t-2)] is at index 1, [W(t-7)] at 6,
    [W(t-15)] at 14 and [W(t-16)] at 15. *)
Fixpoint extend (n : nat) (w : list N) : list N :=
  match n with
  | O => w
  | S n' =>
      let at_ i := nth i w 0%N in
      extend n'
        (add32 (add32 (add32 (ssig1 (at_ 1)) (at_ 6)) (ssig0 (at_ 14)))
               (at_ 15) :: w)
  end.

Definition schedule (block : list N) : list N :=
  reverse (extend 48 (reverse block)).

(** One round, section 6.2.2 step 3. *)
Definition round (s : state) (kw : N * N) : state :=
  let '(k, w) := kw in
  let t1 :=
    add32 (add32 (add32 (add32 (sh s) (bsig1 (se s)))
                        (Ch (se s) (sf s) (sg s))) k) w in
  let t2 := add32 (bsig0 (sa s)) (Maj (sa s) (sb s) (sc s)) in
  State (add32 t1 t2) (sa s) (sb s) (sc s)
        (add32 (sd s) t1) (se s) (sf s) (sg s).

Definition compress (h : state) (block : list N) : state :=
  let s := foldl round h (zip K (schedule block)) in
  State (add32 (sa h) (sa s)) (add32 (sb h) (sb s))
        (add32 (sc h) (sc s)) (add32 (sd h) (sd s))
        (add32 (se h) (se s)) (add32 (sf h) (sf s))
        (add32 (sg h) (sg s)) (add32 (sh h) (sh s)).

(** Fold [compress] over the 16-word blocks. [fuel] bounds the number of
    blocks; [length ws] always suffices. *)
Fixpoint blocks (fuel : nat) (h : state) (ws : list N) : state :=
  match fuel, ws with
  | S fuel', _ :: _ => blocks fuel' (compress h (take 16 ws)) (drop 16 ws)
  | _, _ => h
  end.

Definition state_words (h : state) : list N :=
  [sa h; sb h; sc h; sd h; se h; sf h; sg h; sh h].

Definition digest (msg : list byte) : list byte :=
  let ws := be_words (pad (Byte.to_N <$> msg)) in
  byte_of_N <$> (state_words (blocks (length ws) H0 ws) ≫= be_bytes 4).

End SHA256.

Definition sha256 : list byte → list byte := SHA256.digest.

(** [bytes.hex()] *)
Definition hex_digit (n : N) : ascii :=
  default "?"%char (list_ascii_of_string "0123456789abcdef" !! N.to_nat n).

Definition hex (bs : list byte) : string :=
  string_of_list_ascii
    (bs ≫= λ b, [hex_digit (Byte.to_N b / 16); hex_digit (Byte.to_N b mod 16)]%N).

(** ** Integer formatting: ['%0<w>d' % n] and ['%0<w>x' % n] for [n >= 0] *)

Definition digit_char (d : N) : N :=
  (if d <? 10 then 48 + d else 87 + d)%N.

(** Digits of [n] in [base], most significant first. [fuel] bounds their
    number; [S (log2 n)] always suffices for a base of at least 2. *)
Fixpoint digits (base : N) (fuel : nat) (n : N) : list N :=
  match fuel with
  | O => []
  | S fuel' =>
      if (n <? base)%N then [digit_char n]
      else digits base fuel' (n / base) ++ [digit_char (n mod base)]
  end.

Definition zfill (base : N) (width : nat) (n : N) : list N :=
  let ds := digits base (S (N.to_nat (N.log2 n))) n in
  replicate (width - length ds) 48%N ++ ds.

(** ** [datetime.datetime] (naive), after CPython's [_pydatetime] *)

Record datetime := DateTime {
  year : Z; month : Z; day : Z;
  hour : Z; minute : Z; second : Z; microsecond : Z
}.

Module Calendar.
Local Open Scope Z_scope.

Definition MAXORDINAL : Z := 3652059.
Definition DI400Y : Z := 146097.
Definition DI100Y : Z := 36524.
Definition DI4Y : Z := 1461.

Definition DAYS_IN_MONTH : list Z :=
  [-1; 31; 28; 31; 30; 31; 30; 31; 31; 30; 31; 30; 31].
Definition DAYS_BEFORE_MONTH : list Z :=
  [-1; 0; 31; 59; 90; 120; 151; 181; 212; 243; 273; 304; 334].

Definition is_leap (y : Z) : bool :=
  (y mod 4 =? 0) && (negb (y mod 100 =? 0) || (y mod 400 =? 0)).

Definition days_before_year (y : Z) : Z :=
  let y' := y - 1 in y' * 365 + y' / 4 - y' / 100 + y' / 400.

Definition days_in_month (y m : Z) : Z :=
  if (m =? 2) && is_leap y then 29
  else nth (Z.to_nat m) DAYS_IN_MONTH 0.

Definition days_before_month (y m : Z) : Z :=
  nth (Z.to_nat m) DAYS_BEFORE_MONTH 0
  + (if (2 <? m) && is_leap y then 1 else 0).

Definition ymd2ord (y m d : Z) : Z :=
  days_before_year y + days_before_month y m + d.

Definition ord2ymd (n : Z) : Z * Z * Z :=
  let n := n - 1 in
  let n400 := n / DI400Y in
  let n := n mod DI400Y in
  let y := n400 * 400 + 1 in
  let n100 := n / DI100Y in
  let n := n mod DI100Y in
  let n4 := n / DI4Y in
  let n := n mod DI4Y in
  let n1 := n / 365 in
  let n := n mod 365 in
  let y := y + n100 * 100 + n4 * 4 + n1 in
  if (n1 =? 4) || (n100 =? 4) then (y - 1, 12, 31)
  else
    let leapyear := (n1 =? 3) && (negb (n4 =? 24) || (n100 =? 3)) in
    let m := Z.shiftr (n + 50) 5 in
    let preceding :=
      nth (Z.to_nat m) DAYS_BEFORE_MONTH 0
      + (if (2 <? m) && leapyear then 1 else 0) in
    if n <? preceding then
      let m := m - 1 in
      let preceding :=
        preceding - (nth (Z.to_nat m) DAYS_IN_MONTH 0
                     + (if (m =? 2) && leapyear then 1 else 0)) in
      (y, m, n - preceding + 1)
    else (y, m, n - preceding + 1).

(** The range checks of the [datetime] constructor. *)
Definition valid (d : datetime) : bool :=
  (1 <=? year d) && (year d <=? 9999) &&
  (1 <=? month d) && (month d <=? 12) &&
  (1 <=? day d) && (day d <=? days_in_month (year d) (month d)) &&
  (0 <=? hour d) && (hour d <? 24) &&
  (0 <=? minute d) && (minute d <? 60) &&
  (0 <=? second d) && (second d <? 60) &&
  (0 <=? microsecond d) && (microsecond d <? 1000000).

(** [d + timedelta(days=n)]: the date moves by [n] days on the proleptic
    Gregorian calendar, the time of day is kept; a result outside years
    1..9999 raises [OverflowError]. *)
Definition fits (d : datetime) (n : Z) : bool :=
  let o := ymd2ord (year d) (month d) (day d) + n in
  (0 <? o) && (o <=? MAXORDINAL).

Definition add_days (d : datetime) (n : Z) : result datetime :=
  let o := ymd2ord (year d) (month d) (day d) + n in
  if fits d n then
    let '(y, m, dd) := ord2ymd o in
    Ok (DateTime y m dd (hour d) (minute d) (second d) (microsecond d))
  else Raise OverflowError.

(** [d.isoformat()] for a naive datetime: [YYYY-MM-DDTHH:MM:SS], followed by
    [.ffffff] when the microsecond field is not zero. *)
Definition isoformat (d : datetime) : list N :=
  zfill 10 4 (Z.to_N (year d)) ++ lit "-" ++
  zfill 10 2 (Z.to_N (month d)) ++ lit "-" ++
  zfill 10 2 (Z.to_N (day d)) ++ lit "T" ++
  zfill 10 2 (Z.to_N (hour d)) ++ lit ":" ++
  zfill 10 2 (Z.to_N (minute d)) ++ lit ":" ++
  zfill 10 2 (Z.to_N (second d)) ++
  (if microsecond d =? 0 then []
   else lit "." ++ zfill 10 6 (Z.to_N (microsecond d))).

End Calendar.

(** ** The outside world of one run: entropy, clock and standard output *)

Record world := World {
  urandom : nat → byte;      (** the operating system's CSPRNG stream *)
  drawn : nat;               (** how many of its bytes were consumed *)
  clock : nat → datetime;    (** successive readings of the UTC clock *)
  ticks : nat;               (** how many readings were taken *)
  stdout : list N            (** text written so far *)
}.

Definition M (A : Type) : Type := world → result A * world.

#[global] Instance M_ret : MRet M := λ A a w, (Ok a, w).
#[global] Instance M_bind : MBind M := λ A B f m w,
  match m w with
  | (Ok a, w') => f a w'
  | (Raise e, w') => (Raise e, w')
  end.

(** Lift a pure computation that may raise. *)
Definition lift {A} (r : result A) : M A := λ w, (r, w).

#[global] Instance M_fmap : FMap M := λ A B f m, a ← m; mret (f a).

(** [os.urandom(n)], which backs both [secrets.token_bytes] and
    [uuid.uuid4]. *)
Definition os_urandom (n : nat) : M (list byte) := λ w,
  (Ok (urandom w <$> seq (drawn w) n),
   World (urandom w) (drawn w + n) (clock w) (ticks w) (stdout w)).

(** [secrets.token_bytes(n)] *)
Definition token_bytes (n : nat) : M (list byte) := os_urandom n.

(** [datetime.utcnow()] *)
Definition utcnow : M datetime := λ w,
  (Ok (clock w (ticks w)),
   World (urandom w) (drawn w) (clock w) (S (ticks w)) (stdout w)).

(** [print(s)]: the text and a newline. *)
Definition nl : N := 10%N.

Definition print (s : list N) : M () := λ w,
  (Ok (),
   World (urandom w) (drawn w) (clock w) (ticks w) (stdout w ++ s ++ [nl])).

(** ** [uuid.uuid4()] and [str(uuid)]

    [UUID(bytes=os.urandom(16), version=4)]: the 128-bit integer read
    big-endian, with the RFC 4122 variant and the version number forced. *)

Definition int_from_bytes (bs : list byte) : N :=
  foldl (λ acc b, acc * 256 + Byte.to_N b)%N 0%N bs.

Definition uuid_int (bs : list byte) : N :=
  let i := int_from_bytes bs in
  let i := N.ldiff i (N.shiftl 0xC000 48) in
  let i := N.lor i (N.shiftl 0x8000 48) in
  let i := N.ldiff i (N.shiftl 0xF000 64) in
  N.lor i (N.shiftl 4 76).

Definition uuid_str (i : N) : list N :=
  let h := zfill 16 32 i in
  take 8 h ++ lit "-" ++ take 4 (drop 8 h) ++ lit "-" ++
  take 4 (drop 12 h) ++ lit "-" ++ take 4 (drop 16 h) ++ lit "-" ++
  drop 20 h.

Definition uuid4 : M N :=
  bs ← os_urandom 16; mret (uuid_int bs).

(** ** f-strings

    An f-string is a sequence of literal characters and replacement fields.
    The fields of this script are named after the expression they hold. *)

Inductive var :=
  | Generated      (** [{datetime.utcnow().isoformat()}] *)
  | Secret         (** [{secret}] *)
  | OrgId          (** [{org_id}] *)
  | UserId         (** [{user_id}] *)
  | PasswordHash   (** [{password_hash}] *)
  | ApiKeyId       (** [{api_key_id}] *)
  | Fingerprint.   (** [{fingerprint}] *)

#[global] Instance var_eq_dec : EqDecision var.
Proof. solve_decision. Defined.

Inductive item :=
  | Ch (c : N)
  | Hole (x : var).

Definition text (s : string) : list item := Ch <$> lit s.
Definition hole (x : var) : list item := [Hole x].
Definition dq : list item := [Ch 34%N].

(** Lines joined by a newline, as they stand in a triple-quoted literal. *)
Fixpoint lines (ls : list (list item)) : list item :=
  match ls with
  | [] => []
  | [l] => l
  | l :: ls' => l ++ Ch nl :: lines ls'
  end.

(** Evaluation of an f-string once its fields have been evaluated. *)
Definition format (env : var → list N) (t : list item) : list N :=
  t ≫= λ i, match i with Ch c => [c] | Hole x => env x end.

(** ** The script [scripts/create-e2e-admin-key.py] *)

(** The f-string of lines 31-112. *)
Definition setup_template : list item := lines [
  [];
  text "-- ========================================";
  text "-- E2E Admin Setup for AI-AAS Dev Cluster";
  text "-- ========================================";
  text "-- Generated: " ++ hole Generated ++ text "Z";
  text "--";
  text "-- SAVE THIS INFORMATION SECURELY:";
  text "--";
  text "-- Organization: e2e-admin-org (slug)";
  text "-- Email: e2e-admin@ai-aas.dev";
  text "-- Password: e2e-admin-password";
  text "-- API Key Secret: " ++ hole Secret;
  text "--";
  text "-- ========================================";
  [];
  text "BEGIN;";
  [];
  text "-- Create E2E Admin Organization";
  text "INSERT INTO orgs (org_id, slug, name, status, declarative_mode, mfa_required_roles, metadata, created_at, updated_at)";
  text "VALUES (";
  text "    '" ++ hole OrgId ++ text "',";
  text "    'e2e-admin-org',";
  text "    'E2E Test Admin Organization',";
  text "    'active',";
  text "    'disabled',";
  text "    '[]'::jsonb,";
  text "    '{}'::jsonb,";
  text "    NOW(),";
  text "    NOW()";
  text ")";
  text "ON CONFLICT (slug) DO UPDATE";
  text "SET status = 'active';";
  [];
  text "-- Create E2E Admin User";
  text "INSERT INTO users (user_id, org_id, email, display_name, password_hash, status, mfa_enrolled, mfa_methods, recovery_tokens, metadata, created_at, updated_at)";
  text "VALUES (";
  text "    '" ++ hole UserId ++ text "',";
  text "    '" ++ hole OrgId ++ text "',";
  text "    'e2e-admin@ai-aas.dev',";
  text "    'E2E Admin User',";
  text "    '" ++ hole PasswordHash ++ text "',";
  text "    'active',";
  text "    false,";
  text "    '[]'::jsonb,";
  text "    '[]'::jsonb,";
  text "    '{}'::jsonb,";
  text "    NOW(),";
  text "    NOW()";
  text ")";
  text "ON CONFLICT (org_id, email) DO UPDATE";
  text "SET status = 'active', password_hash = '" ++ hole PasswordHash ++ text "';";
  [];
  text "-- Create E2E Admin API Key";
  text "INSERT INTO api_keys (api_key_id, org_id, principal_type, principal_id, fingerprint, status, scopes, issued_at, expires_at, annotations, created_at, updated_at)";
  text "VALUES (";
  text "    '" ++ hole ApiKeyId ++ text "',";
  text "    '" ++ hole OrgId ++ text "',";
  text "    'user',";
  text "    '" ++ hole UserId ++ text "',";
  text "    '" ++ hole Fingerprint ++ text "',";
  text "    'active',";
  text "    '[" ++ dq ++ text "*" ++ dq ++ text "]'::jsonb,";
  text "    NOW(),";
  text "    NOW() + INTERVAL '365 days',";
  text "    '{" ++ dq ++ text "purpose" ++ dq ++ text ": " ++ dq ++ text "e2e-tests" ++ dq ++ text ", " ++ dq ++ text "created_by" ++ dq ++ text ": " ++ dq ++ text "script" ++ dq ++ text "}'::jsonb,";
  text "    NOW(),";
  text "    NOW()";
  text ")";
  text "ON CONFLICT (org_id, fingerprint) DO UPDATE";
  text "SET status = 'active', expires_at = NOW() + INTERVAL '365 days';";
  [];
  text "COMMIT;";
  [];
  text "-- ========================================";
  text "-- Verification Queries";
  text "-- ========================================";
  text "-- Run these to verify the setup:";
  text "--";
  text "-- SELECT * FROM orgs WHERE slug = 'e2e-admin-org';";
  text "-- SELECT * FROM users WHERE email = 'e2e-admin@ai-aas.dev';";
  text "-- SELECT * FROM api_keys WHERE principal_id = '" ++ hole UserId ++ text "';";
  []
].

(** The module's global variables once the script has run. *)
Record globals := Globals {
  secret_bytes : list byte;
  secret : list N;
  fingerprint_hash : list byte;
  fingerprint : list N;
  org_id : list N;
  user_id : list N;
  api_key_id : list N;
  expires_at : datetime;
  password_hash : list N
}.

(** Lines 12-13: [secrets.token_bytes(32)], then
    [base64.urlsafe_b64encode(...).decode('utf-8').rstrip('=')]. *)
Definition encode_secret (secret_bytes : list byte) : result (list N) :=
  rstrip (lit "=") <$> decode_utf8 (urlsafe_b64encode secret_bytes).

Definition generate_secret : M (list byte * list N) :=
  secret_bytes ← token_bytes 32;
  secret ← lift (encode_secret secret_bytes);
  mret (secret_bytes, secret).

(** Lines 16-17: [hashlib.sha256(secret.encode('utf-8')).digest()], then the
    same text encoding as for the secret. *)
Definition fingerprint_digest (secret : list N) : result (list byte) :=
  sha256 <$> encode_utf8 secret.

Definition fingerprint_text (fingerprint_hash : list byte) : result (list N) :=
  rstrip (lit "=") <$> decode_utf8 (urlsafe_b64encode fingerprint_hash).

Definition fingerprint_of (secret : list N) : result (list N) :=
  fingerprint_digest secret ≫= fingerprint_text.

(** Line 29. *)
Definition password_hash_literal : list N :=
  lit "$2a$10$92IXUNpkjO0rOQ5byMi.Ye4oKoEa3Ro9llC/.og/at2.uheWG/igi".

(** The values of the replacement fields. *)
Definition fields (generated : list N) (g : globals) (x : var) : list N :=
  match x with
  | Generated => generated
  | Secret => secret g
  | OrgId => org_id g
  | UserId => user_id g
  | PasswordHash => password_hash g
  | ApiKeyId => api_key_id g
  | Fingerprint => fingerprint g
  end.

(** Lines 115-122, as one f-string per [print]. *)
Definition rule : list item := Ch <$> replicate 60 61%N.

Definition summary_templates : list (list item) := [
  Ch nl :: rule;
  text "E2E ADMIN API KEY (Save this securely!):";
  rule;
  text "API Key Secret: " ++ hole Secret;
  text "Org ID: " ++ hole OrgId;
  text "User ID: " ++ hole UserId;
  text "API Key ID: " ++ hole ApiKeyId;
  rule
].

(** The script, top to bottom. The value [expires_at] of line 25 is computed
    (and may raise) but no replacement field reads it: the expiry that reaches
    the database is the [NOW() + INTERVAL '365 days'] of the SQL text. *)
Definition script : M globals :=
  (* 12-13 *) '(secret_bytes, secret) ← generate_secret;
  (* 16 *)    fingerprint_hash ← lift (fingerprint_digest secret);
  (* 17 *)    fingerprint ← lift (fingerprint_text fingerprint_hash);
  (* 20 *)    org_id ← uuid_str <$> uuid4;
  (* 21 *)    user_id ← uuid_str <$> uuid4;
  (* 22 *)    api_key_id ← uuid_str <$> uuid4;
  (* 25 *)    now ← utcnow;
              expires_at ← lift (Calendar.add_days now 365);
  (* 29 *)    let password_hash := password_hash_literal in
  let g := Globals secret_bytes secret fingerprint_hash fingerprint
                   org_id user_id api_key_id expires_at password_hash in
  (* 35 *)    generated ← Calendar.isoformat <$> utcnow;
  (* 31-112 *) print (format (fields generated g) setup_template);;
  (* 115-122 *)
  mapM (λ t, print (format (fields generated g) t)) summary_templates;;
  mret g.

(** ** The SQL the script emits

    The three statements of the transaction, as syntax. String literals keep
    the replacement fields of the f-string they are written in. *)

Module SQL.

Inductive expr :=
  | EText (t : list item)        (** ['...'] *)
  | EJson (t : list item)        (** ['...'::jsonb] *)
  | EBool (b : bool)             (** [true], [false] *)
  | ENow                         (** [NOW()] *)
  | ENowPlusDays (n : N).        (** [NOW() + INTERVAL 'n days'] *)

(** [INSERT INTO into (columns) VALUES (row)
     ON CONFLICT (conflict) DO UPDATE SET updates], under a comment line. *)
Record insert := Insert {
  caption : string;
  into : string;
  columns : list string;
  row : list expr;
  conflict : list string;
  updates : list (string * expr)
}.

(** *** Concrete syntax *)

Fixpoint sep_by (sep : list item) (ls : list (list item)) : list item :=
  match ls with
  | [] => []
  | [l] => l
  | l :: ls' => l ++ sep ++ sep_by sep ls'
  end.

Definition render_expr (e : expr) : list item :=
  match e with
  | EText t => text "'" ++ t ++ text "'"
  | EJson t => text "'" ++ t ++ text "'::jsonb"
  | EBool b => text (if b then "true" else "false")
  | ENow => text "NOW()"
  | ENowPlusDays n =>
      text "NOW() + INTERVAL '" ++ (Ch <$> zfill 10 0 n) ++ text " days'"
  end.

Fixpoint render_row (es : list expr) : list (list item) :=
  match es with
  | [] => []
  | [e] => [text "    " ++ render_expr e]
  | e :: es' => (text "    " ++ render_expr e ++ text ",") :: render_row es'
  end.

Definition render_insert (i : insert) : list (list item) :=
  [ text "-- " ++ text (caption i);
    text "INSERT INTO " ++ text (into i) ++ text " ("
      ++ sep_by (text ", ") (text <$> columns i) ++ text ")";
    text "VALUES (" ]
  ++ render_row (row i) ++
  [ text ")";
    text "ON CONFLICT (" ++ sep_by (text ", ") (text <$> conflict i)
      ++ text ") DO UPDATE";
    text "SET "
      ++ sep_by (text ", ")
           ((λ ce, text ce.1 ++ text " = " ++ render_expr ce.2) <$> updates i)
      ++ text ";" ].

Definition render_transaction (stmts : list insert) : list (list item) :=
  [ text "BEGIN;"; [] ]
  ++ (stmts ≫= λ i, render_insert i ++ [ [] ])
  ++ [ text "COMMIT;" ].

(** *** Semantics

    What a PostgreSQL server does with these statements. A row maps column
    names to values (a missing column is NULL); a table is the list of its
    rows. Timestamps are microseconds on the UTC time line, and an interval
    of [n] days is [n] times 24 hours. Within one transaction [NOW()] is the
    transaction's start time.

    [INSERT ... ON CONFLICT (target) DO UPDATE SET ...] first looks for a
    stored row that collides with the proposed one on the unique constraint
    [target]; if there is one, that row is updated in place, otherwise the
    proposed row is inserted, provided that it breaks no other unique
    constraint and that its foreign keys are present. *)

Inductive value :=
  | VText (s : list N)
  | VJson (s : list N)
  | VBool (b : bool)
  | VTime (t : Z).

#[global] Instance value_eq_dec : EqDecision value.
Proof. solve_decision. Defined.

Definition days (n : N) : Z := (Z.of_N n * 86400000000)%Z.

Definition eval (env : var → list N) (now : Z) (e : expr) : value :=
  match e with
  | EText t => VText (format env t)
  | EJson t => VJson (format env t)
  | EBool b => VBool b
  | ENow => VTime now
  | ENowPlusDays n => VTime (now + days n)
  end.

(** The constraints of a table: its primary key and unique constraints, each
    a list of columns, and its foreign keys, each a column with the table
    and column it references. *)
Record constraints := Constraints {
  unique : list (list string);
  references : list (string * (string * string))
}.

Inductive error :=
  | UndefinedTable
  | SyntaxError
  | NoMatchingConstraint
  | UniqueViolation
  | ForeignKeyViolation.

(** Two rows collide on [cols] when both hold a value in every column of
    [cols] and the values are equal (a missing value is NULL, which never
    collides). *)
Definition agree (cols : list string) (r1 r2 : gmap string value) : bool :=
  forallb (λ c, match r1 !! c, r2 !! c with
                | Some a, Some b => bool_decide (a = b)
                | _, _ => false
                end) cols.

(** A foreign key holds for row [r]: the referenced table has a row with the
    value that [r] has in the referencing column, or that value is NULL. *)
Definition fk_holds (db : gmap string (list (gmap string value)))
    (r : gmap string value) (fk : string * (string * string)) : bool :=
  match r !! fk.1 with
  | None => true
  | Some v =>
      existsb (λ r', bool_decide (r' !! fk.2.2 = Some v))
              (default [] (db !! fk.2.1))
  end.

(** The column [c] is assigned by the statement's [SET] list. *)
Definition assigned (i : insert) (c : string) : bool :=
  bool_decide (c ∈ (updates i).*1).

(** The row that [VALUES (...)] proposes for insertion. *)
Definition new_row (env : var → list N) (now : Z) (i : insert)
  : gmap string value :=
  list_to_map (zip (columns i) (eval env now <$> row i)).

(** An existing row after [DO UPDATE SET ...]. *)
Definition updated (env : var → list N) (now : Z) (i : insert)
    (old : gmap string value) : gmap string value :=
  foldl (λ r ce, <[ce.1 := eval env now ce.2]> r) old (updates i).

Definition exec_insert (schema : gmap string constraints)
    (env : var → list N) (now : Z) (i : insert)
    (db : gmap string (list (gmap string value)))
  : error + gmap string (list (gmap string value)) :=
  match schema !! into i, db !! into i with
  | Some cs, Some rows =>
    if negb (length (columns i) =? length (row i)) then inl SyntaxError
    else if negb (bool_decide (conflict i ∈ unique cs))
    then inl NoMatchingConstraint
    else
      let new := new_row env now i in
      match list_find (λ r, agree (conflict i) r new = true) rows with
      | Some (k, old) =>
          (* DO UPDATE: only constraints over an assigned column can break *)
          let upd := updated env now i old in
          let others := take k rows ++ drop (S k) rows in
          if existsb (λ u, existsb (assigned i) u
                           && existsb (agree u upd) others) (unique cs)
          then inl UniqueViolation
          else if negb (forallb (λ fk, negb (assigned i fk.1)
                                       || fk_holds db upd fk) (references cs))
          then inl ForeignKeyViolation
          else inr (<[into i := <[k := upd]> rows]> db)
      | None =>
          if existsb (λ u, existsb (agree u new) rows) (unique cs)
          then inl UniqueViolation
          else if negb (forallb (fk_holds db new) (references cs))
          then inl ForeignKeyViolation
          else inr (<[into i := rows ++ [new]]> db)
      end
  | _, _ => inl UndefinedTable
  end.

(** [BEGIN; ...; COMMIT;]: the statements run in order against one [now];
    the first error aborts the transaction. *)
Fixpoint exec_transaction (schema : gmap string constraints)
    (env : var → list N) (now : Z) (stmts : list insert)
    (db : gmap string (list (gmap string value)))
  : error + gmap string (list (gmap string value)) :=
  match stmts with
  | [] => inr db
  | i :: stmts' =>
      match exec_insert schema env now i db with
      | inl e => inl e
      | inr db' => exec_transaction schema env now stmts' db'
      end
  end.

(** The database after the script's output was fed to the server: a failed
    transaction is rolled back. *)
Definition run_transaction (schema : gmap string constraints)
    (env : var → list N) (now : Z) (stmts : list insert)
    (db : gmap string (list (gmap string value)))
  : gmap string (list (gmap string value)) :=
  match exec_transaction schema env now stmts db with
  | inl _ => db
  | inr db' => db'
  end.

End SQL.

Import SQL.

(** Lines 48-62. *)
Definition orgs_insert : insert := {|
  caption := "Create E2E Admin Organization";
  into := "orgs";
  columns := ["org_id"; "slug"; "name"; "status"; "declarative_mode";
              "mfa_required_roles"; "metadata"; "created_at"; "updated_at"];
  row := [EText (hole OrgId);
          EText (text "e2e-admin-org");
          EText (text "E2E Test Admin Organization");
          EText (text "active");
          EText (text "disabled");
          EJson (text "[]");
          EJson (text "{}");
          ENow;
          ENow];
  conflict := ["slug"];
  updates := [("status", EText (text "active"))]
|}.

(** Lines 64-81. *)
Definition users_insert : insert := {|
  caption := "Create E2E Admin User";
  into := "users";
  columns := ["user_id"; "org_id"; "email"; "display_name"; "password_hash";
              "status"; "mfa_enrolled"; "mfa_methods"; "recovery_tokens";
              "metadata"; "created_at"; "updated_at"];
  row := [EText (hole UserId);
          EText (hole OrgId);
          EText (text "e2e-admin@ai-aas.dev");
          EText (text "E2E Admin User");
          EText (hole PasswordHash);
          EText (text "active");
          EBool false;
          EJson (text "[]");
          EJson (text "[]");
          EJson (text "{}");
          ENow;
          ENow];
  conflict := ["org_id"; "email"];
  updates := [("status", EText (text "active"));
              ("password_hash", EText (hole PasswordHash))]
|}.

(** Lines 83-100. *)
Definition api_keys_insert : insert := {|
  caption := "Create E2E Admin API Key";
  into := "api_keys";
  columns := ["api_key_id"; "org_id"; "principal_type"; "principal_id";
              "fingerprint"; "status"; "scopes"; "issued_at"; "expires_at";
              "annotations"; "created_at"; "updated_at"];
  row := [EText (hole ApiKeyId);
          EText (hole OrgId);
          EText (text "user");
          EText (hole UserId);
          EText (hole Fingerprint);
          EText (text "active");
          EJson (text "[" ++ dq ++ text "*" ++ dq ++ text "]");
          ENow;
          ENowPlusDays 365;
          EJson (text "{" ++ dq ++ text "purpose" ++ dq ++ text ": " ++ dq
                 ++ text "e2e-tests" ++ dq ++ text ", " ++ dq
                 ++ text "created_by" ++ dq ++ text ": " ++ dq ++ text "script"
                 ++ dq ++ text "}");
          ENow;
          ENow];
  conflict := ["org_id"; "fingerprint"];
  updates := [("status", EText (text "active"));
              ("expires_at", ENowPlusDays 365)]
|}.

Definition setup_statements : list insert :=
  [orgs_insert; users_insert; api_keys_insert].

(** Lines 31-45 and 103-112 of the f-string: the comment banner before the
    transaction, and the verification queries after it. *)
Definition banner : list (list item) := [
  [];
  text "-- ========================================";
  text "-- E2E Admin Setup for AI-AAS Dev Cluster";
  text "-- ========================================";
  text "-- Generated: " ++ hole Generated ++ text "Z";
  text "--";
  text "-- SAVE THIS INFORMATION SECURELY:";
  text "--";
  text "-- Organization: e2e-admin-org (slug)";
  text "-- Email: e2e-admin@ai-aas.dev";
  text "-- Password: e2e-admin-password";
  text "-- API Key Secret: " ++ hole Secret;
  text "--";
  text "-- ========================================";
  []
].

Definition verification_queries : list (list item) := [
  [];
  text "-- ========================================";
  text "-- Verification Queries";
  text "-- ========================================";
  text "-- Run these to verify the setup:";
  text "--";
  text "-- SELECT * FROM orgs WHERE slug = 'e2e-admin-org';";
  text "-- SELECT * FROM users WHERE email = 'e2e-admin@ai-aas.dev';";
  text "-- SELECT * FROM api_keys WHERE principal_id = '" ++ hole UserId ++ text "';";
  []
].

(** Modelled from the spec: the table constraints, which the script relies on
    (its [ON CONFLICT] targets) but which are declared by migrations that are
    not part of the sources at hand. Section 6 of the specification gives
    [orgs(org_id PK, slug UNIQUE)], [users(user_id PK, org_id FK,
    UNIQUE(org_id, email))] and [api_keys(api_key_id PK, org_id FK,
    UNIQUE(org_id, fingerprint))]. *)
Definition schema : gmap string constraints :=
  {[ "orgs" := Constraints [["org_id"]; ["slug"]] [];
     "users" := Constraints [["user_id"]; ["org_id"; "email"]]
                            [("org_id", ("orgs", "org_id"))];
     "api_keys" := Constraints [["api_key_id"]; ["org_id"; "fingerprint"]]
                               [("org_id", ("orgs", "org_id"))] ]}.

Definition show (s : list N) : string :=
  string_of_list_ascii (ascii_of_N <$> s).

(** ** The mock inference service [.dev/mock-inference/app.py] *)

(** [str.isspace] on one character: the Unicode white space that
    [str.split()] splits on. *)
Definition isspace (c : N) : bool :=
  ((0x09 <=? c) && (c <=? 0x0D) || (0x1C <=? c) && (c <=? 0x20)
   || (c =? 0x85) || (c =? 0xA0) || (c =? 0x1680)
   || (0x2000 <=? c) && (c <=? 0x200A)
   || (c =? 0x2028) || (c =? 0x2029) || (c =? 0x202F) || (c =? 0x205F)
   || (c =? 0x3000))%N.

(** [s.split()]: the maximal runs of characters that are not white space.
    [word] is the run being read. *)
Fixpoint split_from (word s : list N) : list (list N) :=
  match s with
  | [] => match word with [] => [] | _ => [word] end
  | c :: s' =>
      if isspace c then
        match word with
        | [] => split_from [] s'
        | _ => word :: split_from [] s'
        end
      else split_from (word ++ [c]) s'
  end.

Definition split (s : list N) : list (list N) := split_from [] s.

Module CompletionRequest.
Record t := Build {
  prompt : list N;
  max_tokens : Z;     (** default 100 *)
  model : list N      (** default ["gpt-4o"] *)
}.
End CompletionRequest.

Module CompletionResponse.
Record t := Build {
  text : list N;
  tokens_used : Z;
  model : list N
}.
End CompletionResponse.

(** [POST /v1/completions], lines 37-51. The handler's [asyncio.sleep(0.1)]
    only delays the answer. *)
Definition completions (req : CompletionRequest.t) : CompletionResponse.t :=
  let tokens :=
    (Z.of_nat (length (split (CompletionRequest.prompt req))) + 10)%Z in
  CompletionResponse.Build
    (CompletionRequest.prompt req ++ lit " [mock inference response]")
    (Z.min tokens (CompletionRequest.max_tokens req))
    (CompletionRequest.model req).

(** [CompletionRequest(prompt=..., max_tokens=..., model=...)], lines 23-27:
    a field that the request body leaves out takes the default of its class
    attribute. *)
Definition CompletionRequest_init (prompt : list N) (max_tokens : option Z)
    (model : option (list N)) : CompletionRequest.t :=
  CompletionRequest.Build prompt (default 100%Z max_tokens)
                          (default (lit "gpt-4o") model).

(** The number of words of a text, counted as the specification reads it:
    the positions at which a character that is not white space follows
    white space or starts the text. *)
Fixpoint word_starts (after_space : bool) (s : list N) : nat :=
  match s with
  | [] => 0
  | c :: s' =>
      (if after_space && negb (isspace c) then 1 else 0)
      + word_starts (isspace c) s'
  end.

Definition word_count (s : list N) : nat := word_starts true s.

(** ** What one run computes and prints, in closed form

    These definitions are used to state the theorems below. *)

(** Everything the script writes to standard output, as one f-string: the
    setup text and the eight summary lines, each ended by [print]'s newline. *)
Definition output_template : list item :=
  (setup_template ++ [Ch nl]) ++ (summary_templates ≫= λ t, t ++ [Ch nl]).

(** The bytes the [k]-th [os.urandom(n)] request returns when [off] bytes
    were drawn since the start of the run. *)
Definition entropy (w : world) (off n : nat) : list byte :=
  urandom w <$> seq (drawn w + off) n.

(** The world after [n] more bytes of entropy were drawn. *)
Definition drew (w : world) (n : nat) : world :=
  World (urandom w) (drawn w + n) (clock w) (ticks w) (stdout w).

Definition globals_of (w : world) (expires_at : datetime) : globals :=
  let secret_bytes := entropy w 0 32 in
  let secret := b64url_nopad secret_bytes in
  let fingerprint_hash := sha256 (byte_of_N <$> secret) in
  Globals secret_bytes secret fingerprint_hash
          (b64url_nopad fingerprint_hash)
          (uuid_str (uuid_int (entropy w 32 16)))
          (uuid_str (uuid_int (entropy w 48 16)))
          (uuid_str (uuid_int (entropy w 64 16)))
          expires_at password_hash_literal.

(** The number of positions of [txt] at which [pat] occurs. *)
Fixpoint occurrences (pat txt : list N) : nat :=
  (if bool_decide (pat `prefix_of` txt) then 1 else 0)
  + match txt with
    | [] => 0
    | _ :: txt' => occurrences pat txt'
    end.

(** *** Counting the secret in a formatted text

    A character of the URL-safe alphabet is a key character. A text is cut
    at every literal character that is not one; an occurrence of a secret,
    which is made of key characters only, lies within one segment. *)

#[global] Instance item_eq_dec : EqDecision item.
Proof. solve_decision. Defined.

Definition key_char (c : N) : bool := bool_decide (c ∈ b64url_alphabet).

Definition cons_head (i : item) (ss : list (list item)) : list (list item) :=
  match ss with
  | s :: ss' => (i :: s) :: ss'
  | [] => [[i]]
  end.

Fixpoint segments (t : list item) : list (list item) :=
  match t with
  | [] => [[]]
  | Ch c :: t' =>
      if key_char c then cons_head (Ch c) (segments t') else [] :: segments t'
  | Hole x :: t' => cons_head (Hole x) (segments t')
  end.

(** The greatest length a segment can format to, given a bound on the
    length of each field. *)
Fixpoint width (bound : var → nat) (s : list item) : nat :=
  match s with
  | [] => 0
  | Ch _ :: s' => S (width bound s')
  | Hole x :: s' => bound x + width bound s'
  end.

(** A segment is the secret field alone, or the fingerprint field alone, or
    is too narrow to hold a text of [n] characters. *)
Definition classify (n : nat) (bound : var → nat) (s : list item)
  : option (nat * nat) :=
  if decide (s = [Hole Secret]) then Some (1, 0)
  else if decide (s = [Hole Fingerprint]) then Some (0, 1)
  else if decide (width bound s < n) then Some (0, 0)
  else None.

Definition analyse (n : nat) (bound : var → nat) (t : list item)
  : option (nat * nat) :=
  foldr (λ s acc,
           ab ← classify n bound s; ab' ← acc;
           Some (ab.1 + ab'.1, ab.2 + ab'.2))
        (Some (0, 0)) (segments t).

(** A field replaced by its known value. *)
Definition inline (x : var) (v : list N) (t : list item) : list item :=
  t ≫= λ i, if decide (i = Hole x) then Ch <$> v else [i].

(** Lengths of the fields of the script's output. *)
Definition field_bound (x : var) : nat :=
  match x with
  | Generated => 26
  | Secret | Fingerprint => 43
  | OrgId | UserId | ApiKeyId => 36
  | PasswordHash => 60
  end.

(** The replacement fields that a text, an expression and a statement
    read. *)
Definition holes (t : list item) : list var :=
  t ≫= λ i, match i with Ch _ => [] | Hole x => [x] end.

Definition expr_holes (e : expr) : list var :=
  match e with
  | EText t | EJson t => holes t
  | EBool _ | ENow | ENowPlusDays _ => []
  end.

Definition insert_holes (i : insert) : list var :=
  (row i ≫= expr_holes) ++ (updates i ≫= λ ce, expr_holes ce.2).

(** A character that ends neither a quoted SQL literal nor a [--] comment:
    no quote, no backslash, no line break. *)
Definition plain (c : N) : bool :=
  negb (bool_decide (c ∈ [39; 92; 10; 13]%N)).

(** *** Stored tables *)

(** A unique constraint over [cols] holds in a table. *)
Definition unique_on (cols : list string) (rows : list (gmap string value))
  : Prop :=
  ∀ j1 j2 r1 r2,
    rows !! j1 = Some r1 → rows !! j2 = Some r2 →
    agree cols r1 r2 = true → j1 = j2.

(** A credential row stored for organization [org] under fingerprint [fp]. *)
Definition has_key (org fp : list N) (r : gmap string value) : Prop :=
  r !! "org_id" = Some (VText org) ∧ r !! "fingerprint" = Some (VText fp).

#[global] Instance has_key_dec org fp r : Decision (has_key org fp r).
Proof. unfold has_key. apply _. Defined.

(** An organization row stored under [slug]. *)
Definition has_slug (slug : list N) (r : gmap string value) : Prop :=
  r !! "slug" = Some (VText slug).

#[global] Instance has_slug_dec slug r : Decision (has_slug slug r).
Proof. unfold has_slug. apply _. Defined.

(** A user row stored for organization [org] under [email]. *)
Definition has_email (org email : list N) (r : gmap string value) : Prop :=
  r !! "org_id" = Some (VText org) ∧ r !! "email" = Some (VText email).

#[global] Instance has_email_dec org email r : Decision (has_email org email r).
Proof. unfold has_email. apply _. Defined.

(** ** Sample inputs, used to instantiate the theorems *)

(** A world: entropy bytes 3, 10, 17, ..., the clock at 2026-11-06 01:10,
    one second later at each reading. *)
Definition w0 : world :=
  World (λ i, byte_of_N (N.of_nat (7 * i + 3))) 0
        (λ i, DateTime 2026 11 6 1 10 (Z.of_nat i) 123456) 0 [].

(** A world that yields the same secret as [w0] but other identifiers, at
    another time. *)
Definition w1 : world :=
  World (λ i, byte_of_N (N.of_nat (if i <? 32 then 7 * i + 3 else 5 * i + 1)))
        0 (λ i, DateTime 2031 2 28 23 59 (Z.of_nat i) 0) 0 [].

(** [w0] with its clock in the last year of the calendar. *)
Definition w_last_year : world :=
  World (urandom w0) 0 (λ i, DateTime 9999 1 1 0 0 (Z.of_nat i) 0) 0 [].

(** [w0] with another first reading of the clock. *)
Definition w0_delayed : world :=
  World (urandom w0) 0
        (λ i, match i with
              | 0 => DateTime 2001 2 3 4 5 6 7
              | _ => clock w0 i
              end) 0 [].

Definition env0 : var → list N :=
  fields (Calendar.isoformat (clock w0 1)) (globals_of w0 (clock w0 0)).

(** The fields of [w0] with another secret and another timestamp. *)
Definition env0_disclosed : var → list N :=
  λ x, match x with
       | Secret => lit "another-secret"
       | Generated => lit "1970-01-01T00:00:00"
       | _ => env0 x
       end.

Definition env1 : var → list N :=
  fields (Calendar.isoformat (clock w1 1)) (globals_of w1 (clock w1 0)).

(** The three tables, empty. *)
Definition fresh_db : gmap string (list (gmap string value)) :=
  {[ "orgs" := []; "users" := []; "api_keys" := [] ]}.

(** The database once the organization and the user of [env0] are stored,
    in a transaction at time 1000. *)
Definition db0 : gmap string (list (gmap string value)) :=
  <["users" := [new_row env0 1000 users_insert]]>
    (<["orgs" := [new_row env0 1000 orgs_insert]]> fresh_db).

(** [db0] with the credential of [env0], issued in the same transaction. *)
Definition db0_issued : gmap string (list (gmap string value)) :=
  <["api_keys" := [new_row env0 1000 api_keys_insert]]> db0.

(** A database that holds another tenant, with one user and one credential. *)
Definition acme_org : gmap string value :=
  {[ "org_id" := VText (lit "0a0a0a0a-0000-4000-8000-000000000001");
     "slug" := VText (lit "acme");
     "status" := VText (lit "suspended") ]}.

Definition acme_user : gmap string value :=
  {[ "user_id" := VText (lit "0a0a0a0a-0000-4000-8000-000000000002");
     "org_id" := VText (lit "0a0a0a0a-0000-4000-8000-000000000001");
     "email" := VText (lit "e2e-admin@ai-aas.dev");
     "status" := VText (lit "active") ]}.

Definition acme_key : gmap string value :=
  {[ "api_key_id" := VText (lit "0a0a0a0a-0000-4000-8000-000000000003");
     "org_id" := VText (lit "0a0a0a0a-0000-4000-8000-000000000001");
     "fingerprint" := VText (lit "Ucth0C-OcYdc4s8JT_o3Lll7KsfpNlpYmwObmzH89UA");
     "status" := VText (lit "revoked") ]}.

Definition db_acme : gmap string (list (gmap string value)) :=
  {[ "orgs" := [acme_org]; "users" := [acme_user]; "api_keys" := [acme_key] ]}.

(** * Proofs *)

Lemma list_ind3 {A} (P : list A → Prop) :
  P [] → (∀ a, P [a]) → (∀ a b, P [a; b]) →
  (∀ a b c l, P l → P (a :: b :: c :: l)) → ∀ l, P l.
Proof.
  intros H0 H1 H2 H3.
  fix IH 1. intros [|a [|b [|c l]]];
    [apply H0 | apply H1 | apply H2 | apply H3, IH].
Qed.

Lemma below_forallb (n : nat) (f : N → bool) :
  forallb f (N.of_nat <$> seq 0 n) = true → ∀ i, (i < N.of_nat n)%N → f i = true.
Proof.
  intros H i Hi. rewrite forallb_forall in H. apply H.
  apply list_elem_of_In, list_elem_of_fmap. exists (N.to_nat i). split; [lia|].
  apply elem_of_seq. lia.
Qed.

(** Arithmetic on byte values: moved to [Z], where the quotients and
    remainders are eliminated. *)
Ltac byte_arith :=
  try apply N2Z.inj;
  repeat rewrite ?N2Z.inj_add, ?N2Z.inj_mul, ?N2Z.inj_div, ?N2Z.inj_mod;
  cbn [Z.of_N];
  repeat match goal with
  | H : (?x <= 255)%N |- _ =>
      apply N2Z.inj_le in H; cbn [Z.of_N] in H;
      pose proof (N2Z.is_nonneg x); generalize dependent (Z.of_N x); intros
  end;
  Z.div_mod_to_equations; lia.

Lemma sextets_of_3 (x y z : N) : (x <= 255 → y <= 255 → z <= 255 →
  let n := x * 65536 + y * 256 + z in
  sextet n 3 = x / 4 ∧ sextet n 2 = (x mod 4) * 16 + y / 16 ∧
  sextet n 1 = (y mod 16) * 4 + z / 64 ∧ sextet n 0 = z mod 64)%N.
Proof.
  intros Hx Hy Hz n. unfold sextet, n.
  change (2 ^ (6 * 3))%N with 262144%N. change (2 ^ (6 * 2))%N with 4096%N.
  change (2 ^ (6 * 1))%N with 64%N. change (2 ^ (6 * 0))%N with 1%N.
  repeat split; byte_arith.
Qed.

Lemma sextets_of_2 (x y : N) : (x <= 255 → y <= 255 →
  let n := (x * 256 + y) * 4 in
  sextet n 2 = x / 4 ∧ sextet n 1 = (x mod 4) * 16 + y / 16 ∧
  sextet n 0 = (y mod 16) * 4)%N.
Proof.
  intros Hx Hy n. unfold sextet, n.
  change (2 ^ (6 * 2))%N with 4096%N.
  change (2 ^ (6 * 1))%N with 64%N. change (2 ^ (6 * 0))%N with 1%N.
  repeat split; byte_arith.
Qed.

Lemma sextets_of_1 (x : N) : (x <= 255 →
  let n := x * 16 in
  sextet n 1 = x / 4 ∧ sextet n 0 = (x mod 4) * 16)%N.
Proof.
  intros Hx n. unfold sextet, n.
  change (2 ^ (6 * 1))%N with 64%N. change (2 ^ (6 * 0))%N with 1%N.
  repeat split; byte_arith.
Qed.

Lemma sextet_lt (n pos : N) : (sextet n pos < 64)%N.
Proof. unfold sextet. apply N.mod_lt. done. Qed.

(** Character tables *)
Lemma b64_char_url (i : N) :
  (i < 64)%N → Byte.to_N (urlsafe_translate (b64_char i)) = b64url_char i.
Proof.
  intros Hi.
  apply (below_forallb 64
           (λ i, bool_decide (Byte.to_N (urlsafe_translate (b64_char i))
                              = b64url_char i))) in Hi.
  - by apply bool_decide_eq_true in Hi.
  - vm_compute. reflexivity.
Qed.

Lemma b64url_char_props (i : N) :
  (i < 64)%N →
  b64url_char i ∈ b64url_alphabet ∧ b64url_char i ≠ 61%N ∧ (b64url_char i < 128)%N.
Proof.
  intros Hi.
  apply (below_forallb 64
           (λ i, bool_decide (b64url_char i ∈ b64url_alphabet)
                 && bool_decide (b64url_char i ≠ 61%N)
                 && bool_decide (b64url_char i < 128)%N)) in Hi.
  - apply andb_prop in Hi as [Hi H3]. apply andb_prop in Hi as [H1 H2].
    apply bool_decide_eq_true in H1, H2, H3. done.
  - vm_compute. reflexivity.
Qed.

Lemma byte_of_to_N (b : byte) : byte_of_N (Byte.to_N b) = b.
Proof.
  unfold byte_of_N. pose proof (Byte.to_N_bounded b).
  rewrite N.mod_small by lia. by rewrite Byte.of_to_N.
Qed.

Lemma byte_of_N_eq (n : N) (b : byte) : n = Byte.to_N b → byte_of_N n = b.
Proof. intros ->. apply byte_of_to_N. Qed.

Lemma b64url_index_char (i : N) :
  (i < 64)%N → b64url_index (b64url_char i) = Some i.
Proof.
  intros Hi.
  apply (below_forallb 64
           (λ i, bool_decide (b64url_index (b64url_char i) = Some i))) in Hi.
  - by apply bool_decide_eq_true in Hi.
  - vm_compute. reflexivity.
Qed.

(** *** [rstrip] *)

Lemma rstrip_all (chars s : list N) :
  Forall (λ c, c ∈ chars) s → rstrip chars s = [].
Proof.
  induction 1 as [|c s Hc _ IH]; [done|].
  simpl. rewrite IH. by rewrite bool_decide_true.
Qed.

Lemma rstrip_app (chars s t : list N) :
  Forall (λ c, c ∉ chars) s → Forall (λ c, c ∈ chars) t →
  rstrip chars (s ++ t) = s.
Proof.
  intros Hs Ht. induction Hs as [|c s Hc Hs IH]; simpl.
  - by apply rstrip_all.
  - rewrite IH. destruct s; [|done]. by rewrite bool_decide_false.
Qed.

(** *** Decoding ASCII bytes *)

Lemma decode_utf8_ascii (bs : list byte) :
  Forall (λ b, (Byte.to_N b < 128)%N) bs →
  decode_utf8 bs = Ok (Byte.to_N <$> bs).
Proof.
  induction 1 as [|b bs Hb _ IH]; [done|].
  cbn [decode_utf8]. apply N.ltb_lt in Hb. rewrite Hb, IH. done.
Qed.

Lemma encode_utf8_ascii (s : list N) :
  Forall (λ c, (c < 128)%N) s → encode_utf8 s = Ok (byte_of_N <$> s).
Proof.
  induction 1 as [|c s Hc _ IH]; [done|].
  cbn [encode_utf8]. unfold utf8_encode_cp. apply N.ltb_lt in Hc.
  rewrite Hc, IH. done.
Qed.

(** *** The padded encoding is the unpadded one followed by [=] signs *)

Lemma b64url_nopad_alphabet (bs : list byte) :
  Forall (λ c, c ∈ b64url_alphabet ∧ c ≠ 61%N ∧ (c < 128)%N) (b64url_nopad bs).
Proof.
  induction bs as [|a|a b|a b c l IH] using list_ind3;
    cbn [b64url_nopad fmap list_fmap app];
    repeat (apply List.Forall_cons; [apply b64url_char_props, sextet_lt|]);
    first [exact IH | apply Forall_nil_2].
Qed.

Lemma urlsafe_b64encode_nopad (bs : list byte) :
  Byte.to_N <$> urlsafe_b64encode bs = b64url_nopad bs ++ padding (length bs).
Proof.
  unfold urlsafe_b64encode.
  induction bs as [|a|a b|a b c l IH] using list_ind3.
  - done.
  - pose proof (Byte.to_N_bounded a) as Ha.
    destruct (sextets_of_1 _ Ha) as (E1 & E0).
    cbn [b64encode b64url_nopad fmap list_fmap app].
    rewrite E1, E0, <- !b64_char_url by (rewrite <- ?E1, <- ?E0; apply sextet_lt).
    done.
  - pose proof (Byte.to_N_bounded a) as Ha. pose proof (Byte.to_N_bounded b) as Hb.
    destruct (sextets_of_2 _ _ Ha Hb) as (E2 & E1 & E0).
    cbn [b64encode b64url_nopad fmap list_fmap app].
    rewrite E2, E1, E0, <- !b64_char_url
      by (rewrite <- ?E2, <- ?E1, <- ?E0; apply sextet_lt).
    done.
  - pose proof (Byte.to_N_bounded a) as Ha. pose proof (Byte.to_N_bounded b) as Hb.
    pose proof (Byte.to_N_bounded c) as Hc.
    destruct (sextets_of_3 _ _ _ Ha Hb Hc) as (E3 & E2 & E1 & E0).
    cbn [b64encode b64url_nopad fmap list_fmap app].
    rewrite E3, E2, E1, E0, <- !b64_char_url
      by (rewrite <- ?E3, <- ?E2, <- ?E1, <- ?E0; apply sextet_lt).
    do 4 f_equal. rewrite IH. f_equal. unfold padding. cbn [length].
    replace (S (S (S (length l))) `mod` 3) with (length l `mod` 3); [done|].
    change (S (S (S (length l)))) with (3 + length l).
    rewrite <- (Nat.Div0.add_mod_idemp_l 3). done.
Qed.

Lemma urlsafe_text_nopad (bs : list byte) :
  rstrip (lit "=") <$> decode_utf8 (urlsafe_b64encode bs)
  = Ok (b64url_nopad bs).
Proof.
  pose proof (urlsafe_b64encode_nopad bs) as E.
  pose proof (b64url_nopad_alphabet bs) as Ha.
  rewrite decode_utf8_ascii.
  - cbn [fmap result_fmap]. rewrite E. f_equal. apply rstrip_app.
    + eapply Forall_impl; [exact Ha|]. intros c (_ & Hc & _).
      change (lit "=") with [61%N].
      intros ->%list_elem_of_singleton. done.
    + unfold padding. apply Forall_replicate.
      change (lit "=") with [61%N]. by apply list_elem_of_singleton.
  - assert (Forall (λ c, (c < 128)%N) (Byte.to_N <$> urlsafe_b64encode bs)) as H.
    { rewrite E. apply Forall_app. split.
      - eapply Forall_impl; [exact Ha|]. by intros c (_ & _ & Hc).
      - unfold padding. apply Forall_replicate. done. }
    by apply Forall_fmap in H.
Qed.

Lemma b64url_nopad_length (bs : list byte) :
  length (b64url_nopad bs) = (4 * length bs + 2) `div` 3.
Proof.
  induction bs as [|a|a b|a b c l IH] using list_ind3; try done.
  cbn [b64url_nopad fmap list_fmap app length]. rewrite IH.
  replace (4 * S (S (S (length l))) + 2) with ((4 * length l + 2) + 4 * 3) by lia.
  rewrite Nat.div_add by done. lia.
Qed.

Lemma b64url_roundtrip (bs : list byte) :
  b64url_decode (b64url_nopad bs) = Some bs.
Proof.
  induction bs as [|a|a b|a b c l IH] using list_ind3.
  - done.
  - pose proof (Byte.to_N_bounded a) as Ha.
    destruct (sextets_of_1 _ Ha) as (E1 & E0).
    cbn [b64url_nopad fmap list_fmap app b64url_decode].
    rewrite !b64url_index_char by apply sextet_lt. cbn [mbind option_bind].
    rewrite E1, E0. by rewrite (byte_of_N_eq _ a) by byte_arith.
  - pose proof (Byte.to_N_bounded a) as Ha. pose proof (Byte.to_N_bounded b) as Hb.
    destruct (sextets_of_2 _ _ Ha Hb) as (E2 & E1 & E0).
    cbn [b64url_nopad fmap list_fmap app b64url_decode].
    rewrite !b64url_index_char by apply sextet_lt. cbn [mbind option_bind].
    rewrite E2, E1, E0.
    by rewrite (byte_of_N_eq _ a), (byte_of_N_eq _ b) by byte_arith.
  - pose proof (Byte.to_N_bounded a) as Ha. pose proof (Byte.to_N_bounded b) as Hb.
    pose proof (Byte.to_N_bounded c) as Hc.
    destruct (sextets_of_3 _ _ _ Ha Hb Hc) as (E3 & E2 & E1 & E0).
    cbn [b64url_nopad fmap list_fmap app b64url_decode].
    rewrite !b64url_index_char by apply sextet_lt. cbn [mbind option_bind].
    rewrite IH. cbn [mbind option_bind].
    rewrite E3, E2, E1, E0.
    by rewrite (byte_of_N_eq _ a), (byte_of_N_eq _ b), (byte_of_N_eq _ c)
      by byte_arith.
Qed.

(** ** The fingerprint and the secret *)

Lemma sha256_length (msg : list byte) : length (sha256 msg) = 32.
Proof. reflexivity. Qed.

Lemma encode_secret_nopad (bs : list byte) :
  encode_secret bs = Ok (b64url_nopad bs).
Proof. apply urlsafe_text_nopad. Qed.

Lemma fingerprint_text_nopad (h : list byte) :
  fingerprint_text h = Ok (b64url_nopad h).
Proof. apply urlsafe_text_nopad. Qed.

Lemma b64url_nopad_ascii (bs : list byte) :
  Forall (λ c, (c < 128)%N) (b64url_nopad bs).
Proof.
  eapply Forall_impl; [apply b64url_nopad_alphabet|]. by intros c (_ & _ & Hc).
Qed.

Lemma fingerprint_digest_nopad (bs : list byte) :
  fingerprint_digest (b64url_nopad bs)
  = Ok (sha256 (byte_of_N <$> b64url_nopad bs)).
Proof.
  unfold fingerprint_digest.
  by rewrite encode_utf8_ascii by apply b64url_nopad_ascii.
Qed.

Lemma b64url_nopad_32 (bs : list byte) :
  length bs = 32 → length (b64url_nopad bs) = 43.
Proof. intros H. by rewrite b64url_nopad_length, H. Qed.

Lemma b64url_nopad_inj (bs bs' : list byte) :
  b64url_nopad bs = b64url_nopad bs' → bs = bs'.
Proof.
  intros E. apply (f_equal b64url_decode) in E.
  rewrite !b64url_roundtrip in E. congruence.
Qed.

(** ** Widths of formatted numbers *)

Lemma digits_length (base : N) (fuel : nat) :
  (0 < base)%N →
  ∀ (k : nat) (n : N),
    1 ≤ k → (n < base ^ N.of_nat k)%N → length (digits base fuel n) ≤ k.
Proof.
  intros Hbase. induction fuel as [|fuel IH]; intros k n Hk Hn; simpl.
  - lia.
  - destruct (N.ltb_spec n base) as [Hlt|Hge]; simpl; [lia|].
    rewrite length_app. simpl.
    destruct k as [|[|k]]; [lia| |].
    + rewrite N.pow_1_r in Hn. lia.
    + specialize (IH (S k) (n / base)%N).
      assert (length (digits base fuel (n / base)) ≤ S k); [|lia].
      apply IH; [lia|].
      apply N.Div0.div_lt_upper_bound.
      replace (N.of_nat (S (S k))) with (N.succ (N.of_nat (S k))) in Hn by lia.
      by rewrite N.pow_succ_r' in Hn.
Qed.

Lemma zfill_length (base : N) (width : nat) (n : N) :
  (0 < base)%N → 1 ≤ width → (n < base ^ N.of_nat width)%N →
  length (zfill base width n) = width.
Proof.
  intros Hbase Hw Hn. unfold zfill.
  pose proof (digits_length base (S (N.to_nat (N.log2 n))) Hbase width n Hw Hn).
  rewrite length_app, length_replicate. lia.
Qed.

(** ** [str(uuid.uuid4())] has 36 characters *)

Lemma int_from_bytes_bound (bs : list byte) :
  (int_from_bytes bs < 256 ^ N.of_nat (length bs))%N.
Proof.
  unfold int_from_bytes.
  enough (∀ acc k, (acc < 256 ^ k)%N →
            (foldl (λ a b, a * 256 + Byte.to_N b) acc bs
             < 256 ^ (k + N.of_nat (length bs)))%N) as H.
  { apply (H 0%N 0%N). done. }
  induction bs as [|b bs IH]; intros acc k Hacc; simpl foldl.
  - by rewrite N.add_0_r.
  - replace (k + N.of_nat (length (b :: bs)))%N
      with (N.succ k + N.of_nat (length bs))%N by (simpl length; lia).
    apply IH. rewrite N.pow_succ_r'.
    pose proof (Byte.to_N_bounded b). lia.
Qed.

Lemma lor_below (a b n : N) :
  (a < 2 ^ n)%N → (b < 2 ^ n)%N → (N.lor a b < 2 ^ n)%N.
Proof.
  intros Ha Hb.
  destruct (N.eq_dec (N.lor a b) 0%N) as [->|Hne].
  { apply N.neq_0_lt_0, N.pow_nonzero. done. }
  destruct (N.eq_dec n 0%N) as [->|Hn].
  { simpl in Ha, Hb. assert (a = 0%N) as -> by lia. assert (b = 0%N) as -> by lia.
    done. }
  apply N.log2_lt_pow2; [lia|]. rewrite N.log2_lor.
  assert (∀ c, (c < 2 ^ n)%N → (N.log2 c < n)%N) as Hlog.
  { intros c Hc. destruct (N.eq_dec c 0%N) as [->|Hc0]; [simpl; lia|].
    apply N.log2_lt_pow2; lia. }
  apply Hlog in Ha, Hb. lia.
Qed.

Lemma uuid_int_bound (bs : list byte) :
  length bs = 16 → (uuid_int bs < 16 ^ 32)%N.
Proof.
  intros Hlen. pose proof (int_from_bytes_bound bs) as H. rewrite Hlen in H.
  change (16 ^ 32)%N with (2 ^ 128)%N.
  change (256 ^ N.of_nat 16)%N with (2 ^ 128)%N in H.
  unfold uuid_int.
  apply lor_below; [|done].
  eapply N.le_lt_trans; [apply N.ldiff_le_l|].
  apply lor_below; [|done].
  eapply N.le_lt_trans; [apply N.ldiff_le_l|]. done.
Qed.

Lemma uuid_str_length (i : N) : (i < 16 ^ 32)%N → length (uuid_str i) = 36.
Proof.
  intros Hi. unfold uuid_str.
  pose proof (zfill_length 16 32 i) as H.
  rewrite !length_app, !length_take, !length_drop, H by (done || lia).
  reflexivity.
Qed.

Lemma entropy_length (w : world) (off n : nat) : length (entropy w off n) = n.
Proof. unfold entropy. by rewrite length_fmap, length_seq. Qed.

(** ** [isoformat] of a valid datetime has at most 26 characters *)

Lemma isoformat_length (d : datetime) :
  Calendar.valid d = true → length (Calendar.isoformat d) ≤ 26.
Proof.
  unfold Calendar.valid. rewrite !andb_true_iff.
  rewrite !Z.leb_le, !Z.ltb_lt.
  intros (((((((((((((Hy1 & Hy2) & Hm1) & Hm2) & Hd1) & Hd2) & Hh1) & Hh2)
                  & Hmi1) & Hmi2) & Hs1) & Hs2) & Hu1) & Hu2).
  assert (Calendar.days_in_month (year d) (month d) ≤ 31)%Z as Hdim.
  { unfold Calendar.days_in_month.
    destruct (_ && _); [lia|].
    generalize (Z.to_nat (month d)). intros i.
    do 13 (destruct i as [|i]; [simpl; lia|]). destruct i; simpl; lia. }
  unfold Calendar.isoformat.
  rewrite !length_app.
  rewrite (zfill_length 10 4), !(zfill_length 10 2) by (simpl; lia).
  destruct (microsecond d =? 0)%Z; simpl length; [lia|].
  rewrite (zfill_length 10 6) by (simpl; lia). lia.
Qed.

(** ** Running the script *)

Lemma bind_ok {A B} (m : M A) (f : A → M B) (w w' : world) (a : A) :
  m w = (Ok a, w') → (m ≫= f) w = f a w'.
Proof. intros H. unfold mbind, M_bind. by rewrite H. Qed.

Lemma bind_raise {A B} (m : M A) (f : A → M B) (w w' : world) (e : exn) :
  m w = (Raise e, w') → (m ≫= f) w = (Raise e, w').
Proof. intros H. unfold mbind, M_bind. by rewrite H. Qed.

Lemma fmap_ok {A B} (m : M A) (f : A → B) (w w' : world) (a : A) :
  m w = (Ok a, w') → (f <$> m) w = (Ok (f a), w').
Proof. intros H. unfold fmap, M_fmap. by rewrite (bind_ok _ _ _ _ _ H). Qed.

Lemma generate_secret_run (w : world) :
  generate_secret w
  = (Ok (entropy w 0 32, b64url_nopad (entropy w 0 32)), drew w 32).
Proof.
  unfold generate_secret.
  erewrite bind_ok; last first.
  { unfold token_bytes, os_urandom. reflexivity. }
  erewrite bind_ok; last first.
  { unfold lift. rewrite encode_secret_nopad. reflexivity. }
  unfold entropy. rewrite Nat.add_0_r. reflexivity.
Qed.

Lemma uuid4_run (w : world) (off : nat) :
  (uuid_str <$> uuid4) (drew w off)
  = (Ok (uuid_str (uuid_int (entropy w off 16))), drew w (off + 16)).
Proof.
  apply fmap_ok. unfold uuid4.
  erewrite bind_ok; last first.
  { unfold os_urandom. reflexivity. }
  unfold mret, M_ret, drew, entropy. simpl. by rewrite Nat.add_assoc.
Qed.

Lemma format_app (env : var → list N) (t1 t2 : list item) :
  format env (t1 ++ t2) = format env t1 ++ format env t2.
Proof. unfold format. apply bind_app. Qed.

Lemma print_all_run (env : var → list N) (ts : list (list item)) (w : world) :
  ∃ us,
    mapM (λ t, print (format env t)) ts w
    = (Ok us,
       World (urandom w) (drawn w) (clock w) (ticks w)
             (stdout w ++ format env (ts ≫= λ t, t ++ [Ch nl]))).
Proof.
  revert w. induction ts as [|t ts IH]; intros w.
  - exists []. destruct w. simpl. by rewrite app_nil_r.
  - cbn [mapM].
    destruct (IH (World (urandom w) (drawn w) (clock w) (ticks w)
                        (stdout w ++ format env t ++ [nl]))) as [us Hus].
    exists (() :: us).
    erewrite bind_ok; [|reflexivity].
    erewrite bind_ok; [|exact Hus].
    cbn [mret M_ret urandom drawn clock ticks stdout].
    do 2 f_equal. cbn [mbind list_bind]. rewrite !format_app, <- !app_assoc.
    reflexivity.
Qed.

(** The script, run in any world: it raises [OverflowError] when the clock
    is within 365 days of the end of year 9999, before printing anything, and
    otherwise completes, having drawn 80 bytes of entropy, read the clock
    twice and written [output_template]. *)
Lemma script_run (w : world) :
  script w =
    match Calendar.add_days (clock w (ticks w)) 365 with
    | Ok e =>
        let g := globals_of w e in
        let generated := Calendar.isoformat (clock w (S (ticks w))) in
        (Ok g,
         World (urandom w) (drawn w + 80) (clock w) (S (S (ticks w)))
               (stdout w ++ format (fields generated g) output_template))
    | Raise ex =>
        (Raise ex,
         World (urandom w) (drawn w + 80) (clock w) (S (ticks w)) (stdout w))
    end.
Proof.
  unfold script.
  erewrite bind_ok; [|apply generate_secret_run]. cbv beta iota.
  erewrite bind_ok; last first.
  { unfold lift. rewrite fingerprint_digest_nopad. reflexivity. }
  cbv beta.
  erewrite bind_ok; last first.
  { unfold lift. rewrite fingerprint_text_nopad. reflexivity. }
  cbv beta.
  erewrite bind_ok; [|apply (uuid4_run w 32)]. cbv beta.
  erewrite bind_ok; [|apply (uuid4_run w 48)]. cbv beta.
  erewrite bind_ok; [|apply (uuid4_run w 64)]. cbv beta.
  erewrite bind_ok; [|reflexivity]. cbv beta.
  cbn [drew urandom drawn clock ticks stdout Nat.add].
  destruct (Calendar.add_days (clock w (ticks w)) 365) as [e|ex] eqn:Hadd.
  - erewrite bind_ok; [|reflexivity]. cbv beta zeta.
    erewrite bind_ok; last first.
    { apply fmap_ok. reflexivity. }
    cbv beta. erewrite bind_ok; [|reflexivity]. cbv beta.
    cbn [urandom drawn clock ticks stdout].
    change (Globals _ _ _ _ _ _ _ _ _) with (globals_of w e).
    match goal with |- (mapM _ ?ts ≫= _) ?w' = _ =>
      destruct (print_all_run
                  (fields (Calendar.isoformat (clock w (S (ticks w))))
                          (globals_of w e)) ts w') as [us Hus]
    end.
    erewrite bind_ok; [|exact Hus]. cbv beta.
    unfold mret, M_ret. cbn [urandom drawn clock ticks stdout].
    unfold output_template. rewrite !format_app, <- !app_assoc.
    reflexivity.
  - erewrite bind_raise; [|reflexivity]. reflexivity.
Qed.

Lemma fingerprint_of_nopad (bs : list byte) :
  fingerprint_of (b64url_nopad bs)
  = Ok (b64url_nopad (sha256 (byte_of_N <$> b64url_nopad bs))).
Proof.
  unfold fingerprint_of. rewrite fingerprint_digest_nopad.
  cbn [mbind result_bind]. apply fingerprint_text_nopad.
Qed.

Lemma run_ok_inv {A} (a b : A) (w w' : world) :
  (Ok a, w) = (Ok b, w') → a = b ∧ w = w'.
Proof.
  intros H. split.
  - exact (f_equal (λ p, match p.1 with Ok x => x | Raise _ => a end) H).
  - exact (f_equal snd H).
Qed.

Lemma run_raise_inv {A} (e : exn) (b : A) (w w' : world) :
  (Raise e, w) = (Ok b, w') → False.
Proof.
  intros H.
  exact (eq_ind (Raise e) (λ r, match r with Ok _ => False | Raise _ => True end)
                I (Ok b) (f_equal fst H)).
Qed.

(** What a completed run holds. *)
Lemma script_globals (w w' : world) (g : globals) :
  script w = (Ok g, w') →
  ∃ e, Calendar.add_days (clock w (ticks w)) 365 = Ok e
       ∧ g = globals_of w e
       ∧ w' = World (urandom w) (drawn w + 80) (clock w) (S (S (ticks w)))
                    (stdout w
                     ++ format (fields (Calendar.isoformat
                                          (clock w (S (ticks w)))) g)
                               output_template).
Proof.
  rewrite script_run.
  destruct (Calendar.add_days (clock w (ticks w)) 365) as [e|ex].
  - cbv zeta. intros [Hg Hw]%run_ok_inv. exists e.
    split; [reflexivity|]. split; [by symmetry|]. by rewrite <- Hg, <- Hw.
  - intros []%run_raise_inv.
Qed.

Lemma script_fingerprint (w w' : world) (g : globals) :
  script w = (Ok g, w') → fingerprint_of (secret g) = Ok (fingerprint g).
Proof.
  intros (e & _ & -> & _)%script_globals.
  cbn [secret fingerprint globals_of]. apply fingerprint_of_nopad.
Qed.

(** ** Occurrences of a key in a formatted text *)

Section occurrences.
Context (pat : list N).
Hypothesis pat_nonempty : pat ≠ [].

Lemma occurrences_nil : occurrences pat [] = 0.
Proof.
  simpl. rewrite bool_decide_false; [done|].
  intros [k Hk]. symmetry in Hk. apply app_eq_nil in Hk as [? _]. done.
Qed.

Lemma occurrences_short (txt : list N) :
  length txt < length pat → occurrences pat txt = 0.
Proof.
  induction txt as [|c txt IH]; intros Hlen.
  - apply occurrences_nil.
  - cbn [occurrences]. rewrite IH by (simpl in Hlen; lia).
    rewrite bool_decide_false; [done|].
    intros Hp%prefix_length. lia.
Qed.

Lemma occurrences_same_length (txt : list N) :
  length txt = length pat →
  occurrences pat txt = if bool_decide (txt = pat) then 1 else 0.
Proof.
  intros Hlen. destruct txt as [|c txt].
  { destruct pat; [done|discriminate]. }
  cbn [occurrences]. rewrite occurrences_short by (simpl in Hlen; lia).
  rewrite Nat.add_0_r.
  rewrite (bool_decide_ext (pat `prefix_of` c :: txt) (c :: txt = pat));
    [done|].
  split.
  - intros [k Hk]. assert (k = []) as ->.
    { apply (f_equal length) in Hk. rewrite length_app in Hk.
      destruct k; [done|simpl in *; lia]. }
    by rewrite app_nil_r in Hk.
  - intros ->. done.
Qed.

Lemma prefix_delimiter (a b : list N) (c : N) :
  c ∉ pat → pat `prefix_of` a ++ c :: b → pat `prefix_of` a.
Proof.
  intros Hc [k Hk].
  apply app_eq_inv in Hk as [(k' & Hk & _)|(k' & -> & Hk)].
  - by exists k'.
  - destruct k' as [|c' k'].
    + by rewrite app_nil_r.
    + injection Hk as <- _. exfalso. apply Hc.
      apply elem_of_app. right. left.
Qed.

Lemma occurrences_delimiter (a b : list N) (c : N) :
  c ∉ pat →
  occurrences pat (a ++ c :: b) = occurrences pat a + occurrences pat b.
Proof.
  intros Hc. induction a as [|x a IH].
  - rewrite occurrences_nil. cbn [app occurrences].
    rewrite bool_decide_false; [done|].
    intros Hp. apply (prefix_delimiter [] b c Hc) in Hp.
    destruct Hp as [k Hk]. symmetry in Hk. apply app_eq_nil in Hk as [? _].
    done.
  - cbn [app occurrences]. rewrite IH.
    rewrite (bool_decide_ext (pat `prefix_of` x :: a ++ c :: b)
                             (pat `prefix_of` x :: a)); [lia|].
    split.
    + apply (prefix_delimiter (x :: a) b c Hc).
    + intros Hp. etrans; [exact Hp|]. by apply (prefix_app_r _ (x :: a)).
Qed.

Hypothesis pat_key : Forall (λ c, key_char c = true) pat.

Variable env : var → list N.

(** Cutting a template at its delimiters does not lose an occurrence. *)
Lemma occurrences_segments (t : list item) (pre : list N) :
  ∃ s ss,
    segments t = s :: ss ∧
    occurrences pat (pre ++ format env t)
    = occurrences pat (pre ++ format env s)
      + sum_list ((λ s, occurrences pat (format env s)) <$> ss).
Proof.
  revert pre. induction t as [|[c|x] t IH]; intros pre.
  - exists [], []. split; [done|]. simpl. lia.
  - cbn [segments]. destruct (key_char c) eqn:Hkey.
    + destruct (IH (pre ++ [c])) as (s & ss & Hseg & Hocc).
      exists (Ch c :: s), ss. rewrite Hseg. split; [done|].
      change (format env (Ch c :: t)) with ([c] ++ format env t).
      change (format env (Ch c :: s)) with ([c] ++ format env s).
      rewrite !app_assoc. exact Hocc.
    + destruct (IH []) as (s & ss & Hseg & Hocc).
      eexists [], _. split; [done|].
      change (format env (Ch c :: t)) with (c :: format env t).
      rewrite occurrences_delimiter.
      * rewrite Hseg. cbn [fmap list_fmap sum_list].
        simpl in Hocc. rewrite Hocc. cbn [format mbind list_bind].
        by rewrite app_nil_r.
      * intros Hin. rewrite Forall_forall in pat_key.
        apply pat_key in Hin. congruence.
  - cbn [segments].
    destruct (IH (pre ++ env x)) as (s & ss & Hseg & Hocc).
    exists (Hole x :: s), ss. rewrite Hseg. split; [done|].
    change (format env (Hole x :: t)) with (env x ++ format env t).
    change (format env (Hole x :: s)) with (env x ++ format env s).
    rewrite !app_assoc. exact Hocc.
Qed.

Variable bound : var → nat.
Hypothesis env_bound : ∀ x, length (env x) ≤ bound x.
Hypothesis env_secret : env Secret = pat.
Hypothesis env_fingerprint : length (env Fingerprint) = length pat.

Lemma format_width (s : list item) : length (format env s) ≤ width bound s.
Proof.
  induction s as [|[c|x] s IH]; [done| |].
  - change (format env (Ch c :: s)) with (c :: format env s).
    cbn [width length]. lia.
  - change (format env (Hole x :: s)) with (env x ++ format env s).
    rewrite length_app. cbn [width]. specialize (env_bound x). lia.
Qed.

Lemma classify_sound (s : list item) (a b : nat) :
  classify (length pat) bound s = Some (a, b) →
  occurrences pat (format env s)
  = a + (if bool_decide (env Fingerprint = pat) then b else 0).
Proof.
  unfold classify.
  destruct (decide (s = [Hole Secret])) as [->|_]; [intros [= <- <-]|].
  2: destruct (decide (s = [Hole Fingerprint])) as [->|_]; [intros [= <- <-]|].
  3: destruct (decide (width bound s < length pat)) as [Hw|_];
       [intros [= <- <-]|done].
  - change (format env [Hole Secret]) with (env Secret ++ []).
    rewrite app_nil_r, env_secret, occurrences_same_length by done.
    rewrite bool_decide_true by done. by destruct (bool_decide _).
  - change (format env [Hole Fingerprint]) with (env Fingerprint ++ []).
    rewrite app_nil_r, occurrences_same_length by done. done.
  - rewrite occurrences_short.
    + by destruct (bool_decide _).
    + pose proof (format_width s). lia.
Qed.

Lemma analyse_sound (t : list item) (a b : nat) :
  analyse (length pat) bound t = Some (a, b) →
  occurrences pat (format env t)
  = a + (if bool_decide (env Fingerprint = pat) then b else 0).
Proof.
  unfold analyse.
  destruct (occurrences_segments t []) as (s & ss & -> & Hocc).
  cbn [app] in Hocc. rewrite Hocc. clear Hocc. cbn [foldr].
  destruct (classify (length pat) bound s) as [[a1 b1]|] eqn:Hs; [|done].
  apply classify_sound in Hs. rewrite Hs. clear Hs s.
  cbn [mbind option_bind].
  enough (∀ a2 b2,
            foldr (λ s acc,
                     ab ← classify (length pat) bound s; ab' ← acc;
                     Some (ab.1 + ab'.1, ab.2 + ab'.2))
                  (Some (0, 0)) ss = Some (a2, b2) →
            sum_list ((λ s, occurrences pat (format env s)) <$> ss)
            = a2 + (if bool_decide (env Fingerprint = pat) then b2 else 0))
    as Hss.
  { destruct (foldr _ _ ss) as [[a2 b2]|]; [|done].
    cbn [mbind option_bind fst snd]. intros [= <- <-].
    rewrite (Hss a2 b2 eq_refl). destruct (bool_decide _); lia. }
  clear a b. induction ss as [|s ss IH]; intros a2 b2.
  - intros [= <- <-]. by destruct (bool_decide _).
  - cbn [foldr fmap list_fmap sum_list].
    destruct (classify (length pat) bound s) as [[a1' b1']|] eqn:Hs; [|done].
    apply classify_sound in Hs.
    destruct (foldr _ _ ss) as [[a3 b3]|]; [|done].
    cbn [mbind option_bind fst snd]. intros [= <- <-].
    rewrite Hs, (IH a3 b3 eq_refl). unfold id.
    destruct (bool_decide _); lia.
Qed.

End occurrences.

Lemma format_inline (env : var → list N) (x : var) (t : list item) :
  format env (inline x (env x) t) = format env t.
Proof.
  unfold inline. induction t as [|i t IH]; [done|].
  cbn [mbind list_bind]. rewrite format_app, IH.
  change (i :: t) with ([i] ++ t). rewrite (format_app _ [i]).
  f_equal. case_decide as Hi; [|done].
  subst i. cbn [format mbind list_bind]. rewrite app_nil_r.
  generalize (env x). intros v. unfold format.
  induction v as [|c v IHv]; [done|].
  cbn [fmap list_fmap mbind list_bind app]. by rewrite IHv.
Qed.

Lemma output_analysis :
  analyse 43 field_bound (inline PasswordHash password_hash_literal output_template)
  = Some (2, 1).
Proof. vm_compute. reflexivity. Qed.

(** ** The upsert statements *)

Lemma format_hole (env : var → list N) (x : var) : format env (hole x) = env x.
Proof. apply app_nil_r. Qed.

Lemma existsb_none {A} (f : A → bool) (l : list A) :
  (∀ x, x ∈ l → f x = false) → existsb f l = false.
Proof.
  induction l as [|x l IH]; intros H; [done|].
  cbn [existsb]. rewrite (H x) by left. apply IH. intros y Hy. apply H. by right.
Qed.

Lemma forallb_all {A} (f : A → bool) (l : list A) :
  (∀ x, x ∈ l → f x = true) → forallb f l = true.
Proof.
  induction l as [|x l IH]; intros H; [done|].
  cbn [forallb]. rewrite (H x) by left. apply IH. intros y Hy. apply H. by right.
Qed.

Lemma forallb_elem {A} (f : A → bool) (l : list A) (x : A) :
  forallb f l = true → x ∈ l → f x = true.
Proof.
  intros H Hx. rewrite forallb_forall in H. apply H. by apply list_elem_of_In.
Qed.

Lemma agree_ext_l (cols : list string) (r1 r1' r2 : gmap string value) :
  (∀ c, c ∈ cols → r1 !! c = r1' !! c) → agree cols r1 r2 = agree cols r1' r2.
Proof.
  intros H. unfold agree. induction cols as [|c cols IH]; [done|].
  cbn [forallb]. rewrite (H c) by left.
  rewrite IH; [done|]. intros c' Hc'. apply H. by right.
Qed.

Lemma agree_ext_r (cols : list string) (r1 r2 r2' : gmap string value) :
  (∀ c, c ∈ cols → r2 !! c = r2' !! c) → agree cols r1 r2 = agree cols r1 r2'.
Proof.
  intros H. unfold agree. induction cols as [|c cols IH]; [done|].
  cbn [forallb]. rewrite (H c) by left.
  rewrite IH; [done|]. intros c' Hc'. apply H. by right.
Qed.

Lemma updated_lookup (env : var → list N) (now : Z) (i : insert)
    (old : gmap string value) (c : string) :
  assigned i c = false → updated env now i old !! c = old !! c.
Proof.
  unfold assigned, updated. rewrite bool_decide_eq_false.
  generalize (updates i). intros us. revert old.
  induction us as [|[c' e] us IH]; intros old Hc; [done|].
  cbn [foldl fst snd]. rewrite IH.
  - apply lookup_insert_ne. intros ->. apply Hc. left.
  - intros Hin. apply Hc. by right.
Qed.

Section exec_insert.
Context (env : var → list N) (now : Z) (i : insert) (cs : constraints).
Context (db : gmap string (list (gmap string value))).
Context (rows : list (gmap string value)).
Hypothesis table_schema : schema !! into i = Some cs.
Hypothesis table_rows : db !! into i = Some rows.
Hypothesis well_formed : length (columns i) = length (row i).
Hypothesis arbiter : conflict i ∈ unique cs.

Lemma exec_insert_unfold :
  exec_insert schema env now i db =
    let new := new_row env now i in
    match list_find (λ r, agree (conflict i) r new = true) rows with
    | Some (k, old) =>
        let upd := updated env now i old in
        let others := take k rows ++ drop (S k) rows in
        if existsb (λ u, existsb (assigned i) u
                         && existsb (agree u upd) others) (unique cs)
        then inl UniqueViolation
        else if negb (forallb (λ fk, negb (assigned i fk.1)
                                     || fk_holds db upd fk) (references cs))
        then inl ForeignKeyViolation
        else inr (<[into i := <[k := upd]> rows]> db)
    | None =>
        if existsb (λ u, existsb (agree u new) rows) (unique cs)
        then inl UniqueViolation
        else if negb (forallb (fk_holds db new) (references cs))
        then inl ForeignKeyViolation
        else inr (<[into i := rows ++ [new]]> db)
    end.
Proof.
  unfold exec_insert. rewrite table_schema, table_rows.
  rewrite well_formed, Nat.eqb_refl. cbn [negb].
  by rewrite bool_decide_true by exact arbiter.
Qed.

(** The statement assigns no column of a key or of a foreign key. *)
Hypothesis keys_kept :
  forallb (λ u, negb (existsb (assigned i) u)) (unique cs) = true.
Hypothesis references_kept :
  forallb (λ fk, negb (assigned i fk.1)) (references cs) = true.

Lemma exec_insert_conflict (k : nat) (old : gmap string value) :
  list_find (λ r, agree (conflict i) r (new_row env now i) = true) rows
    = Some (k, old) →
  exec_insert schema env now i db
  = inr (<[into i := <[k := updated env now i old]> rows]> db).
Proof.
  intros Hfind. rewrite exec_insert_unfold. cbv zeta. rewrite Hfind.
  rewrite existsb_none; last first.
  { intros u Hu. apply (forallb_elem _ _ _ keys_kept) in Hu.
    apply negb_true_iff in Hu. by rewrite Hu. }
  rewrite forallb_all; [done|].
  intros fk Hfk. by rewrite (forallb_elem _ _ _ references_kept Hfk).
Qed.

Lemma exec_insert_fresh (db' : gmap string (list (gmap string value))) :
  list_find (λ r, agree (conflict i) r (new_row env now i) = true) rows
    = None →
  exec_insert schema env now i db = inr db' →
  db' = <[into i := rows ++ [new_row env now i]]> db.
Proof.
  intros Hfind. rewrite exec_insert_unfold. cbv zeta. rewrite Hfind.
  destruct (existsb _ _); [done|]. destruct (negb _); [done|].
  by intros [= <-].
Qed.

End exec_insert.

Lemma agree_sym (cols : list string) (r1 r2 : gmap string value) :
  agree cols r1 r2 = agree cols r2 r1.
Proof.
  unfold agree. induction cols as [|c cols IH]; [done|].
  cbn [forallb]. rewrite IH. f_equal.
  destruct (r1 !! c), (r2 !! c); try done.
  apply bool_decide_ext. split; congruence.
Qed.

Lemma agree_trans (cols : list string) (r1 r2 r3 : gmap string value) :
  agree cols r1 r2 = true → agree cols r2 r3 = true → agree cols r1 r3 = true.
Proof.
  unfold agree. induction cols as [|c cols IH]; [done|].
  cbn [forallb]. rewrite !andb_true_iff. intros [H12 H12'] [H23 H23'].
  split; [|by apply IH].
  destruct (r1 !! c), (r2 !! c), (r3 !! c); try done.
  apply bool_decide_eq_true in H12, H23. apply bool_decide_eq_true. congruence.
Qed.

Lemma filter_none {A} (P : A → Prop) `{!∀ x, Decision (P x)} (l : list A) :
  (∀ y, y ∈ l → ¬ P y) → filter P l = [].
Proof.
  induction l as [|y l IH]; intros Hl; [done|].
  rewrite filter_cons_False by (apply Hl; left).
  apply IH. intros z Hz. apply Hl. by right.
Qed.

(** A list in which exactly the element at [k] satisfies [P]. *)
Lemma filter_single {A} (P : A → Prop) `{!∀ x, Decision (P x)}
    (l : list A) (k : nat) (x : A) :
  l !! k = Some x → P x →
  (∀ j y, l !! j = Some y → P y → j = k) →
  filter P l = [x].
Proof.
  intros Hk Hx Huniq.
  rewrite <- (take_drop_middle l k x Hk), filter_app, filter_cons_True by done.
  rewrite !filter_none; [done| |].
  - intros y Hy HP. apply list_elem_of_lookup in Hy as [j Hj].
    rewrite lookup_drop in Hj. apply (Huniq _ y Hj) in HP. lia.
  - intros y Hy HP. apply elem_of_take in Hy as (j & Hj & Hlt).
    apply (Huniq j y Hj) in HP. lia.
Qed.

(** *** The three statements of the script *)

Lemma schema_orgs :
  schema !! "orgs" = Some (Constraints [["org_id"]; ["slug"]] []).
Proof. reflexivity. Qed.

Lemma schema_api_keys :
  schema !! "api_keys"
  = Some (Constraints [["api_key_id"]; ["org_id"; "fingerprint"]]
                      [("org_id", ("orgs", "org_id"))]).
Proof. reflexivity. Qed.

Lemma api_keys_agree (env : var → list N) (now : Z) (r : gmap string value) :
  agree ["org_id"; "fingerprint"] r (new_row env now api_keys_insert) = true
  ↔ has_key (env OrgId) (env Fingerprint) r.
Proof.
  unfold agree, has_key. cbn [forallb].
  change (new_row env now api_keys_insert !! "org_id")
    with (Some (VText (format env (hole OrgId)))).
  change (new_row env now api_keys_insert !! "fingerprint")
    with (Some (VText (format env (hole Fingerprint)))).
  rewrite !format_hole, !andb_true_iff.
  destruct (r !! "org_id") as [v1|], (r !! "fingerprint") as [v2|];
    rewrite ?bool_decide_eq_true; intuition congruence.
Qed.

Lemma orgs_agree (env : var → list N) (now : Z) (r : gmap string value) :
  agree ["slug"] r (new_row env now orgs_insert) = true
  ↔ has_slug (lit "e2e-admin-org") r.
Proof.
  unfold agree, has_slug. cbn [forallb].
  change (new_row env now orgs_insert !! "slug")
    with (Some (VText (lit "e2e-admin-org"))).
  rewrite andb_true_r.
  destruct (r !! "slug") as [v|]; rewrite ?bool_decide_eq_true;
    intuition congruence.
Qed.

Lemma api_keys_updated (env : var → list N) (now : Z) (r : gmap string value) :
  updated env now api_keys_insert r
  = <["expires_at" := VTime (now + days 365)]>
      (<["status" := VText (lit "active")]> r).
Proof. reflexivity. Qed.

Lemma orgs_updated (env : var → list N) (now : Z) (r : gmap string value) :
  updated env now orgs_insert r = <["status" := VText (lit "active")]> r.
Proof. reflexivity. Qed.

Lemma has_key_updated (env : var → list N) (now : Z) (org fp : list N)
    (r : gmap string value) :
  has_key org fp (updated env now api_keys_insert r) ↔ has_key org fp r.
Proof.
  unfold has_key. by rewrite !updated_lookup by reflexivity.
Qed.

Lemma has_key_agree (org fp : list N) (r1 r2 : gmap string value) :
  has_key org fp r1 → has_key org fp r2 →
  agree ["org_id"; "fingerprint"] r1 r2 = true.
Proof.
  intros [H1 H1'] [H2 H2']. unfold agree. cbn [forallb].
  rewrite H1, H1', H2, H2', !bool_decide_true; done.
Qed.

(** After one credential upsert, exactly one stored row carries the key. *)
Lemma api_keys_upsert_once (env : var → list N) (now : Z)
    (db db1 : gmap string (list (gmap string value)))
    (rows : list (gmap string value)) :
  db !! "api_keys" = Some rows →
  unique_on ["org_id"; "fingerprint"] rows →
  exec_insert schema env now api_keys_insert db = inr db1 →
  ∃ rows1 k r1,
    db1 = <["api_keys" := rows1]> db ∧
    length rows1 = length rows + (if decide (k = length rows) then 1 else 0) ∧
    rows1 !! k = Some r1 ∧
    has_key (env OrgId) (env Fingerprint) r1 ∧
    (∀ j r, rows1 !! j = Some r →
            has_key (env OrgId) (env Fingerprint) r → j = k).
Proof.
  intros Hrows Huniq Hexec.
  assert (Harb : conflict api_keys_insert
                 ∈ [["api_key_id"]; ["org_id"; "fingerprint"]])
    by (right; left).
  destruct (list_find
              (λ r, agree ["org_id"; "fingerprint"] r
                      (new_row env now api_keys_insert) = true) rows)
    as [[k old]|] eqn:Hfind.
  - rewrite (exec_insert_conflict env now api_keys_insert _ db rows
               schema_api_keys Hrows eq_refl Harb eq_refl eq_refl k old Hfind)
      in Hexec.
    injection Hexec as <-.
    apply list_find_Some in Hfind as (Hk & Hold & _).
    apply api_keys_agree in Hold.
    pose proof (lookup_lt_Some _ _ _ Hk) as Hlt.
    exists (<[k := updated env now api_keys_insert old]> rows), k,
           (updated env now api_keys_insert old).
    split; [done|]. split.
    { rewrite length_insert. case_decide; lia. }
    split; [by apply list_lookup_insert_eq|].
    split; [by apply has_key_updated|].
    intros j r Hj Hr. destruct (decide (j = k)) as [|Hne]; [done|].
    rewrite list_lookup_insert_ne in Hj by done.
    apply (Huniq j k r old Hj Hk). by apply (has_key_agree _ _ _ _ Hr Hold).
  - apply (exec_insert_fresh env now api_keys_insert _ db rows
             schema_api_keys Hrows eq_refl Harb db1 Hfind) in Hexec.
    subst db1.
    exists (rows ++ [new_row env now api_keys_insert]), (length rows),
           (new_row env now api_keys_insert).
    split; [done|]. split.
    { rewrite length_app. simpl. case_decide; lia. }
    split; [by apply list_lookup_middle|].
    split.
    { apply (api_keys_agree env now).
      unfold agree. cbn [forallb].
      change (new_row env now api_keys_insert !! "org_id")
        with (Some (VText (format env (hole OrgId)))).
      change (new_row env now api_keys_insert !! "fingerprint")
        with (Some (VText (format env (hole Fingerprint)))).
      cbv beta iota. by rewrite !bool_decide_true. }
    intros j r Hj Hr.
    destruct (decide (j < length rows)) as [Hlt|Hge].
    + rewrite lookup_app_l in Hj by done.
      apply list_find_None in Hfind. rewrite Forall_forall in Hfind.
      exfalso. apply (Hfind r).
      * apply list_elem_of_lookup. by exists j.
      * by apply api_keys_agree.
    + pose proof (lookup_lt_Some _ _ _ Hj) as Hlt.
      rewrite length_app in Hlt. simpl in Hlt. lia.
Qed.

(** The unique constraint on (org_id, fingerprint) is an invariant of the
    credential upsert. *)
Lemma api_keys_upsert_keeps_unique (env : var → list N) (now : Z)
    (db db1 : gmap string (list (gmap string value)))
    (rows : list (gmap string value)) :
  db !! "api_keys" = Some rows →
  unique_on ["org_id"; "fingerprint"] rows →
  exec_insert schema env now api_keys_insert db = inr db1 →
  ∃ rows1,
    db1 !! "api_keys" = Some rows1 ∧ unique_on ["org_id"; "fingerprint"] rows1.
Proof.
  intros Hrows Huniq Hexec.
  assert (Harb : conflict api_keys_insert
                 ∈ [["api_key_id"]; ["org_id"; "fingerprint"]])
    by (right; left).
  destruct (list_find
              (λ r, agree ["org_id"; "fingerprint"] r
                      (new_row env now api_keys_insert) = true) rows)
    as [[k old]|] eqn:Hfind.
  - rewrite (exec_insert_conflict env now api_keys_insert _ db rows
               schema_api_keys Hrows eq_refl Harb eq_refl eq_refl k old Hfind)
      in Hexec.
    injection Hexec as <-.
    apply list_find_Some in Hfind as (Hk & _ & _).
    pose proof (lookup_lt_Some _ _ _ Hk) as Hlt.
    eexists. split; [apply lookup_insert_eq|].
    assert (Hkeep : ∀ r, agree ["org_id"; "fingerprint"]
                           (updated env now api_keys_insert old) r
                         = agree ["org_id"; "fingerprint"] old r).
    { intros r. apply agree_ext_l. intros c Hc. apply updated_lookup.
      apply elem_of_cons in Hc as [->|Hc]; [reflexivity|].
      apply list_elem_of_singleton in Hc as ->. reflexivity. }
    intros j1 j2 r1 r2 Hj1 Hj2 Hagree.
    destruct (decide (j1 = k)) as [->|Hne1], (decide (j2 = k)) as [->|Hne2];
      [done| | |].
    + rewrite list_lookup_insert_eq in Hj1 by done. injection Hj1 as <-.
      rewrite list_lookup_insert_ne in Hj2 by done.
      rewrite Hkeep in Hagree. by apply (Huniq k j2 old r2).
    + rewrite list_lookup_insert_eq in Hj2 by done. injection Hj2 as <-.
      rewrite list_lookup_insert_ne in Hj1 by done.
      rewrite agree_sym, Hkeep, agree_sym in Hagree.
      by apply (Huniq j1 k r1 old).
    + rewrite list_lookup_insert_ne in Hj1, Hj2 by done.
      by apply (Huniq j1 j2 r1 r2).
  - apply (exec_insert_fresh env now api_keys_insert _ db rows
             schema_api_keys Hrows eq_refl Harb db1 Hfind) in Hexec.
    subst db1. eexists. split; [apply lookup_insert_eq|].
    apply list_find_None in Hfind. rewrite Forall_forall in Hfind.
    assert (Hnew : ∀ j r, (rows ++ [new_row env now api_keys_insert]) !! j
                          = Some r →
                   j < length rows ∧ rows !! j = Some r
                   ∨ j = length rows ∧ r = new_row env now api_keys_insert).
    { intros j r Hj. destruct (decide (j < length rows)) as [Hlt|Hge].
      - left. by rewrite lookup_app_l in Hj.
      - right. pose proof (lookup_lt_Some _ _ _ Hj) as Hlt.
        rewrite length_app in Hlt. simpl in Hlt.
        assert (j = length rows) as -> by lia.
        rewrite list_lookup_middle in Hj by done. by injection Hj as <-. }
    intros j1 j2 r1 r2 Hj1 Hj2 Hagree.
    apply Hnew in Hj1 as [[Hlt1 Hj1]|[-> ->]], Hj2 as [[Hlt2 Hj2]|[-> ->]].
    + by apply (Huniq j1 j2 r1 r2).
    + exfalso. apply (Hfind r1); [|done].
      apply list_elem_of_lookup. by exists j1.
    + exfalso. apply (Hfind r2); [|by rewrite agree_sym].
      apply list_elem_of_lookup. by exists j2.
    + done.
Qed.

(** *** The whole transaction on empty tables *)

Lemma exec_insert_new (env : var → list N) (now : Z) (i : insert)
    (cs : constraints) (db : gmap string (list (gmap string value)))
    (rows : list (gmap string value)) :
  schema !! into i = Some cs → db !! into i = Some rows →
  length (columns i) = length (row i) → conflict i ∈ unique cs →
  list_find (λ r, agree (conflict i) r (new_row env now i) = true) rows = None →
  existsb (λ u, existsb (agree u (new_row env now i)) rows) (unique cs) = false →
  forallb (fk_holds db (new_row env now i)) (references cs) = true →
  exec_insert schema env now i db
  = inr (<[into i := rows ++ [new_row env now i]]> db).
Proof.
  intros Hs Hr Hwf Harb Hfind Huniq Hfk.
  rewrite (exec_insert_unfold env now i cs db rows Hs Hr Hwf Harb).
  cbv zeta. by rewrite Hfind, Huniq, Hfk.
Qed.

Lemma org_id_referenced (env : var → list N) (now : Z)
    (db : gmap string (list (gmap string value)))
    (r : gmap string value) :
  db !! "orgs" = Some [new_row env now orgs_insert] →
  r !! "org_id" = Some (VText (env OrgId)) →
  fk_holds db r ("org_id", ("orgs", "org_id")) = true.
Proof.
  intros Hdb Hr. unfold fk_holds. cbn [fst snd]. rewrite Hr, Hdb.
  unfold default, id. cbn [existsb].
  change (new_row env now orgs_insert !! "org_id")
    with (Some (VText (format env (hole OrgId)))).
  by rewrite format_hole, bool_decide_true.
Qed.

Lemma orgs_insert_new (env : var → list N) (now : Z)
    (db : gmap string (list (gmap string value))) :
  db !! "orgs" = Some [] →
  exec_insert schema env now orgs_insert db
  = inr (<["orgs" := [new_row env now orgs_insert]]> db).
Proof.
  intros Hrows.
  apply (exec_insert_new env now orgs_insert _ db [] eq_refl Hrows eq_refl);
    (reflexivity || by right; left).
Qed.

Lemma users_insert_new (env : var → list N) (now : Z)
    (db : gmap string (list (gmap string value))) :
  db !! "users" = Some [] →
  db !! "orgs" = Some [new_row env now orgs_insert] →
  exec_insert schema env now users_insert db
  = inr (<["users" := [new_row env now users_insert]]> db).
Proof.
  intros Hrows Horgs.
  apply (exec_insert_new env now users_insert _ db [] eq_refl Hrows eq_refl);
    [by right; left|reflexivity|reflexivity|].
  cbn [forallb references]. rewrite (org_id_referenced env now db); [done..|].
  change (new_row env now users_insert !! "org_id")
    with (Some (VText (format env (hole OrgId)))).
  by rewrite format_hole.
Qed.

Lemma api_keys_insert_new (env : var → list N) (now : Z)
    (db : gmap string (list (gmap string value))) :
  db !! "api_keys" = Some [] →
  db !! "orgs" = Some [new_row env now orgs_insert] →
  exec_insert schema env now api_keys_insert db
  = inr (<["api_keys" := [new_row env now api_keys_insert]]> db).
Proof.
  intros Hrows Horgs.
  apply (exec_insert_new env now api_keys_insert _ db [] eq_refl Hrows eq_refl);
    [by right; left|reflexivity|reflexivity|].
  cbn [forallb references]. rewrite (org_id_referenced env now db); [done..|].
  change (new_row env now api_keys_insert !! "org_id")
    with (Some (VText (format env (hole OrgId)))).
  by rewrite format_hole.
Qed.

(** On empty tables the three statements insert one row each: the foreign
    keys of the user and of the credential find the organization inserted
    just before. *)
Lemma setup_on_fresh_database (env : var → list N) (now : Z) :
  exec_transaction schema env now setup_statements fresh_db
  = inr (<["api_keys" := [new_row env now api_keys_insert]]>
           (<["users" := [new_row env now users_insert]]>
              (<["orgs" := [new_row env now orgs_insert]]> fresh_db))).
Proof.
  unfold setup_statements. cbn [exec_transaction].
  rewrite orgs_insert_new by reflexivity.
  rewrite users_insert_new;
    [|by rewrite lookup_insert_ne|by rewrite lookup_insert_eq].
  rewrite api_keys_insert_new; [done|by rewrite !lookup_insert_ne|].
  rewrite lookup_insert_ne by done. by rewrite lookup_insert_eq.
Qed.

Lemma db0_orgs : db0 !! "orgs" = Some [new_row env0 1000 orgs_insert].
Proof. unfold db0. rewrite lookup_insert_ne by done. apply lookup_insert_eq. Qed.

Lemma db0_api_keys : db0 !! "api_keys" = Some [].
Proof. unfold db0. by rewrite !lookup_insert_ne. Qed.

Lemma db0_issued_executed :
  exec_insert schema env0 1000 api_keys_insert db0 = inr db0_issued.
Proof. apply api_keys_insert_new; [apply db0_api_keys|apply db0_orgs]. Qed.

(** ** The embedding, checked on known values

    The expected values are those of FIPS 180-4 and of the Python library on
    the same inputs. *)

Example sha256_abc :
  hex (sha256 (list_byte_of_string "abc"))
  = "ba7816bf8f01cfea414140de5dae2223b00361a396177a9cb410ff61f20015ad".
Proof. vm_compute. reflexivity. Qed.

Example sha256_empty :
  hex (sha256 [])
  = "e3b0c44298fc1c149afbf4c8996fb92427ae41e4649b934ca495991b7852b855".
Proof. vm_compute. reflexivity. Qed.

Example sha256_two_blocks :
  hex (sha256 (list_byte_of_string
                 "abcdbcdecdefdefgefghfghighijhijkijkljklmklmnlmnomnopnopq"))
  = "248d6a61d20638b8e5c026930c3e6039a33ce45964ff2167f6ecedd419db06c1".
Proof. vm_compute. reflexivity. Qed.

Example urlsafe_b64encode_sample :
  urlsafe_b64encode (list_byte_of_string "hello?>")
  = list_byte_of_string "aGVsbG8_Pg==".
Proof. reflexivity. Qed.

Example utf8_sample :
  hex <$> encode_utf8 [0x20AC; 0x1F600; 0xE9]%N = Ok "e282acf09f9880c3a9"
  ∧ (encode_utf8 [0x20AC; 0x1F600; 0xE9]%N ≫= decode_utf8)
    = Ok [0x20AC; 0x1F600; 0xE9]%N
  ∧ encode_utf8 [0xD800]%N = Raise UnicodeEncodeError.
Proof. repeat split; reflexivity. Qed.

Example uuid4_sample :
  show (uuid_str (uuid_int (list_byte_of_string "0123456789abcdef")))
  = "30313233-3435-4637-b839-616263646566".
Proof. vm_compute. reflexivity. Qed.

Example isoformat_sample :
  show (Calendar.isoformat (DateTime 2026 11 6 1 10 0 123))
  = "2026-11-06T01:10:00.000123"
  ∧ show (Calendar.isoformat (DateTime 2026 11 6 1 10 0 0))
    = "2026-11-06T01:10:00".
Proof. split; vm_compute; reflexivity. Qed.

Example add_days_sample :
  Calendar.add_days (DateTime 2023 11 6 1 10 0 123) 365
  = Ok (DateTime 2024 11 5 1 10 0 123)
  ∧ Calendar.add_days (DateTime 2024 2 29 0 0 0 0) 365
    = Ok (DateTime 2025 2 28 0 0 0 0)
  ∧ Calendar.add_days (DateTime 9998 12 31 0 0 0 0) 365
    = Ok (DateTime 9999 12 31 0 0 0 0)
  ∧ Calendar.add_days (DateTime 9999 1 1 0 0 0 0) 365 = Raise OverflowError.
Proof. repeat split; reflexivity. Qed.

Example fingerprint_sample :
  fingerprint_of (lit "AwoRGB8mLTQ7QklQV15lbHN6gYiPlp2kq7K5wMfO1dw")
  = Ok (lit "Ucth0C-OcYdc4s8JT_o3Lll7KsfpNlpYmwObmzH89UA").
Proof. vm_compute. reflexivity. Qed.

(** The run of [w0]: its secret, and the length and SHA-256 digest of the
    2924 characters it prints (the f-string of the source with the fields of
    this run filled in, and the summary). *)
Example run_w0 :
  let '(r, w') := script w0 in
  (show ∘ secret <$> r, show ∘ org_id <$> r, length (stdout w'),
   hex <$> (sha256 <$> encode_utf8 (stdout w')))
  = (Ok "AwoRGB8mLTQ7QklQV15lbHN6gYiPlp2kq7K5wMfO1dw",
     Ok "e3eaf1f8-ff06-4d14-9b22-2930373e454c",
     2924,
     Ok "c4947f1b80b8cdf16a037bc94d7e9c5d1fa786a28ab7e606a036dbd11fe63e4a").
Proof. vm_compute. reflexivity. Qed.

(** The SQL part of the f-string is the concrete syntax of the three
    statements. *)
Lemma setup_template_parses :
  setup_template
  = lines (banner ++ render_transaction setup_statements
           ++ verification_queries).
Proof. vm_compute. reflexivity. Qed.

(** A later run against the same database: its organization upsert meets the
    stored slug and keeps the stored [org_id], so the user row's fresh
    [org_id] references no organization and the transaction aborts. *)
Example rerun_aborts :
  exec_transaction schema env1 5000 setup_statements db0_issued
  = inl ForeignKeyViolation.
Proof. vm_compute. reflexivity. Qed.

(** ** Claims about the secret, the fingerprint and the output *)

(** C1. For every secret text [s], the fingerprint is the SHA-256 digest of
    the UTF-8 bytes of [s], written in the URL-safe base64 alphabet without
    any [=] padding; it raises exactly when [s] has no UTF-8 encoding. *)
Theorem fingerprint_is_sha256_b64url (s : list N) :
  fingerprint_of s = (λ bs, b64url_nopad (sha256 bs)) <$> encode_utf8 s.
Proof.
  unfold fingerprint_of, fingerprint_digest.
  destruct (encode_utf8 s) as [bs|e]; [|done].
  cbn [fmap result_fmap mbind result_bind]. apply fingerprint_text_nopad.
Qed.

(** C2. The secret is made from 32 bytes (256 bits) taken from the operating
    system's CSPRNG stream through [secrets.token_bytes]; its text is the
    unpadded URL-safe base64 encoding of those bytes, 43 characters, each in
    the URL-safe alphabet and none of them [=]; and the text determines the
    bytes, so none of the 256 bits is lost. *)
Theorem secret_generation (w : world) :
  let secret_bytes := entropy w 0 32 in
  let secret := b64url_nopad secret_bytes in
  generate_secret w = (Ok (secret_bytes, secret), drew w 32)
  ∧ 8 * length secret_bytes = 256
  ∧ Forall (λ c, c ∈ b64url_alphabet) secret
  ∧ Forall (λ c, c ∉ lit "=") secret
  ∧ length secret = 43
  ∧ ∀ w', b64url_nopad (entropy w' 0 32) = secret →
          entropy w' 0 32 = secret_bytes.
Proof.
  cbv zeta. split; [apply generate_secret_run|].
  split; [by rewrite entropy_length|].
  split.
  { eapply Forall_impl; [apply b64url_nopad_alphabet|]. by intros c (Hc & _). }
  split.
  { eapply Forall_impl; [apply b64url_nopad_alphabet|].
    intros c (_ & Hc & _) ->%list_elem_of_singleton. done. }
  split; [apply b64url_nopad_32, entropy_length|].
  intros w'. apply b64url_nopad_inj.
Qed.

(** C5. For every 32-byte secret value, the text the script makes of it - 43
    characters, with the padding stripped - decodes back to exactly those
    bytes. *)
Theorem secret_text_roundtrip (secret_bytes : list byte) :
  length secret_bytes = 32 →
  ∃ secret,
    encode_secret secret_bytes = Ok secret
    ∧ length secret = 43
    ∧ b64url_decode secret = Some secret_bytes.
Proof.
  intros Hlen. exists (b64url_nopad secret_bytes).
  split; [apply encode_secret_nopad|].
  split; [by apply b64url_nopad_32 | apply b64url_roundtrip].
Qed.

Lemma secret_text_roundtrip_witness :
  ∃ secret,
    encode_secret (entropy w0 0 32) = Ok secret
    ∧ length secret = 43
    ∧ b64url_decode secret = Some (entropy w0 0 32).
Proof. apply (secret_text_roundtrip (entropy w0 0 32)). reflexivity. Defined.

(** C8. In every completed run the fingerprint is [fingerprint_of] applied to
    the run's secret, a function of that text alone: two runs, in whatever
    worlds (entropy for the identifiers, clock, earlier output), that hold
    the same secret hold the same fingerprint; and the two fingerprinting
    steps of the script neither read nor change the world they run in. *)
Theorem fingerprint_deterministic
    (wa wb wa' wb' : world) (ga gb : globals) :
  script wa = (Ok ga, wa') → script wb = (Ok gb, wb') →
  fingerprint_of (secret ga) = Ok (fingerprint ga)
  ∧ fingerprint_of (secret gb) = Ok (fingerprint gb)
  ∧ (secret ga = secret gb → fingerprint ga = fingerprint gb)
  ∧ ∀ (s : list N) (h : list byte) (w : world),
      lift (fingerprint_digest s) w = (fingerprint_digest s, w)
      ∧ lift (fingerprint_text h) w = (fingerprint_text h, w).
Proof.
  intros Ha Hb.
  apply script_fingerprint in Ha, Hb.
  split; [exact Ha|]. split; [exact Hb|]. split.
  - intros E. rewrite E, Hb in Ha. by injection Ha.
  - intros s h w. split; reflexivity.
Qed.

Lemma fingerprint_deterministic_witness :
  ∃ ga gb wa' wb',
    script w0 = (Ok ga, wa') ∧ script w1 = (Ok gb, wb')
    ∧ org_id ga ≠ org_id gb
    ∧ fingerprint_of (secret ga) = Ok (fingerprint ga)
    ∧ fingerprint_of (secret gb) = Ok (fingerprint gb)
    ∧ (secret ga = secret gb → fingerprint ga = fingerprint gb)
    ∧ ∀ (s : list N) (h : list byte) (w : world),
        lift (fingerprint_digest s) w = (fingerprint_digest s, w)
        ∧ lift (fingerprint_text h) w = (fingerprint_text h, w).
Proof.
  eexists _, _, _, _.
  split; [vm_compute; reflexivity|]. split; [vm_compute; reflexivity|].
  split; [vm_compute; discriminate|].
  eapply (fingerprint_deterministic w0 w1); vm_compute; reflexivity.
Defined.

(** C4 as stated does not hold: in the run of [w0] the secret, the text
    [AwoRGB8mLTQ7QklQV15lbHN6gYiPlp2kq7K5wMfO1dw], occurs twice in the output,
    not once. *)
Lemma secret_disclosed_once_counterexample :
  ∃ g w',
    script w0 = (Ok g, w')
    ∧ show (secret g) = "AwoRGB8mLTQ7QklQV15lbHN6gYiPlp2kq7K5wMfO1dw"
    ∧ occurrences (secret g) (stdout w') = 2
    ∧ occurrences (secret g) (stdout w') ≠ 1.
Proof.
  eexists _, _. split; [vm_compute; reflexivity|].
  split; [vm_compute; reflexivity|].
  split; [vm_compute; reflexivity|vm_compute; discriminate].
Qed.

(** C4, amended. Every run whose clock readings are valid and at least 365
    days before the end of year 9999 completes, and the text it writes holds
    the secret at exactly two places, the banner line [-- API Key Secret:]
    and the summary line [API Key Secret:] - and at a third, the fingerprint
    column, only if the fingerprint text were to equal the secret itself. *)
Theorem secret_disclosed_twice (w : world) :
  Calendar.fits (clock w (ticks w)) 365 = true →
  Calendar.valid (clock w (S (ticks w))) = true →
  ∃ g w' out,
    script w = (Ok g, w')
    ∧ stdout w' = stdout w ++ out
    ∧ occurrences (secret g) out
      = 2 + (if bool_decide (fingerprint g = secret g) then 1 else 0).
Proof.
  intros Hfits Hvalid. rewrite script_run. unfold Calendar.add_days.
  rewrite Hfits. destruct (Calendar.ord2ymd _) as [[y m] d].
  cbv zeta.
  set (g := globals_of w _).
  set (env := fields (Calendar.isoformat (clock w (S (ticks w)))) g).
  exists g, (World (urandom w) (drawn w + 80) (clock w) (S (S (ticks w)))
                   (stdout w ++ format env output_template)),
         (format env output_template).
  split; [reflexivity|]. split; [reflexivity|].
  assert (Hsecret : length (secret g) = 43).
  { apply b64url_nopad_32, entropy_length. }
  assert (Hfp : length (fingerprint g) = 43).
  { apply b64url_nopad_32, sha256_length. }
  rewrite <- (format_inline env PasswordHash).
  change (env PasswordHash) with password_hash_literal.
  change (fingerprint g) with (env Fingerprint).
  apply (analyse_sound (secret g)) with (bound := field_bound).
  - intros E. rewrite E in Hsecret. discriminate Hsecret.
  - eapply Forall_impl; [apply b64url_nopad_alphabet|].
    intros c (Hc & _). by apply bool_decide_eq_true.
  - intros x. unfold env. destruct x; cbn [fields field_bound].
    + by apply isoformat_length.
    + by rewrite Hsecret.
    + cbn [org_id g globals_of].
      by rewrite uuid_str_length by apply uuid_int_bound, entropy_length.
    + cbn [user_id g globals_of].
      by rewrite uuid_str_length by apply uuid_int_bound, entropy_length.
    + reflexivity.
    + cbn [api_key_id g globals_of].
      by rewrite uuid_str_length by apply uuid_int_bound, entropy_length.
    + by rewrite Hfp.
  - reflexivity.
  - unfold env. cbn [fields]. by rewrite Hfp, Hsecret.
  - rewrite Hsecret. apply output_analysis.
Qed.

Lemma secret_disclosed_twice_witness :
  ∃ g w' out,
    script w0 = (Ok g, w')
    ∧ stdout w' = stdout w0 ++ out
    ∧ occurrences (secret g) out
      = 2 + (if bool_decide (fingerprint g = secret g) then 1 else 0).
Proof. apply (secret_disclosed_twice w0); vm_compute; reflexivity. Defined.

(** ** Claims about the stored rows *)

(** C3. Re-issuing for the same (org_id, fingerprint): whenever a first
    credential upsert has succeeded on a table that satisfies its unique
    constraint, a second upsert with the same organization and fingerprint
    succeeds, writes in place the one row [r1] that carries the key - so the
    table keeps its length and exactly one row carries the key -, sets that
    row's [expires_at] to the second statement's [NOW() + 365 days] and its
    [status] to active, and leaves every other column of the row as it was. *)
Theorem credential_upsert_idempotent
    (e1 e2 : var → list N) (now1 now2 : Z)
    (db db1 : gmap string (list (gmap string value)))
    (rows : list (gmap string value)) :
  db !! "api_keys" = Some rows →
  unique_on ["org_id"; "fingerprint"] rows →
  e2 OrgId = e1 OrgId → e2 Fingerprint = e1 Fingerprint →
  exec_insert schema e1 now1 api_keys_insert db = inr db1 →
  ∃ rows1 k r1,
    db1 !! "api_keys" = Some rows1 ∧ rows1 !! k = Some r1 ∧
    let r2 := <["expires_at" := VTime (now2 + days 365)]>
                (<["status" := VText (lit "active")]> r1) in
    let rows2 := <[k := r2]> rows1 in
    exec_insert schema e2 now2 api_keys_insert db1
      = inr (<["api_keys" := rows2]> db1) ∧
    filter (has_key (e1 OrgId) (e1 Fingerprint)) rows2 = [r2] ∧
    length rows2 = length rows1 ∧
    r2 !! "expires_at" = Some (VTime (now2 + days 365)) ∧
    r2 !! "status" = Some (VText (lit "active")) ∧
    (∀ c, c ≠ "status" → c ≠ "expires_at" → r2 !! c = r1 !! c).
Proof.
  intros Hrows Huniq Horg Hfp Hexec.
  destruct (api_keys_upsert_once e1 now1 db db1 rows Hrows Huniq Hexec)
    as (rows1 & k & r1 & -> & _ & Hk & Hkey & Hone).
  exists rows1, k, r1.
  assert (Hrows1 : <["api_keys" := rows1]> db !! "api_keys" = Some rows1)
    by apply lookup_insert_eq.
  pose proof (lookup_lt_Some _ _ _ Hk) as Hlt.
  split; [done|]. split; [done|]. cbv zeta.
  assert (Harb : conflict api_keys_insert
                 ∈ [["api_key_id"]; ["org_id"; "fingerprint"]])
    by (right; left).
  assert (Hfind :
    list_find (λ r, agree (conflict api_keys_insert) r
                      (new_row e2 now2 api_keys_insert) = true) rows1
    = Some (k, r1)).
  { apply list_find_Some. split; [done|]. split.
    - apply api_keys_agree. by rewrite Horg, Hfp.
    - intros j r Hj Hjk Hr. apply api_keys_agree in Hr.
      rewrite Horg, Hfp in Hr. apply (Hone j r Hj) in Hr. lia. }
  split.
  { rewrite (exec_insert_conflict e2 now2 api_keys_insert _ _ rows1
               schema_api_keys Hrows1 eq_refl Harb eq_refl eq_refl k r1 Hfind).
    by rewrite api_keys_updated. }
  split.
  { apply (filter_single _ _ k).
    - by apply list_lookup_insert_eq.
    - rewrite <- (api_keys_updated e2 now2). by apply has_key_updated.
    - intros j r Hj Hr. destruct (decide (j = k)) as [|Hne]; [done|].
      rewrite list_lookup_insert_ne in Hj by done. by apply (Hone j r). }
  split; [apply length_insert|].
  split; [apply lookup_insert_eq|].
  split.
  { rewrite lookup_insert_ne by done. apply lookup_insert_eq. }
  intros c Hc1 Hc2. by rewrite !lookup_insert_ne.
Qed.

Lemma credential_upsert_idempotent_witness :
  ∃ rows1 k r1,
    db0_issued !! "api_keys" = Some rows1 ∧ rows1 !! k = Some r1 ∧
    let r2 := <["expires_at" := VTime (3000 + days 365)]>
                (<["status" := VText (lit "active")]> r1) in
    let rows2 := <[k := r2]> rows1 in
    exec_insert schema env0 3000 api_keys_insert db0_issued
      = inr (<["api_keys" := rows2]> db0_issued) ∧
    filter (has_key (env0 OrgId) (env0 Fingerprint)) rows2 = [r2] ∧
    length rows2 = length rows1 ∧
    r2 !! "expires_at" = Some (VTime (3000 + days 365)) ∧
    r2 !! "status" = Some (VText (lit "active")) ∧
    (∀ c, c ≠ "status" → c ≠ "expires_at" → r2 !! c = r1 !! c).
Proof.
  apply (credential_upsert_idempotent env0 env0 1000 3000 db0 db0_issued []).
  - apply db0_api_keys.
  - intros j1 j2 r1 r2 Hj1. discriminate Hj1.
  - reflexivity.
  - reflexivity.
  - apply db0_issued_executed.
Defined.

(** C6. A credential record that the upsert creates - no stored row carries
    its (org_id, fingerprint), and the statement succeeds - is appended with
    status active, [issued_at] the transaction's [NOW()], and [expires_at]
    that same instant plus 365 days. *)
Theorem credential_created_active_365
    (env : var → list N) (now : Z)
    (db db' : gmap string (list (gmap string value)))
    (rows : list (gmap string value)) :
  db !! "api_keys" = Some rows →
  (∀ r, r ∈ rows → ¬ has_key (env OrgId) (env Fingerprint) r) →
  exec_insert schema env now api_keys_insert db = inr db' →
  ∃ r issued_at,
    db' !! "api_keys" = Some (rows ++ [r]) ∧
    r !! "status" = Some (VText (lit "active")) ∧
    r !! "issued_at" = Some (VTime issued_at) ∧
    r !! "expires_at" = Some (VTime (issued_at + days 365)) ∧
    issued_at = now ∧
    days 365 = (365 * 24 * 60 * 60 * 1000000)%Z.
Proof.
  intros Hrows Hnone Hexec.
  assert (Harb : conflict api_keys_insert
                 ∈ [["api_key_id"]; ["org_id"; "fingerprint"]])
    by (right; left).
  apply (exec_insert_fresh env now api_keys_insert _ db rows
           schema_api_keys Hrows eq_refl Harb db') in Hexec.
  - subst db'. exists (new_row env now api_keys_insert), now.
    split; [apply lookup_insert_eq|]. repeat split; reflexivity.
  - apply list_find_None, Forall_forall. intros r Hr Hagree.
    apply api_keys_agree in Hagree. by apply (Hnone r).
Qed.

Lemma credential_created_active_365_witness :
  ∃ r issued_at,
    db0_issued !! "api_keys" = Some ([] ++ [r]) ∧
    r !! "status" = Some (VText (lit "active")) ∧
    r !! "issued_at" = Some (VTime issued_at) ∧
    r !! "expires_at" = Some (VTime (issued_at + days 365)) ∧
    issued_at = 1000%Z ∧
    days 365 = (365 * 24 * 60 * 60 * 1000000)%Z.
Proof.
  apply (credential_created_active_365 env0 1000 db0 db0_issued []).
  - apply db0_api_keys.
  - intros r Hr. inversion Hr.
  - apply db0_issued_executed.
Defined.

(** C7. When the organization upsert meets a stored row with its slug, the
    statement succeeds and writes that row in place with [status] set to
    active: [org_id], [slug] and every column other than [status] keep their
    stored values (the [org_id] proposed by the statement is discarded), no
    row is added, and the other rows are untouched. *)
Theorem org_upsert_conflict_updates_status_only
    (env : var → list N) (now : Z)
    (db : gmap string (list (gmap string value)))
    (rows : list (gmap string value)) :
  db !! "orgs" = Some rows →
  (∃ r, r ∈ rows ∧ has_slug (lit "e2e-admin-org") r) →
  ∃ k old,
    rows !! k = Some old ∧ has_slug (lit "e2e-admin-org") old ∧
    let new := <["status" := VText (lit "active")]> old in
    exec_insert schema env now orgs_insert db
      = inr (<["orgs" := <[k := new]> rows]> db) ∧
    new !! "org_id" = old !! "org_id" ∧
    new !! "slug" = old !! "slug" ∧
    (∀ c, c ≠ "status" → new !! c = old !! c) ∧
    length (<[k := new]> rows) = length rows ∧
    (∀ j, j ≠ k → <[k := new]> rows !! j = rows !! j).
Proof.
  intros Hrows (r & Hr & Hslug).
  destruct (list_find_elem_of
              (λ r, agree (conflict orgs_insert) r
                      (new_row env now orgs_insert) = true) rows r Hr)
    as [[k old] Hfind].
  { by apply orgs_agree. }
  exists k, old.
  pose proof Hfind as (Hk & Hold & _)%list_find_Some.
  apply orgs_agree in Hold.
  split; [done|]. split; [done|]. cbv zeta.
  assert (Harb : conflict orgs_insert ∈ [["org_id"]; ["slug"]])
    by (right; left).
  split.
  { rewrite (exec_insert_conflict env now orgs_insert _ db rows
               schema_orgs Hrows eq_refl Harb eq_refl eq_refl k old Hfind).
    by rewrite orgs_updated. }
  split; [by rewrite lookup_insert_ne|].
  split; [by rewrite lookup_insert_ne|].
  split; [intros c Hc; by rewrite lookup_insert_ne|].
  split; [apply length_insert|].
  intros j Hj. by apply list_lookup_insert_ne.
Qed.

Lemma org_upsert_conflict_updates_status_only_witness :
  ∃ k old,
    [new_row env0 1000 orgs_insert] !! k = Some old
    ∧ has_slug (lit "e2e-admin-org") old ∧
    let new := <["status" := VText (lit "active")]> old in
    exec_insert schema env1 5000 orgs_insert db0
      = inr (<["orgs" := <[k := new]> [new_row env0 1000 orgs_insert]]> db0) ∧
    new !! "org_id" = old !! "org_id" ∧
    new !! "slug" = old !! "slug" ∧
    (∀ c, c ≠ "status" → new !! c = old !! c) ∧
    length (<[k := new]> [new_row env0 1000 orgs_insert])
    = length [new_row env0 1000 orgs_insert] ∧
    (∀ j, j ≠ k →
          <[k := new]> [new_row env0 1000 orgs_insert] !! j
          = [new_row env0 1000 orgs_insert] !! j).
Proof.
  apply (org_upsert_conflict_updates_status_only env1 5000 db0
           [new_row env0 1000 orgs_insert]).
  - apply db0_orgs.
  - exists (new_row env0 1000 orgs_insert). split; [left|reflexivity].
Defined.

(** C9. The rows that the three [VALUES] lists of one run propose refer to
    one another: the credential's [org_id] and the user's [org_id] are the
    organization's [org_id] (the run's [org_id] variable), the credential's
    [principal_id] is the user's [user_id] (the run's [user_id] variable),
    and its [principal_type] is ['user']; on empty tables the transaction
    therefore passes the foreign-key checks and stores the three rows. *)
Theorem emitted_rows_referentially_consistent
    (generated : list N) (g : globals) (now : Z) :
  let env := fields generated g in
  let org := new_row env now orgs_insert in
  let user := new_row env now users_insert in
  let key := new_row env now api_keys_insert in
  org !! "org_id" = Some (VText (org_id g)) ∧
  user !! "user_id" = Some (VText (user_id g)) ∧
  key !! "org_id" = org !! "org_id" ∧
  key !! "principal_id" = user !! "user_id" ∧
  key !! "principal_type" = Some (VText (lit "user")) ∧
  user !! "org_id" = org !! "org_id" ∧
  exec_transaction schema env now setup_statements fresh_db
  = inr (<["api_keys" := [key]]>
           (<["users" := [user]]> (<["orgs" := [org]]> fresh_db))).
Proof.
  cbv zeta. rewrite setup_on_fresh_database.
  change (new_row (fields generated g) now orgs_insert !! "org_id")
    with (Some (VText (format (fields generated g) (hole OrgId)))).
  change (new_row (fields generated g) now users_insert !! "user_id")
    with (Some (VText (format (fields generated g) (hole UserId)))).
  change (new_row (fields generated g) now users_insert !! "org_id")
    with (Some (VText (format (fields generated g) (hole OrgId)))).
  change (new_row (fields generated g) now api_keys_insert !! "org_id")
    with (Some (VText (format (fields generated g) (hole OrgId)))).
  change (new_row (fields generated g) now api_keys_insert !! "principal_id")
    with (Some (VText (format (fields generated g) (hole UserId)))).
  rewrite !format_hole. repeat split; reflexivity.
Qed.

(** ** The mock completion endpoint *)

Lemma split_from_length (word s : list N) :
  length (split_from word s)
  = match word with
    | [] => word_starts true s
    | _ => S (word_starts false s)
    end.
Proof.
  revert word. induction s as [|c s IH]; intros word.
  - by destruct word.
  - cbn [split_from word_starts]. destruct (isspace c) eqn:Hc.
    + destruct word as [|c' word]; cbn [length andb negb]; rewrite (IH []);
        rewrite ?andb_false_r; reflexivity.
    + rewrite (IH (word ++ [c])).
      destruct word as [|c' word]; cbn [app andb negb]; lia.
Qed.

Example split_sample :
  split (lit "  the quick" ++ [10; 9]%N ++ lit "brown fox ")
  = [lit "the"; lit "quick"; lit "brown"; lit "fox"]
  ∧ split (lit "   ") = [] ∧ split [] = [].
Proof. repeat split; reflexivity. Qed.

(** C10. For every completion request, [tokens_used] is the smaller of the
    prompt's word count plus ten and the request's [max_tokens], hence never
    above [max_tokens], and [text] is the prompt followed by
    [ [mock inference response]]. *)
Theorem completions_tokens_and_text (req : CompletionRequest.t) :
  let resp := completions req in
  CompletionResponse.tokens_used resp
  = Z.min (Z.of_nat (word_count (CompletionRequest.prompt req)) + 10)
          (CompletionRequest.max_tokens req)
  ∧ (CompletionResponse.tokens_used resp ≤ CompletionRequest.max_tokens req)%Z
  ∧ CompletionResponse.text resp
    = CompletionRequest.prompt req ++ lit " [mock inference response]".
Proof.
  cbv zeta. unfold completions, split, word_count.
  cbn [CompletionResponse.tokens_used CompletionResponse.text].
  rewrite split_from_length. split; [reflexivity|]. split; [lia|reflexivity].
Qed.

(** * Further properties of the two programs *)

(** ** The issuance script *)

(** *** When the script fails *)

Lemma days_before_month_day (y m d : Z) :
  (1 ≤ m ≤ 12 → 1 ≤ d ≤ Calendar.days_in_month y m →
   1 ≤ Calendar.days_before_month y m + d
     ≤ 365 + (if Calendar.is_leap y then 1 else 0))%Z.
Proof.
  intros Hm Hd.
  unfold Calendar.days_before_month, Calendar.days_in_month in *.
  assert (∃ i, m = Z.of_nat i ∧ 1 ≤ i ≤ 12) as (i & -> & Hi)
    by (exists (Z.to_nat m); lia).
  destruct (Calendar.is_leap y);
    do 13 (destruct i as [|i]; [simpl in *; lia|]); lia.
Qed.

(** A valid date plus 365 days is within the calendar exactly when its year
    is not the last one, 9999: the day 365 days before 9999-12-31 is
    9998-12-31. *)
Lemma fits_365 (d : datetime) :
  Calendar.valid d = true →
  Calendar.fits d 365 = true ↔ (year d ≤ 9998)%Z.
Proof.
  unfold Calendar.valid. rewrite !andb_true_iff.
  rewrite !Z.leb_le, !Z.ltb_lt.
  intros (((((((((((((Hy1 & Hy2) & Hm1) & Hm2) & Hd1) & Hd2) & _) & _)
                  & _) & _) & _) & _) & _) & _).
  pose proof (days_before_month_day (year d) (month d) (day d)
                (conj Hm1 Hm2) (conj Hd1 Hd2)) as Hmd.
  unfold Calendar.fits, Calendar.ymd2ord, Calendar.MAXORDINAL.
  rewrite andb_true_iff, Z.ltb_lt, Z.leb_le.
  set (md := (Calendar.days_before_month (year d) (month d) + day d)%Z) in *.
  replace (Calendar.days_before_year (year d)
           + Calendar.days_before_month (year d) (month d) + day d)%Z
    with (Calendar.days_before_year (year d) + md)%Z by (unfold md; lia).
  clearbody md.
  destruct (decide (year d = 9998%Z)) as [E|Hne].
  { rewrite E in *. change (Calendar.is_leap 9998) with false in Hmd.
    change (Calendar.days_before_year 9998) with 3651329%Z. lia. }
  assert (0 ≤ (if Calendar.is_leap (year d) then 1 else 0) ≤ 1)%Z
    by (destruct (Calendar.is_leap _); lia).
  unfold Calendar.days_before_year.
  generalize dependent (year d). intros y. intros.
  Z.div_mod_to_equations. lia.
Qed.

Lemma run_ok_raise {A} (a : A) (e : exn) (w w' : world) :
  (Ok a, w) = (Raise e, w') → False.
Proof. intros H. symmetry in H. by apply run_raise_inv in H. Qed.

Lemma run_raise_eq {A} (e e' : exn) (w w' : world) :
  (@Raise A e, w) = (Raise e', w') → e = e' ∧ w = w'.
Proof.
  intros H. split.
  - exact (f_equal (λ p, match p.1 with Ok _ => e | Raise x => x end) H).
  - exact (f_equal snd H).
Qed.

(** X1. The only exception the script can raise is the [OverflowError] of
    line 25, when the clock read there is less than 365 days before the end
    of year 9999; it is raised after the 80 bytes of entropy were drawn and
    before anything is printed. *)
Theorem script_raises_before_printing (w w' : world) (e : exn) :
  script w = (Raise e, w') →
  e = OverflowError
  ∧ Calendar.fits (clock w (ticks w)) 365 = false
  ∧ stdout w' = stdout w
  ∧ drawn w' = drawn w + 80
  ∧ ticks w' = S (ticks w).
Proof.
  rewrite script_run. unfold Calendar.add_days.
  destruct (Calendar.fits (clock w (ticks w)) 365).
  - destruct (Calendar.ord2ymd _) as [[y m] d]. cbv zeta.
    intros []%run_ok_raise.
  - intros [<- <-]%run_raise_eq. repeat split; reflexivity.
Qed.

Lemma script_raises_before_printing_witness :
  let w' := World (urandom w0) 80 (clock w_last_year) 1 [] in
  script w_last_year = (Raise OverflowError, w')
  ∧ Calendar.fits (clock w_last_year (ticks w_last_year)) 365 = false
  ∧ stdout w' = stdout w_last_year
  ∧ drawn w' = drawn w_last_year + 80
  ∧ ticks w' = S (ticks w_last_year).
Proof.
  cbv zeta.
  assert (script w_last_year
          = (Raise OverflowError,
             World (urandom w0) 80 (clock w_last_year) 1 [])) as Hrun
    by (rewrite script_run; reflexivity).
  split; [exact Hrun|].
  exact (proj2 (script_raises_before_printing _ _ _ Hrun)).
Defined.

(** X2. With a valid first clock reading, the script completes exactly when
    that reading lies in a year up to 9998, and raises [OverflowError]
    exactly when it lies in year 9999. *)
Theorem script_completes_until_9998 (w : world) :
  Calendar.valid (clock w (ticks w)) = true →
  ((∃ g w', script w = (Ok g, w')) ↔ (year (clock w (ticks w)) ≤ 9998)%Z)
  ∧ ((∃ w', script w = (Raise OverflowError, w'))
     ↔ year (clock w (ticks w)) = 9999%Z).
Proof.
  intros Hvalid. pose proof (fits_365 _ Hvalid) as Hfits.
  assert (year (clock w (ticks w)) ≤ 9999)%Z as Hmax.
  { unfold Calendar.valid in Hvalid. rewrite !andb_true_iff in Hvalid.
    rewrite !Z.leb_le in Hvalid. lia. }
  rewrite script_run. unfold Calendar.add_days.
  destruct (Calendar.fits (clock w (ticks w)) 365).
  - destruct (Calendar.ord2ymd _) as [[y m] d]. cbv zeta.
    assert (year (clock w (ticks w)) ≤ 9998)%Z by by apply Hfits.
    split; split.
    + done.
    + intros _. eexists _, _. reflexivity.
    + intros [w' []%run_ok_raise].
    + lia.
  - assert (¬ (year (clock w (ticks w)) ≤ 9998)%Z) as Hlate.
    { intros Hy. apply Hfits in Hy. discriminate Hy. }
    split; split.
    + intros (g & w' & []%run_raise_inv).
    + lia.
    + lia.
    + intros _. eexists. reflexivity.
Qed.

Lemma script_completes_until_9998_witness :
  ((∃ g w', script w0 = (Ok g, w')) ↔ (year (clock w0 (ticks w0)) ≤ 9998)%Z)
  ∧ ((∃ w', script w0 = (Raise OverflowError, w'))
     ↔ year (clock w0 (ticks w0)) = 9999%Z).
Proof. apply (script_completes_until_9998 w0). reflexivity. Defined.

(** *** What a run reads and what it prints *)

Lemma entropy_slice (w : world) (off n m : nat) :
  off + n ≤ m → entropy w off n = take n (drop off (entropy w 0 m)).
Proof.
  intros Hle. unfold entropy.
  rewrite <- fmap_drop, <- fmap_take, drop_seq, take_seq.
  do 2 f_equal; lia.
Qed.

Lemma format_ext (env env' : var → list N) (t : list item) :
  (∀ x, env x = env' x) → format env t = format env' t.
Proof.
  intros Hext. unfold format. induction t as [|[c|x] t IH]; [done| |].
  - cbn [mbind list_bind]. by rewrite IH.
  - cbn [mbind list_bind]. by rewrite IH, Hext.
Qed.

(** X3. The four random values of a run come from consecutive, disjoint
    slices of the entropy stream - 32 bytes for the secret, then 16 for each
    of [org_id], [user_id] and [api_key_id], in this order -, a completed run
    has drawn exactly these 80 bytes and read the clock exactly twice, and
    [expires_at] is the first reading plus 365 days. *)
Theorem script_draws_disjoint_entropy (w w' : world) (g : globals) :
  script w = (Ok g, w') →
  secret_bytes g = entropy w 0 32
  ∧ org_id g = uuid_str (uuid_int (entropy w 32 16))
  ∧ user_id g = uuid_str (uuid_int (entropy w 48 16))
  ∧ api_key_id g = uuid_str (uuid_int (entropy w 64 16))
  ∧ Calendar.add_days (clock w (ticks w)) 365 = Ok (expires_at g)
  ∧ drawn w' = drawn w + 80
  ∧ ticks w' = ticks w + 2
  ∧ (∀ i, urandom w' i = urandom w i)
  ∧ (∀ i, clock w' i = clock w i).
Proof.
  intros (e & Hadd & -> & ->)%script_globals.
  cbn [secret_bytes org_id user_id api_key_id expires_at globals_of
       drawn ticks urandom clock].
  repeat split; (done || lia).
Qed.

Lemma script_draws_disjoint_entropy_witness :
  ∃ g w',
    secret_bytes g = entropy w0 0 32
    ∧ org_id g = uuid_str (uuid_int (entropy w0 32 16))
    ∧ user_id g = uuid_str (uuid_int (entropy w0 48 16))
    ∧ api_key_id g = uuid_str (uuid_int (entropy w0 64 16))
    ∧ Calendar.add_days (clock w0 (ticks w0)) 365 = Ok (expires_at g)
    ∧ drawn w' = drawn w0 + 80
    ∧ ticks w' = ticks w0 + 2
    ∧ (∀ i, urandom w' i = urandom w0 i)
    ∧ (∀ i, clock w' i = clock w0 i).
Proof.
  eexists _, _.
  eapply (script_draws_disjoint_entropy w0). vm_compute. reflexivity.
Defined.

(** X4. The [expires_at] of line 25 never reaches the output: two runs that
    draw the same 80 bytes and take the same second clock reading print the
    same text, whatever their first clock readings are. *)
Theorem output_ignores_first_clock_reading
    (wa wb wa' wb' : world) (ga gb : globals) :
  entropy wa 0 80 = entropy wb 0 80 →
  clock wa (S (ticks wa)) = clock wb (S (ticks wb)) →
  script wa = (Ok ga, wa') → script wb = (Ok gb, wb') →
  ∃ out, stdout wa' = stdout wa ++ out ∧ stdout wb' = stdout wb ++ out.
Proof.
  intros Hentropy Hclock (ea & _ & -> & ->)%script_globals
         (eb & _ & -> & ->)%script_globals.
  cbn [stdout]. eexists. split; [reflexivity|]. f_equal.
  rewrite <- Hclock. apply format_ext. intros x.
  assert (∀ off n, off + n ≤ 80 → entropy wb off n = entropy wa off n) as Hs.
  { intros off n Hle.
    by rewrite (entropy_slice wa off n 80), (entropy_slice wb off n 80),
               Hentropy by done. }
  destruct x; cbn [fields globals_of secret org_id user_id password_hash
                   api_key_id fingerprint];
    rewrite ?Hs by lia; reflexivity.
Qed.

Lemma output_ignores_first_clock_reading_witness :
  (expires_at <$> (script w0).1) ≠ (expires_at <$> (script w0_delayed).1)
  ∧ ∃ out,
      stdout (script w0).2 = stdout w0 ++ out
      ∧ stdout (script w0_delayed).2 = stdout w0_delayed ++ out.
Proof.
  split; [vm_compute; discriminate|].
  eapply (output_ignores_first_clock_reading
            w0 w0_delayed (script w0).2 (script w0_delayed).2);
    vm_compute; reflexivity.
Defined.

(** *** The digits of a formatted number *)

Lemma digits_lookup (base : N) (fuel : nat) :
  (1 < base)%N →
  ∀ (n : N) (k j : nat),
    1 ≤ k → (n < base ^ N.of_nat fuel)%N → (n < base ^ N.of_nat k)%N → j < k →
    (replicate (k - length (digits base fuel n)) 48%N ++ digits base fuel n) !! j
    = Some (digit_char ((n / base ^ N.of_nat (k - 1 - j)) mod base)).
Proof.
  intros Hbase. induction fuel as [|fuel IH]; intros n k j Hk Hfuel Hn Hj.
  - simpl in Hfuel. assert (n = 0%N) as -> by lia.
    cbn [digits length]. rewrite app_nil_r, lookup_replicate_2 by lia.
    by rewrite N.Div0.div_0_l, N.Div0.mod_0_l.
  - cbn [digits]. destruct (N.ltb_spec n base) as [Hlt|Hge].
    + cbn [length]. destruct (decide (j = k - 1)) as [->|Hne].
      * rewrite lookup_app_r by (rewrite length_replicate; lia).
        rewrite length_replicate.
        replace (k - 1 - (k - 1)) with 0 by lia.
        cbn [lookup list_lookup N.of_nat]. rewrite N.pow_0_r, N.div_1_r.
        by rewrite N.mod_small.
      * rewrite lookup_app_l by (rewrite length_replicate; lia).
        rewrite lookup_replicate_2 by lia.
        rewrite N.div_small; [by rewrite N.Div0.mod_0_l|].
        eapply N.lt_le_trans; [exact Hlt|].
        rewrite <- (N.pow_1_r base) at 1.
        apply N.pow_le_mono_r; lia.
    + destruct k as [|[|k]]; [lia| |].
      { rewrite N.pow_1_r in Hn. lia. }
      assert (n / base < base ^ N.of_nat (S k))%N as Hdiv.
      { apply N.Div0.div_lt_upper_bound.
        replace (N.of_nat (S (S k))) with (N.succ (N.of_nat (S k))) in Hn
          by lia.
        by rewrite N.pow_succ_r' in Hn. }
      assert (n / base < base ^ N.of_nat fuel)%N as Hdiv'.
      { apply N.Div0.div_lt_upper_bound.
        replace (N.of_nat (S fuel)) with (N.succ (N.of_nat fuel)) in Hfuel
          by lia.
        by rewrite N.pow_succ_r' in Hfuel. }
      pose proof (digits_length base fuel ltac:(lia) (S k) (n / base)%N
                    ltac:(lia) Hdiv) as Hlen.
      rewrite length_app. cbn [length].
      replace (S (S k) - (length (digits base fuel (n / base)) + 1))
        with (S k - length (digits base fuel (n / base))) by lia.
      rewrite app_assoc.
      destruct (decide (j = S k)) as [->|Hne].
      * rewrite lookup_app_r
          by (rewrite length_app, length_replicate; lia).
        rewrite length_app, length_replicate.
        replace (S k - (S k - length (digits base fuel (n / base))
                        + length (digits base fuel (n / base)))) with 0 by lia.
        replace (S (S k) - 1 - S k) with 0 by lia.
        cbn [lookup list_lookup N.of_nat]. by rewrite N.pow_0_r, N.div_1_r.
      * rewrite lookup_app_l
          by (rewrite length_app, length_replicate; lia).
        rewrite (IH (n / base)%N (S k) j) by (done || lia).
        do 2 f_equal. rewrite N.Div0.div_div. f_equal.
        replace (S (S k) - 1 - j) with (S (S k - 1 - j)) by lia.
        replace (N.of_nat (S (S k - 1 - j)))
          with (N.succ (N.of_nat (S k - 1 - j))) by lia.
        by rewrite N.pow_succ_r'.
Qed.

(** The [j]-th character of a zero-padded number is its digit of weight
    [base ^ (width - 1 - j)]. *)
Lemma zfill_lookup (base : N) (width j : nat) (n : N) :
  (1 < base)%N → (n < base ^ N.of_nat width)%N → j < width →
  zfill base width n !! j
  = Some (digit_char ((n / base ^ N.of_nat (width - 1 - j)) mod base)).
Proof.
  intros Hbase Hn Hj. unfold zfill.
  apply digits_lookup; [done|lia| |done|done].
  destruct (N.eq_dec n 0%N) as [->|Hne].
  { apply N.neq_0_lt_0, N.pow_nonzero. lia. }
  eapply N.lt_le_trans; [apply N.log2_spec; lia|].
  replace (N.of_nat (S (N.to_nat (N.log2 n)))) with (N.succ (N.log2 n)) by lia.
  apply N.pow_le_mono_l. lia.
Qed.

Lemma digits_chars (base : N) (fuel : nat) (n : N) :
  (0 < base)%N →
  Forall (λ c, ∃ d, (d < base)%N ∧ c = digit_char d) (digits base fuel n).
Proof.
  intros Hbase. revert n. induction fuel as [|fuel IH]; intros n; [done|].
  cbn [digits]. destruct (N.ltb_spec n base) as [Hlt|Hge].
  - apply Forall_singleton. by exists n.
  - apply Forall_app. split; [apply IH|].
    apply Forall_singleton. exists (n mod base)%N.
    split; [|done]. apply N.mod_lt. lia.
Qed.

Lemma zfill_chars (base : N) (width : nat) (n : N) :
  (0 < base)%N →
  Forall (λ c, ∃ d, (d < base)%N ∧ c = digit_char d) (zfill base width n).
Proof.
  intros Hbase. unfold zfill. apply Forall_app. split.
  - apply Forall_replicate. by exists 0%N.
  - by apply digits_chars.
Qed.

Lemma digit_char_in (base : N) (alphabet : list N) :
  forallb (λ d, bool_decide (digit_char d ∈ alphabet))
          (N.of_nat <$> seq 0 (N.to_nat base)) = true →
  ∀ c, (∃ d, (d < base)%N ∧ c = digit_char d) → c ∈ alphabet.
Proof.
  intros Hall c (d & Hd & ->).
  eapply bool_decide_eq_true_1.
  apply (below_forallb (N.to_nat base)
           (λ d, bool_decide (digit_char d ∈ alphabet)) Hall). lia.
Qed.

Lemma all_plain (alphabet : list N) :
  forallb plain alphabet = true → ∀ c, c ∈ alphabet → plain c = true.
Proof.
  intros Hall c Hc. rewrite forallb_forall in Hall.
  apply Hall. by apply list_elem_of_In.
Qed.

(** *** [str(uuid.uuid4())] *)

Lemma nibble_testbit (i k j : N) :
  (j < 4)%N → N.testbit ((i / 2 ^ k) mod 16) j = N.testbit i (j + k).
Proof.
  intros Hj. change 16%N with (2 ^ 4)%N.
  rewrite N.mod_pow2_bits_low by done. apply N.div_pow2_bits.
Qed.

Ltac uuid_bit :=
  unfold uuid_int; cbv zeta;
  repeat (rewrite N.lor_spec || rewrite N.ldiff_spec);
  match goal with
  | |- context [N.testbit (int_from_bytes ?bs) ?k] =>
      generalize (N.testbit (int_from_bytes bs) k)
  end;
  let b := fresh "b" in intros b; vm_compute; by destruct b.

(** The version field, bits 76 to 79, holds 4. *)
Lemma uuid_int_version (bs : list byte) :
  ((uuid_int bs / 16 ^ 19) mod 16 = 4)%N.
Proof.
  change (16 ^ 19)%N with (2 ^ 76)%N.
  assert (N.testbit ((uuid_int bs / 2 ^ 76) mod 16) 0 = false) as H0
    by (rewrite nibble_testbit by done; uuid_bit).
  assert (N.testbit ((uuid_int bs / 2 ^ 76) mod 16) 1 = false) as H1
    by (rewrite nibble_testbit by done; uuid_bit).
  assert (N.testbit ((uuid_int bs / 2 ^ 76) mod 16) 2 = true) as H2
    by (rewrite nibble_testbit by done; uuid_bit).
  assert (N.testbit ((uuid_int bs / 2 ^ 76) mod 16) 3 = false) as H3
    by (rewrite nibble_testbit by done; uuid_bit).
  assert ((uuid_int bs / 2 ^ 76) mod 16 < 16)%N as Hlt by (apply N.mod_lt; lia).
  revert H0 H1 H2 H3 Hlt.
  generalize ((uuid_int bs / 2 ^ 76) mod 16)%N. intros v.
  rewrite !N.testbit_false, N.testbit_true.
  change (2 ^ 0)%N with 1%N. change (2 ^ 1)%N with 2%N.
  change (2 ^ 2)%N with 4%N. change (2 ^ 3)%N with 8%N.
  intros. apply N2Z.inj.
  repeat match goal with
  | H : _ = _ :> N |- _ =>
      apply (f_equal Z.of_N) in H;
      rewrite ?N2Z.inj_mod, ?N2Z.inj_div in H; cbn [Z.of_N] in H
  end.
  apply N2Z.inj_lt in Hlt. cbn [Z.of_N] in *.
  pose proof (N2Z.is_nonneg v). Z.div_mod_to_equations. lia.
Qed.

(** The variant field, bits 62 and 63, holds binary 10. *)
Lemma uuid_int_variant (bs : list byte) :
  (8 ≤ (uuid_int bs / 16 ^ 15) mod 16 ≤ 11)%N.
Proof.
  change (16 ^ 15)%N with (2 ^ 60)%N.
  assert (N.testbit ((uuid_int bs / 2 ^ 60) mod 16) 2 = false) as H2
    by (rewrite nibble_testbit by done; uuid_bit).
  assert (N.testbit ((uuid_int bs / 2 ^ 60) mod 16) 3 = true) as H3
    by (rewrite nibble_testbit by done; uuid_bit).
  assert ((uuid_int bs / 2 ^ 60) mod 16 < 16)%N as Hlt by (apply N.mod_lt; lia).
  revert H2 H3 Hlt.
  generalize ((uuid_int bs / 2 ^ 60) mod 16)%N. intros v.
  rewrite N.testbit_false, N.testbit_true.
  change (2 ^ 2)%N with 4%N. change (2 ^ 3)%N with 8%N.
  intros.
  repeat match goal with
  | H : _ = _ :> N |- _ =>
      apply (f_equal Z.of_N) in H;
      rewrite ?N2Z.inj_mod, ?N2Z.inj_div in H; cbn [Z.of_N] in H
  end.
  apply N2Z.inj_lt in Hlt. cbn [Z.of_N] in *.
  pose proof (N2Z.is_nonneg v).
  enough (8 ≤ Z.of_N v ≤ 11)%Z by lia.
  Z.div_mod_to_equations. lia.
Qed.

Lemma uuid_str_chars (i : N) :
  Forall (λ c, c ∈ lit "0123456789abcdef-") (uuid_str i).
Proof.
  assert (Forall (λ c, c ∈ lit "0123456789abcdef-") (zfill 16 32 i)) as Hh.
  { eapply Forall_impl; [by apply zfill_chars|].
    by apply digit_char_in. }
  assert (45%N ∈ lit "0123456789abcdef-") as Hdash
    by by eapply (bool_decide_eq_true_1 _).
  unfold uuid_str. cbv zeta. change (lit "-") with [45%N].
  rewrite !Forall_app, !Forall_singleton.
  repeat split; auto using Forall_take, Forall_drop.
Qed.

(** X5. Whatever 16 bytes the entropy source returns, the identifier made of
    them is a canonical version-4 UUID text: 36 characters, hyphens at
    positions 8, 13, 18 and 23, the version digit [4] at position 14, one of
    [8], [9], [a], [b] (the RFC 4122 variant) at position 19, and lower-case
    hexadecimal digits everywhere else. *)
Theorem uuid4_canonical (bs : list byte) :
  length bs = 16 →
  let u := uuid_str (uuid_int bs) in
  length u = 36
  ∧ (∀ k, k ∈ [8; 13; 18; 23] → u !! k = Some 45%N)
  ∧ u !! 14 = Some 52%N
  ∧ (∃ c, c ∈ lit "89ab" ∧ u !! 19 = Some c)
  ∧ (∀ k c, u !! k = Some c → k ∉ [8; 13; 18; 23] →
            c ∈ lit "0123456789abcdef").
Proof.
  intros Hbs. cbv zeta.
  pose proof (uuid_int_bound bs Hbs) as Hbound.
  pose proof (zfill_length 16 32 (uuid_int bs) ltac:(done) ltac:(lia) Hbound)
    as Hlen.
  pose proof (zfill_lookup 16 32 12 (uuid_int bs) ltac:(done) Hbound
                ltac:(lia)) as Hversion.
  pose proof (zfill_lookup 16 32 16 (uuid_int bs) ltac:(done) Hbound
                ltac:(lia)) as Hvariant.
  change (N.of_nat (32 - 1 - 12)) with 19%N in Hversion.
  change (N.of_nat (32 - 1 - 16)) with 15%N in Hvariant.
  rewrite uuid_int_version in Hversion.
  pose proof (uuid_int_variant bs) as Hv.
  assert (Forall (λ c, c ∈ lit "0123456789abcdef") (zfill 16 32 (uuid_int bs)))
    as Hhex.
  { eapply Forall_impl; [by apply zfill_chars|]. by apply digit_char_in. }
  assert (∃ c, c ∈ lit "89ab" ∧ zfill 16 32 (uuid_int bs) !! 16 = Some c)
    as Hvar.
  { eexists. split; [|exact Hvariant].
    revert Hv. generalize ((uuid_int bs / 16 ^ 15) mod 16)%N. intros v Hv.
    assert (v = 8 ∨ v = 9 ∨ v = 10 ∨ v = 11)%N as [->|[->|[->| ->]]] by lia;
      by eapply (bool_decide_eq_true_1 _). }
  clear Hvariant Hv.
  unfold uuid_str. cbv zeta.
  revert Hlen Hversion Hvar Hhex.
  generalize (zfill 16 32 (uuid_int bs)). intros h Hlen Hversion Hvar Hhex.
  do 32 (destruct h as [|? h]; [discriminate Hlen|]).
  destruct h; [|discriminate Hlen].
  cbn [take drop app lit fmap list_fmap list_ascii_of_string N_of_ascii
       N_of_digits] in *.
  split; [reflexivity|]. split.
  { intros k Hk. repeat (apply elem_of_cons in Hk as [->|Hk]; [reflexivity|]).
    by apply elem_of_nil in Hk. }
  split; [exact Hversion|]. split; [exact Hvar|].
  intros k c Hk Hdash. rewrite Forall_forall in Hhex.
  do 36 (destruct k as [|k];
         [first [ exfalso; apply Hdash; by eapply (bool_decide_eq_true_1 _)
                | injection Hk as <-; apply Hhex, list_elem_of_In;
                  apply (bool_decide_eq_true_1 _); by rewrite bool_decide_true
                    by (apply list_elem_of_In; repeat constructor) ]|]).
  discriminate Hk.
Qed.

Lemma uuid4_canonical_witness :
  let u := uuid_str (uuid_int (entropy w0 32 16)) in
  length u = 36
  ∧ (∀ k, k ∈ [8; 13; 18; 23] → u !! k = Some 45%N)
  ∧ u !! 14 = Some 52%N
  ∧ (∃ c, c ∈ lit "89ab" ∧ u !! 19 = Some c)
  ∧ (∀ k c, u !! k = Some c → k ∉ [8; 13; 18; 23] →
            c ∈ lit "0123456789abcdef").
Proof. apply (uuid4_canonical (entropy w0 32 16)). reflexivity. Defined.

(** *** What is interpolated into the SQL text *)

Lemma isoformat_chars (d : datetime) :
  Forall (λ c, c ∈ lit "0123456789-T:.") (Calendar.isoformat d).
Proof.
  assert (∀ width n, Forall (λ c, c ∈ lit "0123456789-T:.")
                            (zfill 10 width n)) as Hdigits.
  { intros width n. eapply Forall_impl; [by apply zfill_chars|].
    by apply digit_char_in. }
  assert (∀ c, c ∈ [45; 84; 58; 46]%N → c ∈ lit "0123456789-T:.") as Hsep.
  { intros c Hc.
    repeat (apply elem_of_cons in Hc as [->|Hc];
            [by eapply (bool_decide_eq_true_1 _)|]).
    by apply elem_of_nil in Hc. }
  unfold Calendar.isoformat.
  change (lit "-") with [45%N]. change (lit "T") with [84%N].
  change (lit ":") with [58%N]. change (lit ".") with [46%N].
  destruct (microsecond d =? 0)%Z;
    rewrite !Forall_app, ?Forall_singleton;
    repeat split;
    first [ apply Hdigits | apply Forall_nil_2
          | apply Hsep; by eapply (bool_decide_eq_true_1 _) ].
Qed.

(** X6. No value that a run interpolates into the SQL text can end the
    quoted literal or the comment it stands in: the three identifiers are made
    of hexadecimal digits and hyphens, the secret and the fingerprint of the
    URL-safe alphabet, the timestamp of digits and [-T:.], and none of the
    seven fields holds a quote, a backslash or a line break. *)
Theorem interpolated_fields_are_plain (w w' : world) (g : globals) :
  script w = (Ok g, w') →
  let env := fields (Calendar.isoformat (clock w (S (ticks w)))) g in
  Forall (λ c, c ∈ lit "0123456789abcdef-")
         (org_id g ++ user_id g ++ api_key_id g)
  ∧ Forall (λ c, c ∈ b64url_alphabet) (secret g ++ fingerprint g)
  ∧ Forall (λ c, c ∈ lit "0123456789-T:.") (env Generated)
  ∧ ∀ x, Forall (λ c, plain c = true) (env x).
Proof.
  intros (e & _ & -> & _)%script_globals. cbv zeta.
  cbn [org_id user_id api_key_id secret fingerprint globals_of].
  assert (∀ bs, Forall (λ c, c ∈ b64url_alphabet) (b64url_nopad bs)) as Hb64.
  { intros bs. eapply Forall_impl; [apply b64url_nopad_alphabet|].
    by intros c (Hc & _). }
  split; [rewrite !Forall_app; repeat split; apply uuid_str_chars|].
  split; [rewrite Forall_app; split; apply Hb64|].
  split; [apply isoformat_chars|].
  intros x.
  destruct x; cbn [fields secret org_id user_id password_hash api_key_id
                   fingerprint globals_of].
  - eapply Forall_impl; [apply isoformat_chars|]. by apply all_plain.
  - eapply Forall_impl; [apply Hb64|]. by apply all_plain.
  - eapply Forall_impl; [apply uuid_str_chars|]. by apply all_plain.
  - eapply Forall_impl; [apply uuid_str_chars|]. by apply all_plain.
  - apply Forall_forall. intros c Hc. by apply (all_plain password_hash_literal).
  - eapply Forall_impl; [apply uuid_str_chars|]. by apply all_plain.
  - eapply Forall_impl; [apply Hb64|]. by apply all_plain.
Qed.

Lemma interpolated_fields_are_plain_witness :
  ∃ g,
    let env := fields (Calendar.isoformat (clock w0 (S (ticks w0)))) g in
    show (env OrgId) = "e3eaf1f8-ff06-4d14-9b22-2930373e454c"
    ∧ Forall (λ c, c ∈ lit "0123456789abcdef-")
             (org_id g ++ user_id g ++ api_key_id g)
    ∧ Forall (λ c, c ∈ b64url_alphabet) (secret g ++ fingerprint g)
    ∧ Forall (λ c, c ∈ lit "0123456789-T:.") (env Generated)
    ∧ ∀ x, Forall (λ c, plain c = true) (env x).
Proof.
  eexists. cbv zeta. split; last first.
  - eapply (interpolated_fields_are_plain w0 (script w0).2).
    vm_compute. reflexivity.
  - vm_compute. reflexivity.
Defined.

(** *** The fingerprint of an arbitrary text *)

Lemma utf8_encode_cp_ok (c : N) :
  is_surrogate c = false → (c < 0x110000)%N → ∃ bs, utf8_encode_cp c = Ok bs.
Proof.
  intros Hs Hc. unfold utf8_encode_cp. rewrite Hs.
  destruct (c <? 128)%N; [by eexists|].
  destruct (c <? 2048)%N; [by eexists|].
  destruct (c <? 65536)%N; [by eexists|].
  destruct (N.ltb_spec c 1114112) as [_|Hge]; [by eexists|lia].
Qed.

Lemma utf8_encode_cp_surrogate (c : N) :
  is_surrogate c = true → utf8_encode_cp c = Raise UnicodeEncodeError.
Proof.
  intros Hs. unfold utf8_encode_cp. rewrite Hs.
  unfold is_surrogate in Hs. apply andb_true_iff in Hs as [H1 H2].
  apply N.leb_le in H1, H2.
  destruct (N.ltb_spec c 128); [lia|].
  destruct (N.ltb_spec c 2048); [lia|]. reflexivity.
Qed.

Lemma encode_utf8_ok (s : list N) :
  Forall (λ c, is_surrogate c = false ∧ (c < 0x110000)%N) s →
  ∃ bs, encode_utf8 s = Ok bs.
Proof.
  induction 1 as [|c s [Hs Hc] _ [bs IH]]; [by eexists|].
  destruct (utf8_encode_cp_ok c Hs Hc) as [b Hb].
  cbn [encode_utf8]. rewrite Hb, IH. by eexists.
Qed.

Lemma encode_utf8_surrogate (s : list N) :
  Forall (λ c, (c < 0x110000)%N) s →
  Exists (λ c, is_surrogate c = true) s →
  encode_utf8 s = Raise UnicodeEncodeError.
Proof.
  intros Hrange Hex. induction s as [|c s IH]; [by apply Exists_nil in Hex|].
  apply Forall_cons in Hrange as [Hc Hrange].
  cbn [encode_utf8].
  destruct (is_surrogate c) eqn:Hs.
  { by rewrite utf8_encode_cp_surrogate. }
  destruct (utf8_encode_cp_ok c Hs Hc) as [b ->].
  apply Exists_cons in Hex as [Hex|Hex]; [congruence|].
  cbn [mbind result_bind]. by rewrite IH.
Qed.

(** X7. The fingerprint of any text of Unicode code points: when the text
    holds no surrogate code point it is a text of exactly 43 characters of
    the URL-safe alphabet, without [=]; when it holds one, [encode] raises
    [UnicodeEncodeError] and there is no fingerprint. *)
Theorem fingerprint_of_any_text (s : list N) :
  Forall (λ c, (c < 0x110000)%N) s →
  (Forall (λ c, is_surrogate c = false) s →
   ∃ f, fingerprint_of s = Ok f ∧ length f = 43
        ∧ Forall (λ c, c ∈ b64url_alphabet ∧ c ≠ 61%N) f)
  ∧ (Exists (λ c, is_surrogate c = true) s →
     fingerprint_of s = Raise UnicodeEncodeError).
Proof.
  intros Hrange. unfold fingerprint_of, fingerprint_digest. split.
  - intros Hs.
    destruct (encode_utf8_ok s) as [bs ->].
    { rewrite Forall_forall in Hrange, Hs. apply Forall_forall. auto. }
    cbn [fmap result_fmap mbind result_bind].
    rewrite fingerprint_text_nopad. eexists. split; [reflexivity|].
    split; [apply b64url_nopad_32, sha256_length|].
    eapply Forall_impl; [apply b64url_nopad_alphabet|].
    by intros c (Hc & Hpad & _).
  - intros Hex. by rewrite encode_utf8_surrogate.
Qed.

Lemma fingerprint_of_any_text_witness :
  (Forall (λ c, is_surrogate c = false) [0x41; 0xD800; 0x42]%N →
   ∃ f, fingerprint_of [0x41; 0xD800; 0x42]%N = Ok f ∧ length f = 43
        ∧ Forall (λ c, c ∈ b64url_alphabet ∧ c ≠ 61%N) f)
  ∧ (Exists (λ c, is_surrogate c = true) [0x41; 0xD800; 0x42]%N →
     fingerprint_of [0x41; 0xD800; 0x42]%N = Raise UnicodeEncodeError).
Proof.
  apply (fingerprint_of_any_text [0x41; 0xD800; 0x42]%N).
  repeat constructor.
Defined.

(** *** The printed text and the transaction *)

Lemma lines_app (l1 l2 : list (list item)) :
  l1 ≠ [] → l2 ≠ [] → lines (l1 ++ l2) = lines l1 ++ Ch nl :: lines l2.
Proof.
  intros H1 H2. induction l1 as [|a [|b l1] IH]; [done| |].
  - destruct l2; [done|]. reflexivity.
  - change (lines ((a :: b :: l1) ++ l2))
      with (a ++ Ch nl :: lines ((b :: l1) ++ l2)).
    rewrite IH by done.
    change (lines (a :: b :: l1)) with (a ++ Ch nl :: lines (b :: l1)).
    by rewrite <- app_assoc.
Qed.

Lemma format_ch (env : var → list N) (c : N) (t : list item) :
  format env (Ch c :: t) = [c] ++ format env t.
Proof. reflexivity. Qed.

(** X8. What a completed run prints, piece by piece: the comment banner,
    then the transaction - [BEGIN;], the three upsert statements in the
    order organization, user, credential, [COMMIT;] - in the concrete syntax
    of [render_transaction], then the verification comments, then the eight
    summary lines; each piece filled in with the fields of the run. *)
Theorem script_prints_the_transaction (w w' : world) (g : globals) :
  script w = (Ok g, w') →
  let env := fields (Calendar.isoformat (clock w (S (ticks w)))) g in
  stdout w'
  = stdout w
    ++ format env (lines banner) ++ [nl]
    ++ format env (lines (render_transaction setup_statements)) ++ [nl]
    ++ format env (lines verification_queries) ++ [nl]
    ++ format env (summary_templates ≫= λ t, t ++ [Ch nl]).
Proof.
  intros (e & _ & _ & ->)%script_globals. cbv zeta. cbn [stdout]. f_equal.
  unfold output_template. rewrite setup_template_parses.
  rewrite lines_app; [|by vm_compute|by vm_compute].
  rewrite lines_app; [|by vm_compute|by vm_compute].
  repeat (rewrite format_app || rewrite format_ch).
  change (format _ []) with (@nil N).
  rewrite <- !app_assoc. reflexivity.
Qed.

Lemma script_prints_the_transaction_witness :
  let env := fields (Calendar.isoformat (clock w0 (S (ticks w0))))
                    (globals_of w0 (DateTime 2027 11 6 1 10 0 123456)) in
  stdout (script w0).2
  = stdout w0
    ++ format env (lines banner) ++ [nl]
    ++ format env (lines (render_transaction setup_statements)) ++ [nl]
    ++ format env (lines verification_queries) ++ [nl]
    ++ format env (summary_templates ≫= λ t, t ++ [Ch nl]).
Proof.
  apply (script_prints_the_transaction w0 (script w0).2).
  vm_compute. reflexivity.
Defined.

(** ** The transaction as a whole *)

Lemma schema_users :
  schema !! "users"
  = Some (Constraints [["user_id"]; ["org_id"; "email"]]
                      [("org_id", ("orgs", "org_id"))]).
Proof. reflexivity. Qed.

Lemma users_agree (env : var → list N) (now : Z) (r : gmap string value) :
  agree ["org_id"; "email"] r (new_row env now users_insert) = true
  ↔ has_email (env OrgId) (lit "e2e-admin@ai-aas.dev") r.
Proof.
  unfold agree, has_email. cbn [forallb].
  change (new_row env now users_insert !! "org_id")
    with (Some (VText (format env (hole OrgId)))).
  change (new_row env now users_insert !! "email")
    with (Some (VText (lit "e2e-admin@ai-aas.dev"))).
  rewrite !format_hole, !andb_true_iff.
  destruct (r !! "org_id") as [v1|], (r !! "email") as [v2|];
    rewrite ?bool_decide_eq_true; intuition congruence.
Qed.

Lemma users_updated (env : var → list N) (now : Z) (r : gmap string value) :
  updated env now users_insert r
  = <["password_hash" := VText (env PasswordHash)]>
      (<["status" := VText (lit "active")]> r).
Proof.
  change (updated env now users_insert r)
    with (<["password_hash" := VText (format env (hole PasswordHash))]>
            (<["status" := VText (lit "active")]> r)).
  by rewrite format_hole.
Qed.

(** A statement that succeeds either appends the proposed row or rewrites
    one stored row in place. *)
Lemma exec_insert_inr (env : var → list N) (now : Z) (i : insert)
    (db db' : gmap string (list (gmap string value))) :
  exec_insert schema env now i db = inr db' →
  ∃ rows rows',
    db !! into i = Some rows ∧ db' = <[into i := rows']> db ∧
    (rows' = rows ++ [new_row env now i]
     ∨ ∃ k old, rows !! k = Some old
                ∧ rows' = <[k := updated env now i old]> rows).
Proof.
  unfold exec_insert.
  destruct (schema !! into i) as [cs|]; [|done].
  destruct (db !! into i) as [rows|]; [|done].
  destruct (negb (length (columns i) =? length (row i))); [done|].
  destruct (negb (bool_decide (conflict i ∈ unique cs))); [done|].
  cbv zeta.
  destruct (list_find _ rows) as [[k old]|] eqn:Hfind.
  - destruct (existsb _ (unique cs)); [done|].
    destruct (negb _); [done|]. intros [= <-].
    exists rows, (<[k := updated env now i old]> rows).
    split; [done|]. split; [done|]. right. exists k, old.
    by apply list_find_Some in Hfind as (Hk & _).
  - destruct (existsb _ (unique cs)); [done|].
    destruct (negb _); [done|]. intros [= <-].
    exists rows, (rows ++ [new_row env now i]). by auto.
Qed.

(** Running a statement a second time, with the same field values, meets
    the row that the first run wrote. *)
Lemma exec_insert_again (env : var → list N) (now1 now2 : Z) (i : insert)
    (cs : constraints) (db db1 : gmap string (list (gmap string value))) :
  schema !! into i = Some cs →
  length (columns i) = length (row i) →
  conflict i ∈ unique cs →
  forallb (λ u, negb (existsb (assigned i) u)) (unique cs) = true →
  forallb (λ fk, negb (assigned i fk.1)) (references cs) = true →
  agree (conflict i) (new_row env now1 i) (new_row env now1 i) = true →
  (∀ c, c ∈ conflict i → new_row env now2 i !! c = new_row env now1 i !! c) →
  exec_insert schema env now1 i db = inr db1 →
  ∃ rows1 k r,
    db1 = <[into i := rows1]> db ∧ rows1 !! k = Some r ∧
    agree (conflict i) r (new_row env now1 i) = true ∧
    (r = new_row env now1 i ∨ ∃ old, r = updated env now1 i old) ∧
    ∀ db2, db2 !! into i = Some rows1 →
      exec_insert schema env now2 i db2
      = inr (<[into i := <[k := updated env now2 i r]> rows1]> db2).
Proof.
  intros Hcs Hwf Harb Hkeys Hrefs Hself Hnow Hexec.
  assert (∀ r, agree (conflict i) r (new_row env now2 i)
               = agree (conflict i) r (new_row env now1 i)) as Hsame.
  { intros r. by apply agree_ext_r. }
  assert (∀ c, c ∈ conflict i → assigned i c = false) as Hconflict.
  { intros c Hc. apply (forallb_elem _ _ _ Hkeys) in Harb.
    apply negb_true_iff in Harb.
    destruct (assigned i c) eqn:Hass; [|done].
    rewrite <- Harb. symmetry. apply existsb_exists. exists c.
    split; [by apply list_elem_of_In|done]. }
  destruct (db !! into i) as [rows|] eqn:Hrows; last first.
  { unfold exec_insert in Hexec. by rewrite Hcs, Hrows in Hexec. }
  destruct (list_find (λ r, agree (conflict i) r (new_row env now1 i) = true)
                      rows) as [[k old]|] eqn:Hfind.
  - rewrite (exec_insert_conflict env now1 i cs db rows Hcs Hrows Hwf Harb
               Hkeys Hrefs k old Hfind) in Hexec.
    injection Hexec as <-.
    apply list_find_Some in Hfind as (Hk & Hold & Hfirst).
    pose proof (lookup_lt_Some _ _ _ Hk) as Hlt.
    assert (agree (conflict i) (updated env now1 i old) (new_row env now1 i)
            = true) as Hupd.
    { rewrite <- Hold. apply agree_ext_l. intros c Hc.
      by apply updated_lookup, Hconflict. }
    exists (<[k := updated env now1 i old]> rows), k, (updated env now1 i old).
    split; [done|]. split; [by apply list_lookup_insert_eq|].
    split; [done|]. split; [right; by exists old|].
    intros db2 Hdb2.
    apply (exec_insert_conflict env now2 i cs db2 _ Hcs Hdb2 Hwf Harb
             Hkeys Hrefs).
    apply list_find_Some. split; [by apply list_lookup_insert_eq|].
    split; [by rewrite Hsame|].
    intros j y Hj Hjk. rewrite list_lookup_insert_ne in Hj by lia.
    rewrite Hsame. by apply (Hfirst j).
  - pose proof Hexec as Hdb1.
    apply (exec_insert_fresh env now1 i cs db rows Hcs Hrows Hwf Harb db1
             Hfind) in Hdb1.
    subst db1. apply list_find_None in Hfind. rewrite Forall_forall in Hfind.
    exists (rows ++ [new_row env now1 i]), (length rows), (new_row env now1 i).
    split; [done|]. split; [by apply list_lookup_middle|].
    split; [done|]. split; [by left|].
    intros db2 Hdb2.
    apply (exec_insert_conflict env now2 i cs db2 _ Hcs Hdb2 Hwf Harb
             Hkeys Hrefs).
    apply list_find_Some. split; [by apply list_lookup_middle|].
    split; [by rewrite Hsame|].
    intros j y Hj Hjk. rewrite lookup_app_l in Hj by done.
    rewrite Hsame. apply Hfind, list_elem_of_lookup. by exists j.
Qed.

Lemma agree_refl (cols : list string) (r : gmap string value) :
  (∀ c, c ∈ cols → is_Some (r !! c)) → agree cols r r = true.
Proof.
  intros Hcols. unfold agree. apply forallb_all. intros c Hc.
  destruct (Hcols c Hc) as [v ->]. by apply bool_decide_eq_true.
Qed.

Ltac has_columns :=
  apply agree_refl;
  let c := fresh "c" in let Hc := fresh "Hc" in
  intros c Hc;
  repeat (apply elem_of_cons in Hc as [->|Hc]; [by eexists|]);
  by apply elem_of_nil in Hc.

Ltac in_columns Hc :=
  repeat (apply elem_of_cons in Hc as [->|Hc]; [reflexivity|]);
  by apply elem_of_nil in Hc.

(** The organization statement, run again, changes nothing. *)
Lemma orgs_insert_again (env : var → list N) (now1 now2 : Z)
    (db db1 : gmap string (list (gmap string value))) :
  exec_insert schema env now1 orgs_insert db = inr db1 →
  ∃ rows1,
    db1 = <["orgs" := rows1]> db ∧
    ∀ db2, db2 !! "orgs" = Some rows1 →
      exec_insert schema env now2 orgs_insert db2 = inr db2.
Proof.
  intros Hexec.
  destruct (exec_insert_again env now1 now2 orgs_insert _ db db1 schema_orgs
              eq_refl ltac:(by right; left) eq_refl eq_refl ltac:(has_columns)
              ltac:(intros c Hc; in_columns Hc) Hexec)
    as (rows1 & k & r & -> & Hk & _ & Hr & Hagain).
  exists rows1. split; [done|]. intros db2 Hdb2.
  rewrite (Hagain db2 Hdb2), orgs_updated.
  rewrite (insert_id r "status"); last first.
  { destruct Hr as [->|[old ->]]; [reflexivity|].
    rewrite orgs_updated. apply lookup_insert_eq. }
  rewrite list_insert_id by done. by rewrite insert_id.
Qed.

(** The user statement, run again, changes nothing. *)
Lemma users_insert_again (env : var → list N) (now1 now2 : Z)
    (db db1 : gmap string (list (gmap string value))) :
  exec_insert schema env now1 users_insert db = inr db1 →
  ∃ rows1,
    db1 = <["users" := rows1]> db ∧
    ∀ db2, db2 !! "users" = Some rows1 →
      exec_insert schema env now2 users_insert db2 = inr db2.
Proof.
  intros Hexec.
  destruct (exec_insert_again env now1 now2 users_insert _ db db1 schema_users
              eq_refl ltac:(by right; left) eq_refl eq_refl ltac:(has_columns)
              ltac:(intros c Hc; in_columns Hc) Hexec)
    as (rows1 & k & r & -> & Hk & _ & Hr & Hagain).
  exists rows1. split; [done|]. intros db2 Hdb2.
  rewrite (Hagain db2 Hdb2), users_updated.
  assert (r !! "status" = Some (VText (lit "active"))
          ∧ r !! "password_hash" = Some (VText (env PasswordHash)))
    as [Hstatus Hhash].
  { destruct Hr as [->|[old ->]].
    - split; [reflexivity|].
      change (new_row env now1 users_insert !! "password_hash")
        with (Some (VText (format env (hole PasswordHash)))).
      by rewrite format_hole.
    - rewrite users_updated. split.
      + rewrite lookup_insert_ne by done. apply lookup_insert_eq.
      + apply lookup_insert_eq. }
  rewrite (insert_id r "status") by done.
  rewrite (insert_id r "password_hash") by done.
  rewrite list_insert_id by done. by rewrite insert_id.
Qed.

(** The credential statement, run again, refreshes [expires_at]. *)
Lemma api_keys_insert_again (env : var → list N) (now1 now2 : Z)
    (db db1 : gmap string (list (gmap string value))) :
  exec_insert schema env now1 api_keys_insert db = inr db1 →
  ∃ rows1 k r,
    db1 = <["api_keys" := rows1]> db ∧ rows1 !! k = Some r ∧
    has_key (env OrgId) (env Fingerprint) r ∧
    (r = new_row env now1 api_keys_insert
     ∨ ∃ old, r = updated env now1 api_keys_insert old) ∧
    ∀ db2, db2 !! "api_keys" = Some rows1 →
      exec_insert schema env now2 api_keys_insert db2
      = inr (<["api_keys" :=
                 <[k := <["expires_at" := VTime (now2 + days 365)]> r]> rows1]>
               db2).
Proof.
  intros Hexec.
  destruct (exec_insert_again env now1 now2 api_keys_insert _ db db1
              schema_api_keys eq_refl ltac:(by right; left) eq_refl eq_refl
              ltac:(has_columns) ltac:(intros c Hc; in_columns Hc) Hexec)
    as (rows1 & k & r & -> & Hk & Hkey & Hr & Hagain).
  exists rows1, k, r. split; [done|]. split; [done|].
  split; [by apply (api_keys_agree env now1)|]. split; [done|].
  intros db2 Hdb2.
  rewrite (Hagain db2 Hdb2), api_keys_updated.
  rewrite (insert_id r "status"); [done|].
  destruct Hr as [->|[old ->]]; [reflexivity|].
  rewrite api_keys_updated, lookup_insert_ne by done. apply lookup_insert_eq.
Qed.

(** X9. Applying the emitted SQL a second time to the database it produced
    succeeds and changes one thing only: the [expires_at] of the credential
    row carrying the run's (org_id, fingerprint), which becomes the second
    transaction's [NOW()] plus 365 days. The organization and user tables,
    and every other credential row, are left exactly as they were. *)
Theorem replay_refreshes_expiry_only
    (env : var → list N) (now1 now2 : Z)
    (db db1 : gmap string (list (gmap string value))) :
  exec_transaction schema env now1 setup_statements db = inr db1 →
  ∃ keys k r,
    db1 !! "api_keys" = Some keys ∧ keys !! k = Some r ∧
    has_key (env OrgId) (env Fingerprint) r ∧
    exec_transaction schema env now2 setup_statements db1
    = inr (<["api_keys" :=
               <[k := <["expires_at" := VTime (now2 + days 365)]> r]> keys]>
             db1).
Proof.
  unfold setup_statements. cbn [exec_transaction].
  destruct (exec_insert schema env now1 orgs_insert db) as [|dbA] eqn:HA;
    [done|].
  destruct (exec_insert schema env now1 users_insert dbA) as [|dbB] eqn:HB;
    [done|].
  destruct (exec_insert schema env now1 api_keys_insert dbB) as [|dbC] eqn:HC;
    [done|].
  intros [= <-].
  destruct (orgs_insert_again env now1 now2 db dbA HA) as (orgs & -> & Horgs).
  destruct (users_insert_again env now1 now2 _ dbB HB) as (users & -> & Husers).
  destruct (api_keys_insert_again env now1 now2 _ dbC HC)
    as (keys & k & r & -> & Hk & Hkey & _ & Hkeys).
  exists keys, k, r.
  split; [apply lookup_insert_eq|]. split; [done|]. split; [done|].
  rewrite Horgs; last first.
  { rewrite !lookup_insert_ne by done. apply lookup_insert_eq. }
  rewrite Husers; last first.
  { rewrite lookup_insert_ne by done. apply lookup_insert_eq. }
  by rewrite Hkeys by apply lookup_insert_eq.
Qed.

Lemma replay_refreshes_expiry_only_witness :
  ∃ keys k r,
    <["api_keys" := [new_row env0 1000 api_keys_insert]]>
      (<["users" := [new_row env0 1000 users_insert]]>
         (<["orgs" := [new_row env0 1000 orgs_insert]]> fresh_db))
      !! "api_keys" = Some keys
    ∧ keys !! k = Some r ∧
    has_key (env0 OrgId) (env0 Fingerprint) r ∧
    exec_transaction schema env0 3000 setup_statements
      (<["api_keys" := [new_row env0 1000 api_keys_insert]]>
         (<["users" := [new_row env0 1000 users_insert]]>
            (<["orgs" := [new_row env0 1000 orgs_insert]]> fresh_db)))
    = inr (<["api_keys" :=
               <[k := <["expires_at" := VTime (3000 + days 365)]> r]> keys]>
             (<["api_keys" := [new_row env0 1000 api_keys_insert]]>
                (<["users" := [new_row env0 1000 users_insert]]>
                   (<["orgs" := [new_row env0 1000 orgs_insert]]> fresh_db)))).
Proof.
  apply (replay_refreshes_expiry_only env0 1000 3000 fresh_db).
  apply setup_on_fresh_database.
Defined.

(** *** A later run of the script against the same database *)

Lemma agree_one (c : string) (r1 r2 : gmap string value) :
  agree [c] r1 r2 = true → r1 !! c = r2 !! c.
Proof.
  unfold agree. cbn [forallb]. rewrite andb_true_r.
  destruct (r1 !! c), (r2 !! c); try done.
  by intros ->%bool_decide_eq_true.
Qed.

Lemma agree_first (c : string) (cols : list string)
    (r1 r2 : gmap string value) :
  agree (c :: cols) r1 r2 = true → r1 !! c = r2 !! c.
Proof.
  unfold agree. cbn [forallb]. intros [H _]%andb_true_iff.
  destruct (r1 !! c), (r2 !! c); try done.
  by apply bool_decide_eq_true in H as ->.
Qed.

Lemma new_user_org_id (env : var → list N) (now : Z) :
  new_row env now users_insert !! "org_id" = Some (VText (env OrgId)).
Proof.
  change (new_row env now users_insert !! "org_id")
    with (Some (VText (format env (hole OrgId)))).
  by rewrite format_hole.
Qed.

Lemma new_user_user_id (env : var → list N) (now : Z) :
  new_row env now users_insert !! "user_id" = Some (VText (env UserId)).
Proof.
  change (new_row env now users_insert !! "user_id")
    with (Some (VText (format env (hole UserId)))).
  by rewrite format_hole.
Qed.

Lemma new_org_org_id (env : var → list N) (now : Z) :
  new_row env now orgs_insert !! "org_id" = Some (VText (env OrgId)).
Proof.
  change (new_row env now orgs_insert !! "org_id")
    with (Some (VText (format env (hole OrgId)))).
  by rewrite format_hole.
Qed.

Lemma new_key_org_id (env : var → list N) (now : Z) :
  new_row env now api_keys_insert !! "org_id" = Some (VText (env OrgId)).
Proof.
  change (new_row env now api_keys_insert !! "org_id")
    with (Some (VText (format env (hole OrgId)))).
  by rewrite format_hole.
Qed.

Lemma new_key_api_key_id (env : var → list N) (now : Z) :
  new_row env now api_keys_insert !! "api_key_id"
  = Some (VText (env ApiKeyId)).
Proof.
  change (new_row env now api_keys_insert !! "api_key_id")
    with (Some (VText (format env (hole ApiKeyId)))).
  by rewrite format_hole.
Qed.

(** X10. The script as a whole is not re-runnable: when the database already
    holds the organization under the slug [e2e-admin-org], and none of its
    organizations or users carries the new run's [org_id] or [user_id] (they
    are freshly drawn), the organization upsert keeps the stored [org_id],
    the user row then references an organization that does not exist, and
    the transaction aborts with a foreign-key violation, changing nothing. *)
Theorem rerun_with_new_identifiers_aborts
    (env : var → list N) (now : Z)
    (db : gmap string (list (gmap string value)))
    (orgs users : list (gmap string value)) :
  db !! "orgs" = Some orgs → db !! "users" = Some users →
  (∃ r, r ∈ orgs ∧ has_slug (lit "e2e-admin-org") r) →
  (∀ r, r ∈ orgs → r !! "org_id" ≠ Some (VText (env OrgId))) →
  (∀ r, r ∈ users → r !! "org_id" ≠ Some (VText (env OrgId))) →
  (∀ r, r ∈ users → r !! "user_id" ≠ Some (VText (env UserId))) →
  exec_transaction schema env now setup_statements db
  = inl ForeignKeyViolation
  ∧ run_transaction schema env now setup_statements db = db.
Proof.
  intros Horgs Husers Hslug Hfresh Hfresh_org Hfresh_user.
  enough (exec_transaction schema env now setup_statements db
          = inl ForeignKeyViolation) as Habort.
  { split; [done|]. unfold run_transaction. by rewrite Habort. }
  unfold setup_statements. cbn [exec_transaction].
  destruct Hslug as (r0 & Hr0 & Hslug).
  destruct (list_find_elem_of
              (λ r, agree (conflict orgs_insert) r
                      (new_row env now orgs_insert) = true) orgs r0 Hr0)
    as [[k old] Hfind].
  { by apply orgs_agree. }
  rewrite (exec_insert_conflict env now orgs_insert _ db orgs schema_orgs
             Horgs eq_refl ltac:(by right; left) eq_refl eq_refl k old Hfind).
  apply list_find_Some in Hfind as (Hk & _ & _).
  cbv beta iota. rewrite orgs_updated. change (into orgs_insert) with "orgs".
  set (orgs' := <[k := <["status" := VText (lit "active")]> old]> orgs).
  set (dbA := <["orgs" := orgs']> db).
  assert (dbA !! "users" = Some users) as HusersA.
  { unfold dbA. by rewrite lookup_insert_ne. }
  rewrite (exec_insert_unfold env now users_insert _ dbA users schema_users
             HusersA eq_refl ltac:(by right; left)).
  cbv zeta. cbn [unique references].
  assert (list_find (λ r, agree (conflict users_insert) r
                            (new_row env now users_insert) = true) users
          = None) as ->.
  { apply list_find_None, Forall_forall. intros r Hr Hagree.
    apply agree_first in Hagree. rewrite new_user_org_id in Hagree.
    by apply (Hfresh_org r). }
  assert (existsb (λ u, existsb (agree u (new_row env now users_insert)) users)
                  [["user_id"]; ["org_id"; "email"]] = false) as ->.
  { cbn [existsb]. rewrite !existsb_none; [done| |].
    - intros r Hr. apply not_true_is_false. intros Hagree.
      apply agree_first in Hagree. rewrite new_user_org_id in Hagree.
      by apply (Hfresh_org r).
    - intros r Hr. apply not_true_is_false. intros Hagree.
      apply agree_one in Hagree. rewrite new_user_user_id in Hagree.
      by apply (Hfresh_user r). }
  assert (forallb (fk_holds dbA (new_row env now users_insert))
                  [("org_id", ("orgs", "org_id"))] = false) as ->; [|done].
  cbn [forallb]. rewrite andb_true_r. unfold fk_holds. cbn [fst snd].
  rewrite new_user_org_id. unfold dbA. rewrite lookup_insert_eq.
  change (default [] (Some orgs')) with orgs'.
  apply existsb_none. intros r Hr.
  apply bool_decide_eq_false. intros Hid.
  apply list_elem_of_lookup in Hr as [j Hj].
  destruct (decide (j = k)) as [->|Hne].
  - unfold orgs' in Hj.
    rewrite list_lookup_insert_eq in Hj by by eapply lookup_lt_Some.
    injection Hj as <-. rewrite lookup_insert_ne in Hid by done.
    apply (Hfresh old); [|done]. apply list_elem_of_lookup. by exists k.
  - unfold orgs' in Hj. rewrite list_lookup_insert_ne in Hj by done.
    apply (Hfresh r); [|done]. apply list_elem_of_lookup. by exists j.
Qed.

Lemma rerun_with_new_identifiers_aborts_witness :
  exec_transaction schema env1 5000 setup_statements db0_issued
  = inl ForeignKeyViolation
  ∧ run_transaction schema env1 5000 setup_statements db0_issued = db0_issued.
Proof.
  apply (rerun_with_new_identifiers_aborts env1 5000 db0_issued
           [new_row env0 1000 orgs_insert] [new_row env0 1000 users_insert]).
  - reflexivity.
  - reflexivity.
  - exists (new_row env0 1000 orgs_insert). split; [left|reflexivity].
  - intros r ->%list_elem_of_singleton. vm_compute. discriminate.
  - intros r ->%list_elem_of_singleton. vm_compute. discriminate.
  - intros r ->%list_elem_of_singleton. vm_compute. discriminate.
Defined.

(** *** The statements one by one *)

(** X11. When the user upsert meets a stored row with its (org_id, email),
    the statement succeeds and writes that row in place with [status] set to
    active and [password_hash] set to the script's literal: the stored
    [user_id] stays (the one proposed by the statement is discarded), as do
    all other columns, [updated_at] included; no row is added and the other
    rows are untouched. *)
Theorem user_upsert_conflict_keeps_identity
    (env : var → list N) (now : Z)
    (db : gmap string (list (gmap string value)))
    (rows : list (gmap string value)) :
  db !! "users" = Some rows →
  (∃ r, r ∈ rows ∧ has_email (env OrgId) (lit "e2e-admin@ai-aas.dev") r) →
  ∃ k old,
    rows !! k = Some old
    ∧ has_email (env OrgId) (lit "e2e-admin@ai-aas.dev") old ∧
    let new := <["password_hash" := VText (env PasswordHash)]>
                 (<["status" := VText (lit "active")]> old) in
    exec_insert schema env now users_insert db
      = inr (<["users" := <[k := new]> rows]> db) ∧
    new !! "user_id" = old !! "user_id" ∧
    new !! "updated_at" = old !! "updated_at" ∧
    (∀ c, c ≠ "status" → c ≠ "password_hash" → new !! c = old !! c) ∧
    length (<[k := new]> rows) = length rows ∧
    (∀ j, j ≠ k → <[k := new]> rows !! j = rows !! j).
Proof.
  intros Hrows (r & Hr & Hemail).
  destruct (list_find_elem_of
              (λ r, agree (conflict users_insert) r
                      (new_row env now users_insert) = true) rows r Hr)
    as [[k old] Hfind].
  { by apply users_agree. }
  exists k, old.
  pose proof Hfind as (Hk & Hold & _)%list_find_Some.
  apply users_agree in Hold.
  split; [done|]. split; [done|]. cbv zeta.
  split.
  { rewrite (exec_insert_conflict env now users_insert _ db rows
               schema_users Hrows eq_refl ltac:(by right; left)
               eq_refl eq_refl k old Hfind).
    by rewrite users_updated. }
  split; [by rewrite !lookup_insert_ne|].
  split; [by rewrite !lookup_insert_ne|].
  split; [intros c Hc1 Hc2; by rewrite !lookup_insert_ne|].
  split; [apply length_insert|].
  intros j Hj. by apply list_lookup_insert_ne.
Qed.

Lemma user_upsert_conflict_keeps_identity_witness :
  ∃ k old,
    [new_row env0 1000 users_insert] !! k = Some old
    ∧ has_email (env0 OrgId) (lit "e2e-admin@ai-aas.dev") old ∧
    let new := <["password_hash" := VText (env0 PasswordHash)]>
                 (<["status" := VText (lit "active")]> old) in
    exec_insert schema env0 3000 users_insert db0
      = inr (<["users" := <[k := new]> [new_row env0 1000 users_insert]]> db0)
    ∧ new !! "user_id" = old !! "user_id"
    ∧ new !! "updated_at" = old !! "updated_at"
    ∧ (∀ c, c ≠ "status" → c ≠ "password_hash" → new !! c = old !! c)
    ∧ length (<[k := new]> [new_row env0 1000 users_insert])
      = length [new_row env0 1000 users_insert]
    ∧ (∀ j, j ≠ k →
            <[k := new]> [new_row env0 1000 users_insert] !! j
            = [new_row env0 1000 users_insert] !! j).
Proof.
  apply (user_upsert_conflict_keeps_identity env0 3000 db0
           [new_row env0 1000 users_insert]).
  - reflexivity.
  - exists (new_row env0 1000 users_insert). split; [left|].
    by apply (users_agree env0 1000), agree_refl; intros c Hc;
      repeat (apply elem_of_cons in Hc as [->|Hc]; [by eexists|]);
      apply elem_of_nil in Hc.
Defined.

(** X12. A credential that the upsert created at one time and refreshed at a
    later time keeps the [issued_at], [created_at] and [updated_at] of its
    creation: only [expires_at] moves, to the later time plus 365 days, so
    the stored window from [issued_at] to [expires_at] is then longer than
    365 days by the time between the two transactions. *)
Theorem credential_refresh_keeps_issued_at
    (env : var → list N) (now1 now2 : Z)
    (db db1 : gmap string (list (gmap string value)))
    (rows : list (gmap string value)) :
  db !! "api_keys" = Some rows →
  (∀ r, r ∈ rows → ¬ has_key (env OrgId) (env Fingerprint) r) →
  exec_insert schema env now1 api_keys_insert db = inr db1 →
  ∃ r,
    exec_insert schema env now2 api_keys_insert db1
      = inr (<["api_keys" := rows ++ [r]]> db1) ∧
    r !! "issued_at" = Some (VTime now1) ∧
    r !! "created_at" = Some (VTime now1) ∧
    r !! "updated_at" = Some (VTime now1) ∧
    r !! "expires_at" = Some (VTime (now2 + days 365)) ∧
    r !! "status" = Some (VText (lit "active")).
Proof.
  intros Hrows Hnone Hexec.
  assert (list_find (λ r, agree (conflict api_keys_insert) r
                            (new_row env now1 api_keys_insert) = true) rows
          = None) as Hfind.
  { apply list_find_None, Forall_forall. intros r Hr Hagree.
    apply api_keys_agree in Hagree. by apply (Hnone r). }
  pose proof Hexec as Hdb1.
  apply (exec_insert_fresh env now1 api_keys_insert _ db rows schema_api_keys
           Hrows eq_refl ltac:(by right; left) db1 Hfind) in Hdb1.
  destruct (api_keys_insert_again env now1 now2 db db1 Hexec)
    as (rows1 & k & r & Hdb1' & Hk & Hkey & _ & Hagain).
  rewrite Hdb1 in Hdb1'.
  assert (rows1 = rows ++ [new_row env now1 api_keys_insert]) as ->.
  { apply (f_equal (λ m, m !! "api_keys")) in Hdb1'.
    rewrite !lookup_insert_eq in Hdb1'. by injection Hdb1'. }
  assert (k = length rows) as ->.
  { destruct (decide (k < length rows)) as [Hlt|Hge].
    - rewrite lookup_app_l in Hk by done. exfalso.
      apply (Hnone r); [|done]. apply list_elem_of_lookup. by exists k.
    - pose proof (lookup_lt_Some _ _ _ Hk) as Hlt.
      rewrite length_app in Hlt. simpl in Hlt. lia. }
  rewrite list_lookup_middle in Hk by done. injection Hk as <-.
  exists (<["expires_at" := VTime (now2 + days 365)]>
            (new_row env now1 api_keys_insert)).
  split.
  { rewrite (Hagain db1) by (rewrite Hdb1; apply lookup_insert_eq).
    do 2 f_equal.
    replace (length rows) with (length rows + 0) by lia.
    by rewrite insert_app_r. }
  split; [by rewrite lookup_insert_ne|].
  split; [by rewrite lookup_insert_ne|].
  split; [by rewrite lookup_insert_ne|].
  split; [apply lookup_insert_eq|by rewrite lookup_insert_ne].
Qed.

Lemma credential_refresh_keeps_issued_at_witness :
  ∃ r,
    exec_insert schema env0 3000 api_keys_insert db0_issued
      = inr (<["api_keys" := [] ++ [r]]> db0_issued) ∧
    r !! "issued_at" = Some (VTime 1000) ∧
    r !! "created_at" = Some (VTime 1000) ∧
    r !! "updated_at" = Some (VTime 1000) ∧
    r !! "expires_at" = Some (VTime (3000 + days 365)) ∧
    r !! "status" = Some (VText (lit "active")).
Proof.
  apply (credential_refresh_keeps_issued_at env0 1000 3000 db0 db0_issued []).
  - apply db0_api_keys.
  - intros r Hr. inversion Hr.
  - apply db0_issued_executed.
Defined.

(** *** A first run against a populated database *)

Lemma org_id_referenced_last (env : var → list N) (now : Z)
    (db : gmap string (list (gmap string value)))
    (orgs : list (gmap string value)) (r : gmap string value) :
  db !! "orgs" = Some (orgs ++ [new_row env now orgs_insert]) →
  r !! "org_id" = Some (VText (env OrgId)) →
  fk_holds db r ("org_id", ("orgs", "org_id")) = true.
Proof.
  intros Hdb Hr. unfold fk_holds. cbn [fst snd]. rewrite Hr, Hdb.
  change (default [] (Some ?l)) with l.
  rewrite existsb_app. cbn [existsb].
  by rewrite new_org_org_id, bool_decide_true, orb_true_r.
Qed.

(** X13. On a database in which no organization has the slug
    [e2e-admin-org] and no row carries one of the run's identifiers, the
    transaction succeeds and appends exactly one row to each of the three
    tables, after the rows already stored - also when another organization
    holds a user with the same email or a credential with the same
    fingerprint. *)
Theorem first_issuance_appends_three_rows
    (env : var → list N) (now : Z)
    (db : gmap string (list (gmap string value)))
    (orgs users keys : list (gmap string value)) :
  db !! "orgs" = Some orgs → db !! "users" = Some users →
  db !! "api_keys" = Some keys →
  (∀ r, r ∈ orgs → ¬ has_slug (lit "e2e-admin-org") r
                   ∧ r !! "org_id" ≠ Some (VText (env OrgId))) →
  (∀ r, r ∈ users → r !! "user_id" ≠ Some (VText (env UserId))
                    ∧ r !! "org_id" ≠ Some (VText (env OrgId))) →
  (∀ r, r ∈ keys → r !! "api_key_id" ≠ Some (VText (env ApiKeyId))
                   ∧ r !! "org_id" ≠ Some (VText (env OrgId))) →
  exec_transaction schema env now setup_statements db
  = inr (<["api_keys" := keys ++ [new_row env now api_keys_insert]]>
           (<["users" := users ++ [new_row env now users_insert]]>
              (<["orgs" := orgs ++ [new_row env now orgs_insert]]> db))).
Proof.
  intros Horgs Husers Hkeys Hno_org Hno_user Hno_key.
  unfold setup_statements. cbn [exec_transaction].
  rewrite (exec_insert_new env now orgs_insert _ db orgs schema_orgs Horgs
             eq_refl ltac:(by right; left)); cycle 1.
  { apply list_find_None, Forall_forall. intros r Hr Hagree.
    apply orgs_agree in Hagree. by destruct (Hno_org r Hr). }
  { cbn [unique existsb]. rewrite !existsb_none; [done| |].
    - intros r Hr. apply not_true_is_false. intros Hagree.
      rewrite agree_sym in Hagree. apply orgs_agree in Hagree.
      destruct (Hno_org r Hr). congruence.
    - intros r Hr. apply not_true_is_false. intros Hagree.
      apply agree_one in Hagree. rewrite new_org_org_id in Hagree.
      destruct (Hno_org r Hr). congruence. }
  { reflexivity. }
  change (into orgs_insert) with "orgs".
  set (dbA := <["orgs" := orgs ++ [new_row env now orgs_insert]]> db).
  assert (dbA !! "orgs" = Some (orgs ++ [new_row env now orgs_insert]))
    as HorgsA by apply lookup_insert_eq.
  rewrite (exec_insert_new env now users_insert _ dbA users schema_users
             ltac:(unfold dbA; by rewrite lookup_insert_ne)
             eq_refl ltac:(by right; left)); cycle 1.
  { apply list_find_None, Forall_forall. intros r Hr Hagree.
    apply agree_first in Hagree. rewrite new_user_org_id in Hagree.
    destruct (Hno_user r Hr). congruence. }
  { cbn [unique existsb]. rewrite !existsb_none; [done| |].
    - intros r Hr. apply not_true_is_false. intros Hagree.
      apply agree_first in Hagree. rewrite new_user_org_id in Hagree.
      destruct (Hno_user r Hr). congruence.
    - intros r Hr. apply not_true_is_false. intros Hagree.
      apply agree_one in Hagree. rewrite new_user_user_id in Hagree.
      destruct (Hno_user r Hr). congruence. }
  { cbn [references forallb].
    by rewrite (org_id_referenced_last env now dbA orgs)
      by (done || apply new_user_org_id). }
  change (into users_insert) with "users".
  set (dbB := <["users" := users ++ [new_row env now users_insert]]> dbA).
  rewrite (exec_insert_new env now api_keys_insert _ dbB keys schema_api_keys
             ltac:(unfold dbB, dbA; by rewrite !lookup_insert_ne)
             eq_refl ltac:(by right; left)); cycle 1.
  { apply list_find_None, Forall_forall. intros r Hr Hagree.
    apply agree_first in Hagree. rewrite new_key_org_id in Hagree.
    destruct (Hno_key r Hr). congruence. }
  { cbn [unique existsb]. rewrite !existsb_none; [done| |].
    - intros r Hr. apply not_true_is_false. intros Hagree.
      apply agree_first in Hagree. rewrite new_key_org_id in Hagree.
      destruct (Hno_key r Hr). congruence.
    - intros r Hr. apply not_true_is_false. intros Hagree.
      apply agree_one in Hagree. rewrite new_key_api_key_id in Hagree.
      destruct (Hno_key r Hr). congruence. }
  { cbn [references forallb].
    rewrite (org_id_referenced_last env now dbB orgs);
      [done| |apply new_key_org_id].
    unfold dbB. by rewrite lookup_insert_ne. }
  reflexivity.
Qed.

Lemma first_issuance_appends_three_rows_witness :
  exec_transaction schema env0 1000 setup_statements db_acme
  = inr (<["api_keys" := [acme_key] ++ [new_row env0 1000 api_keys_insert]]>
           (<["users" := [acme_user] ++ [new_row env0 1000 users_insert]]>
              (<["orgs" := [acme_org] ++ [new_row env0 1000 orgs_insert]]>
                 db_acme))).
Proof.
  apply (first_issuance_appends_three_rows env0 1000 db_acme
           [acme_org] [acme_user] [acme_key]).
  - reflexivity.
  - reflexivity.
  - reflexivity.
  - intros r ->%list_elem_of_singleton. split; vm_compute; discriminate.
  - intros r ->%list_elem_of_singleton. split; vm_compute; discriminate.
  - intros r ->%list_elem_of_singleton. split; vm_compute; discriminate.
Defined.

(** The transaction of [env0] on the database of the other tenant. *)
Lemma setup_on_acme :
  exec_transaction schema env0 1000 setup_statements db_acme
  = inr (<["api_keys" := [acme_key] ++ [new_row env0 1000 api_keys_insert]]>
           (<["users" := [acme_user] ++ [new_row env0 1000 users_insert]]>
              (<["orgs" := [acme_org] ++ [new_row env0 1000 orgs_insert]]>
                 db_acme))).
Proof.
  unfold setup_statements. cbn [exec_transaction].
  rewrite (exec_insert_new env0 1000 orgs_insert _ db_acme [acme_org]
             schema_orgs eq_refl eq_refl ltac:(by right; left));
    [|by vm_compute..].
  change (into orgs_insert) with "orgs".
  set (dbA := <["orgs" := [acme_org] ++ [new_row env0 1000 orgs_insert]]>
                db_acme).
  rewrite (exec_insert_new env0 1000 users_insert _ dbA [acme_user]
             schema_users eq_refl eq_refl ltac:(by right; left));
    [|by vm_compute|by vm_compute|]; last first.
  { cbn [references forallb].
    by rewrite (org_id_referenced_last env0 1000 dbA [acme_org])
      by (apply lookup_insert_eq || apply new_user_org_id). }
  change (into users_insert) with "users".
  set (dbB := <["users" := [acme_user] ++ [new_row env0 1000 users_insert]]>
                dbA).
  rewrite (exec_insert_new env0 1000 api_keys_insert _ dbB [acme_key]
             schema_api_keys eq_refl eq_refl ltac:(by right; left));
    [done|by vm_compute|by vm_compute|].
  cbn [references forallb].
  rewrite (org_id_referenced_last env0 1000 dbB [acme_org]);
    [done| |apply new_key_org_id].
  unfold dbB. rewrite lookup_insert_ne by done. apply lookup_insert_eq.
Qed.

(** *** What the transaction never does *)

Lemma exec_insert_keeps (env : var → list N) (now : Z) (i : insert)
    (db db' : gmap string (list (gmap string value))) :
  exec_insert schema env now i db = inr db' →
  ∃ rows rows',
    db !! into i = Some rows ∧ db' = <[into i := rows']> db ∧
    length rows ≤ length rows' ≤ S (length rows) ∧
    ∀ j r, rows !! j = Some r →
      ∃ r', rows' !! j = Some r'
            ∧ ∀ c, assigned i c = false → r' !! c = r !! c.
Proof.
  intros (rows & rows' & Hrows & -> & [->|(k & old & Hk & ->)])%exec_insert_inr;
    exists rows; eexists; (split; [done|]); (split; [done|]).
  - rewrite length_app. cbn [length]. split; [lia|].
    intros j r Hj. exists r. split; [|done].
    by apply lookup_app_l_Some.
  - rewrite length_insert. split; [lia|].
    intros j r Hj. destruct (decide (j = k)) as [->|Hne].
    + rewrite Hk in Hj. injection Hj as <-.
      exists (updated env now i old).
      split; [apply list_lookup_insert_eq; by eapply lookup_lt_Some|].
      intros c Hc. by apply updated_lookup.
    + exists r. split; [|done]. by rewrite list_lookup_insert_ne.
Qed.

Lemma assigned_only (i : insert) (c : string) :
  i ∈ setup_statements →
  c ∉ ["status"; "password_hash"; "expires_at"] → assigned i c = false.
Proof.
  intros Hi Hc. unfold assigned. apply bool_decide_eq_false. intros Hin.
  apply Hc. unfold setup_statements in Hi.
  repeat (apply elem_of_cons in Hi as [->|Hi];
          [cbn [updates orgs_insert users_insert api_keys_insert fmap
                list_fmap fst] in Hin;
           repeat (apply elem_of_cons in Hin as [->|Hin];
                   [by eapply (bool_decide_eq_true_1 _)|]);
           by apply elem_of_nil in Hin|]).
  by apply elem_of_nil in Hi.
Qed.

(** X14. Whatever the database holds, a transaction that commits has deleted
    no row and added at most one row to each of the three tables; every row
    stored before is still at its place, with every column other than
    [status], [password_hash] and [expires_at] unchanged; and tables other
    than [orgs], [users] and [api_keys] are not touched. *)
Theorem transaction_keeps_stored_rows
    (env : var → list N) (now : Z)
    (db db' : gmap string (list (gmap string value))) :
  exec_transaction schema env now setup_statements db = inr db' →
  (∀ t, t ∉ ["orgs"; "users"; "api_keys"] → db' !! t = db !! t)
  ∧ ∀ t, t ∈ ["orgs"; "users"; "api_keys"] →
      ∃ rows rows',
        db !! t = Some rows ∧ db' !! t = Some rows' ∧
        length rows ≤ length rows' ≤ S (length rows) ∧
        ∀ j r, rows !! j = Some r →
          ∃ r', rows' !! j = Some r'
                ∧ ∀ c, c ∉ ["status"; "password_hash"; "expires_at"] →
                       r' !! c = r !! c.
Proof.
  unfold setup_statements. cbn [exec_transaction].
  destruct (exec_insert schema env now orgs_insert db) as [|dbA] eqn:HA;
    [done|].
  destruct (exec_insert schema env now users_insert dbA) as [|dbB] eqn:HB;
    [done|].
  destruct (exec_insert schema env now api_keys_insert dbB) as [|dbC] eqn:HC;
    [done|].
  intros [= <-].
  apply exec_insert_keeps in HA as (orgs & orgs' & Horgs & -> & HlenA & HrowsA).
  apply exec_insert_keeps in HB
    as (users & users' & Husers & -> & HlenB & HrowsB).
  apply exec_insert_keeps in HC as (keys & keys' & Hkeys & -> & HlenC & HrowsC).
  change (into orgs_insert) with "orgs" in *.
  change (into users_insert) with "users" in *.
  change (into api_keys_insert) with "api_keys" in *.
  rewrite lookup_insert_ne in Husers by done.
  rewrite !lookup_insert_ne in Hkeys by done.
  split.
  { intros t Ht. rewrite !lookup_insert_ne; [done|..];
      intros <-; apply Ht; by eapply (bool_decide_eq_true_1 _). }
  intros t Ht.
  apply elem_of_cons in Ht as [->|Ht];
    [|apply elem_of_cons in Ht as [->|Ht];
      [|apply list_elem_of_singleton in Ht as ->]].
  - exists orgs, orgs'. split; [done|].
    split; [rewrite !lookup_insert_ne by done; apply lookup_insert_eq|].
    split; [done|]. intros j r Hj.
    destruct (HrowsA j r Hj) as (r' & Hj' & Hcols).
    exists r'. split; [done|]. intros c Hc. apply Hcols.
    apply assigned_only; [left|done].
  - exists users, users'. split; [done|].
    split; [rewrite lookup_insert_ne by done; apply lookup_insert_eq|].
    split; [done|]. intros j r Hj.
    destruct (HrowsB j r Hj) as (r' & Hj' & Hcols).
    exists r'. split; [done|]. intros c Hc. apply Hcols.
    apply assigned_only; [right; left|done].
  - exists keys, keys'. split; [done|].
    split; [apply lookup_insert_eq|].
    split; [done|]. intros j r Hj.
    destruct (HrowsC j r Hj) as (r' & Hj' & Hcols).
    exists r'. split; [done|]. intros c Hc. apply Hcols.
    apply assigned_only; [right; right; left|done].
Qed.

Lemma transaction_keeps_stored_rows_witness :
  let db' :=
    <["api_keys" := [acme_key] ++ [new_row env0 1000 api_keys_insert]]>
      (<["users" := [acme_user] ++ [new_row env0 1000 users_insert]]>
         (<["orgs" := [acme_org] ++ [new_row env0 1000 orgs_insert]]>
            db_acme)) in
  (∀ t, t ∉ ["orgs"; "users"; "api_keys"] → db' !! t = db_acme !! t)
  ∧ ∀ t, t ∈ ["orgs"; "users"; "api_keys"] →
      ∃ rows rows',
        db_acme !! t = Some rows ∧ db' !! t = Some rows' ∧
        length rows ≤ length rows' ≤ S (length rows) ∧
        ∀ j r, rows !! j = Some r →
          ∃ r', rows' !! j = Some r'
                ∧ ∀ c, c ∉ ["status"; "password_hash"; "expires_at"] →
                       r' !! c = r !! c.
Proof.
  apply (transaction_keeps_stored_rows env0 1000 db_acme).
  apply setup_on_acme.
Defined.

(** *** What the statements read *)

Lemma format_ext_holes (env env' : var → list N) (t : list item) :
  (∀ x, x ∈ holes t → env x = env' x) → format env t = format env' t.
Proof.
  unfold format, holes. induction t as [|[c|x] t IH]; intros Hext; [done| |].
  - cbn [mbind list_bind]. rewrite IH; [done|].
    intros x Hx. apply Hext. by apply elem_of_app; right.
  - cbn [mbind list_bind]. rewrite IH, Hext; [done| |].
    + apply elem_of_app. left. by left.
    + intros y Hy. apply Hext. by apply elem_of_app; right.
Qed.

Lemma eval_ext (env env' : var → list N) (now : Z) (e : expr) :
  (∀ x, x ∈ expr_holes e → env x = env' x) → eval env now e = eval env' now e.
Proof.
  intros Hext. destruct e; cbn [eval expr_holes] in *; try done;
    by rewrite (format_ext_holes env env').
Qed.

Lemma new_row_ext (env env' : var → list N) (now : Z) (i : insert) :
  (∀ x, x ∈ insert_holes i → env x = env' x) →
  new_row env now i = new_row env' now i.
Proof.
  intros Hext. unfold new_row. do 2 f_equal.
  apply list_fmap_ext. intros k e Hk. apply eval_ext.
  intros x Hx. apply Hext. unfold insert_holes.
  apply elem_of_app. left. apply list_elem_of_bind. exists e.
  split; [done|]. by apply list_elem_of_lookup_2 in Hk.
Qed.

Lemma updated_ext (env env' : var → list N) (now : Z) (i : insert)
    (old : gmap string value) :
  (∀ x, x ∈ insert_holes i → env x = env' x) →
  updated env now i old = updated env' now i old.
Proof.
  intros Hext. unfold updated.
  assert (∀ ce, ce ∈ updates i → eval env now ce.2 = eval env' now ce.2)
    as Heval.
  { intros ce Hce. apply eval_ext. intros x Hx. apply Hext.
    unfold insert_holes. apply elem_of_app. right.
    apply list_elem_of_bind. by exists ce. }
  revert old Heval. generalize (updates i). intros us.
  induction us as [|ce us IH]; intros old Heval; [done|].
  cbn [foldl]. rewrite (Heval ce) by left.
  apply IH. intros ce' Hce'. apply Heval. by right.
Qed.

Lemma exec_insert_ext (env env' : var → list N) (now : Z) (i : insert)
    (db : gmap string (list (gmap string value))) :
  (∀ x, x ∈ insert_holes i → env x = env' x) →
  exec_insert schema env now i db = exec_insert schema env' now i db.
Proof.
  intros Hext. unfold exec_insert.
  rewrite (new_row_ext env env' now i Hext).
  destruct (schema !! into i) as [cs|]; [|done].
  destruct (db !! into i) as [rows|]; [|done].
  destruct (negb (length (columns i) =? length (row i))); [done|].
  destruct (negb (bool_decide (conflict i ∈ unique cs))); [done|].
  cbv zeta. destruct (list_find _ rows) as [[k old]|]; [|done].
  by rewrite (updated_ext env env' now i old Hext).
Qed.

(** X15. The clear-text secret is never written to the database: none of
    the three statements reads the [secret] field (or the timestamp of the
    banner), so two runs whose other fields agree have the same effect on
    any database, whatever their secrets are. *)
Theorem stored_rows_ignore_the_secret
    (env env' : var → list N) (now : Z)
    (db : gmap string (list (gmap string value))) :
  (∀ x, x ∉ [Secret; Generated] → env x = env' x) →
  Forall (λ i, Secret ∉ insert_holes i) setup_statements
  ∧ exec_transaction schema env now setup_statements db
    = exec_transaction schema env' now setup_statements db
  ∧ run_transaction schema env now setup_statements db
    = run_transaction schema env' now setup_statements db.
Proof.
  intros Hext.
  assert (∀ i, i ∈ setup_statements →
               ∀ x, x ∈ insert_holes i → env x = env' x) as Hholes.
  { intros i Hi x Hx. apply Hext. intros Hsecret.
    unfold setup_statements in Hi.
    repeat (apply elem_of_cons in Hi as [->|Hi];
            [revert Hx; apply (bool_decide_eq_true_1 (x ∉ _));
             revert Hsecret;
             repeat (intros [->|Hsecret]%elem_of_cons; [reflexivity|revert Hsecret]);
             by intros ?%elem_of_nil|]).
    by apply elem_of_nil in Hi. }
  assert (exec_transaction schema env now setup_statements db
          = exec_transaction schema env' now setup_statements db) as Hexec.
  { revert db Hholes. generalize setup_statements. intros stmts.
    induction stmts as [|i stmts IH]; intros db Hholes; [done|].
    cbn [exec_transaction].
    rewrite (exec_insert_ext env env' now i db) by (apply Hholes; left).
    destruct (exec_insert schema env' now i db) as [|db']; [done|].
    apply IH. intros i' Hi'. apply Hholes. by right. }
  split.
  { unfold setup_statements.
    repeat (apply Forall_cons; split;
            [by apply (bool_decide_eq_true_1 (Secret ∉ _))|]).
    apply Forall_nil_2. }
  split; [exact Hexec|]. unfold run_transaction. by rewrite Hexec.
Qed.

Lemma stored_rows_ignore_the_secret_witness :
  Forall (λ i, Secret ∉ insert_holes i) setup_statements
  ∧ exec_transaction schema env0 1000 setup_statements db_acme
    = exec_transaction schema env0_disclosed 1000 setup_statements db_acme
  ∧ run_transaction schema env0 1000 setup_statements db_acme
    = run_transaction schema env0_disclosed 1000 setup_statements db_acme.
Proof.
  apply (stored_rows_ignore_the_secret env0 env0_disclosed 1000 db_acme).
  intros x Hx. destruct x; try reflexivity; exfalso; apply Hx.
  - right. left.
  - left.
Defined.

(** *** From the printed secret to the stored credential *)

(** X16. Issue, then look up: after the transaction of a completed run has
    committed on a database whose credential table satisfies its unique
    constraint, recomputing the fingerprint from the printed secret (lines
    16-17) and selecting the credentials of the run's organization with that
    fingerprint yields exactly one row, and that row is active and expires
    365 days after the transaction's [NOW()]. *)
Theorem issued_credential_found_by_fingerprint
    (w w' : world) (g : globals) (generated : list N) (now : Z)
    (db db' : gmap string (list (gmap string value)))
    (keys : list (gmap string value)) :
  script w = (Ok g, w') →
  db !! "api_keys" = Some keys →
  unique_on ["org_id"; "fingerprint"] keys →
  exec_transaction schema (fields generated g) now setup_statements db
    = inr db' →
  ∃ f keys' r,
    fingerprint_of (secret g) = Ok f ∧
    db' !! "api_keys" = Some keys' ∧
    filter (has_key (org_id g) f) keys' = [r] ∧
    r !! "status" = Some (VText (lit "active")) ∧
    r !! "expires_at" = Some (VTime (now + days 365)).
Proof.
  intros Hrun Hkeys Huniq.
  apply script_fingerprint in Hrun.
  unfold setup_statements. cbn [exec_transaction].
  set (env := fields generated g).
  destruct (exec_insert schema env now orgs_insert db) as [|dbA] eqn:HA;
    [done|].
  destruct (exec_insert schema env now users_insert dbA) as [|dbB] eqn:HB;
    [done|].
  destruct (exec_insert schema env now api_keys_insert dbB) as [|dbC] eqn:HC;
    [done|].
  intros [= <-].
  apply exec_insert_inr in HA as (orgs & orgs' & _ & -> & _).
  apply exec_insert_inr in HB as (users & users' & _ & -> & _).
  change (into orgs_insert) with "orgs" in *.
  change (into users_insert) with "users" in *.
  assert (<["users" := users']> (<["orgs" := orgs']> db) !! "api_keys"
          = Some keys) as HkeysB.
  { by rewrite !lookup_insert_ne. }
  destruct (api_keys_upsert_once env now _ dbC keys HkeysB Huniq HC)
    as (keys' & k & r & -> & _ & Hk & Hkey & Hone).
  destruct (api_keys_insert_again env now now _ _ HC)
    as (keys'' & k' & r' & Hdb & Hk' & Hkey' & Hr' & _).
  assert (keys'' = keys') as ->.
  { apply (f_equal (λ m, m !! "api_keys")) in Hdb.
    rewrite !lookup_insert_eq in Hdb. by injection Hdb. }
  assert (k' = k) as -> by by apply (Hone k' r').
  rewrite Hk in Hk'. injection Hk' as <-.
  exists (fingerprint g), keys', r.
  split; [done|]. split; [apply lookup_insert_eq|].
  split; [by apply (filter_single _ _ k)|].
  destruct Hr' as [->|[old ->]].
  - split; reflexivity.
  - rewrite api_keys_updated. split.
    + rewrite lookup_insert_ne by done. apply lookup_insert_eq.
    + apply lookup_insert_eq.
Qed.

Lemma issued_credential_found_by_fingerprint_witness :
  ∃ f keys' r,
    fingerprint_of (lit "AwoRGB8mLTQ7QklQV15lbHN6gYiPlp2kq7K5wMfO1dw") = Ok f ∧
    <["api_keys" := [acme_key] ++ [new_row env0 1000 api_keys_insert]]>
      (<["users" := [acme_user] ++ [new_row env0 1000 users_insert]]>
         (<["orgs" := [acme_org] ++ [new_row env0 1000 orgs_insert]]> db_acme))
      !! "api_keys" = Some keys' ∧
    filter (has_key (env0 OrgId) f) keys' = [r] ∧
    r !! "status" = Some (VText (lit "active")) ∧
    r !! "expires_at" = Some (VTime (1000 + days 365)).
Proof.
  apply (issued_credential_found_by_fingerprint
           w0 (script w0).2 (globals_of w0 (DateTime 2027 11 6 1 10 0 123456))
           (Calendar.isoformat (clock w0 1)) 1000 db_acme _ [acme_key]).
  - vm_compute. reflexivity.
  - reflexivity.
  - intros [|j1] [|j2] r1 r2 Hj1 Hj2 _; (done || by destruct j1 || by destruct j2).
  - apply setup_on_acme.
Defined.

(** ** The mock completion endpoint *)

(** White space ends the word being read: what precedes it and what follows
    it are split independently. *)
Lemma split_from_space (word s t : list N) (c : N) :
  isspace c = true →
  split_from word (s ++ c :: t) = split_from word s ++ split_from [] t.
Proof.
  intros Hc. revert word. induction s as [|x s IH]; intros word.
  - cbn [app split_from]. rewrite Hc. by destruct word.
  - cbn [app split_from]. destruct (isspace x).
    + destruct word; by rewrite IH.
    + apply IH.
Qed.

Lemma split_from_leading (ws s : list N) :
  Forall (λ c, isspace c = true) ws → split_from [] (ws ++ s) = split_from [] s.
Proof.
  induction 1 as [|c ws Hc _ IH]; [done|].
  cbn [app split_from]. by rewrite Hc.
Qed.

Lemma split_from_trailing (word s ws : list N) :
  Forall (λ c, isspace c = true) ws →
  split_from word (s ++ ws) = split_from word s.
Proof.
  intros Hws. destruct ws as [|c ws]; [by rewrite app_nil_r|].
  apply Forall_cons in Hws as [Hc Hws].
  rewrite split_from_space by done.
  rewrite <- (app_nil_r ws), split_from_leading by done.
  apply app_nil_r.
Qed.

Lemma split_length (s : list N) : length (split s) = word_count s.
Proof. unfold split. by rewrite split_from_length. Qed.

(** X17. A request that gives only a prompt is answered under the defaults of
    [CompletionRequest]: the model is [gpt-4o] and [tokens_used] is the
    prompt's word count plus ten for a prompt of at most 90 words, and 100
    for every longer one. *)
Theorem completions_default_request (prompt : list N) :
  let resp := completions (CompletionRequest_init prompt None None) in
  CompletionResponse.model resp = lit "gpt-4o"
  ∧ CompletionResponse.tokens_used resp
    = (if decide (length (split prompt) ≤ 90)%nat
       then Z.of_nat (length (split prompt)) + 10 else 100)%Z
  ∧ (10 ≤ CompletionResponse.tokens_used resp ≤ 100)%Z.
Proof.
  cbv zeta. unfold completions, CompletionRequest_init.
  cbn [CompletionResponse.model CompletionResponse.tokens_used
       CompletionRequest.model CompletionRequest.max_tokens
       CompletionRequest.prompt default].
  split; [reflexivity|]. case_decide; split; lia.
Qed.

(** X18. The handler does not validate [max_tokens]: a cap of at most ten,
    zero and negative numbers included, is returned as [tokens_used]
    whatever the prompt. *)
Theorem completions_low_cap (req : CompletionRequest.t) :
  (CompletionRequest.max_tokens req ≤ 10)%Z →
  CompletionResponse.tokens_used (completions req)
  = CompletionRequest.max_tokens req.
Proof.
  intros Hcap. unfold completions. cbn [CompletionResponse.tokens_used]. lia.
Qed.

Lemma completions_low_cap_witness :
  CompletionResponse.tokens_used
    (completions (CompletionRequest.Build (lit "one two three") (-5)
                                          (lit "gpt-4o")))
  = (-5)%Z.
Proof.
  apply (completions_low_cap
           (CompletionRequest.Build (lit "one two three") (-5) (lit "gpt-4o"))).
  simpl. lia.
Defined.

(** X19. White space around the prompt costs nothing: a prompt wrapped in
    white space has the words, and so the [tokens_used], of the bare prompt,
    and a prompt of white space only is charged the ten base tokens. *)
Theorem completions_ignores_outer_whitespace
    (req : CompletionRequest.t) (before after : list N) :
  Forall (λ c, isspace c = true) before →
  Forall (λ c, isspace c = true) after →
  let padded :=
    CompletionRequest.Build (before ++ CompletionRequest.prompt req ++ after)
                            (CompletionRequest.max_tokens req)
                            (CompletionRequest.model req) in
  let blank :=
    CompletionRequest.Build (before ++ after)
                            (CompletionRequest.max_tokens req)
                            (CompletionRequest.model req) in
  split (CompletionRequest.prompt padded) = split (CompletionRequest.prompt req)
  ∧ CompletionResponse.tokens_used (completions padded)
    = CompletionResponse.tokens_used (completions req)
  ∧ CompletionResponse.tokens_used (completions blank)
    = Z.min 10 (CompletionRequest.max_tokens req).
Proof.
  intros Hbefore Hafter. cbv zeta.
  cbn [CompletionRequest.prompt CompletionRequest.max_tokens].
  assert (Hsplit : split (before ++ CompletionRequest.prompt req ++ after)
                   = split (CompletionRequest.prompt req)).
  { unfold split. rewrite split_from_leading by done.
    by apply split_from_trailing. }
  split; [exact Hsplit|]. split.
  - unfold completions.
    cbn [CompletionResponse.tokens_used CompletionRequest.prompt
         CompletionRequest.max_tokens].
    by rewrite Hsplit.
  - unfold completions.
    cbn [CompletionResponse.tokens_used CompletionRequest.prompt
         CompletionRequest.max_tokens].
    unfold split. rewrite <- (app_nil_r after), split_from_leading by done.
    by rewrite split_from_leading by done.
Qed.

Lemma completions_ignores_outer_whitespace_witness :
  let req := CompletionRequest.Build (lit "one two") 100 (lit "gpt-4o") in
  let padded :=
    CompletionRequest.Build ([9; 32]%N ++ lit "one two" ++ [10; 160]%N)
                            100 (lit "gpt-4o") in
  let blank :=
    CompletionRequest.Build ([9; 32]%N ++ [10; 160]%N) 100 (lit "gpt-4o") in
  split (CompletionRequest.prompt padded) = split (CompletionRequest.prompt req)
  ∧ CompletionResponse.tokens_used (completions padded)
    = CompletionResponse.tokens_used (completions req)
  ∧ CompletionResponse.tokens_used (completions blank) = Z.min 10 100.
Proof.
  apply (completions_ignores_outer_whitespace
           (CompletionRequest.Build (lit "one two") 100 (lit "gpt-4o"))
           [9; 32]%N [10; 160]%N).
  - repeat constructor.
  - repeat constructor.
Defined.

(** X20. The answer's text is the prompt's words followed by the three words
    of the suffix, so a client that sends the answer back as its next prompt
    is charged three tokens more (up to the cap) and gets the suffix twice. *)
Theorem completions_fed_back (req : CompletionRequest.t) :
  let resp := completions req in
  let again :=
    completions (CompletionRequest.Build (CompletionResponse.text resp)
                                         (CompletionRequest.max_tokens req)
                                         (CompletionResponse.model resp)) in
  split (CompletionResponse.text resp)
  = split (CompletionRequest.prompt req)
    ++ [lit "[mock"; lit "inference"; lit "response]"]
  ∧ CompletionResponse.tokens_used again
    = Z.min (Z.of_nat (length (split (CompletionRequest.prompt req))) + 13)
            (CompletionRequest.max_tokens req)
  ∧ CompletionResponse.text again
    = CompletionRequest.prompt req ++ lit " [mock inference response]"
      ++ lit " [mock inference response]"
  ∧ CompletionResponse.model again = CompletionRequest.model req.
Proof.
  cbv zeta.
  assert (Hsplit : split (CompletionRequest.prompt req
                          ++ lit " [mock inference response]")
                   = split (CompletionRequest.prompt req)
                     ++ [lit "[mock"; lit "inference"; lit "response]"]).
  { unfold split.
    change (lit " [mock inference response]")
      with (32%N :: lit "[mock inference response]").
    by rewrite split_from_space. }
  unfold completions.
  cbn [CompletionResponse.text CompletionResponse.tokens_used
       CompletionResponse.model CompletionRequest.prompt
       CompletionRequest.max_tokens CompletionRequest.model].
  split; [exact Hsplit|]. split.
  - rewrite Hsplit, length_app. cbn [length]. lia.
  - split; [by rewrite <- app_assoc|reflexivity].
Qed.

